(** * Differential phase contrast (skxray/dpc.py): a shallow embedding

    The module [skxray.dpc] reduces detector images to two projections,
    fits an amplitude and a phase gradient per scan position, and
    integrates the two gradient maps into a phase image.

    Layout of this development:
    - [Py]     : Python exceptions, results, slice and index conventions;
    - [Np]     : numpy's 2-D arrays with a shape, item assignment, basic
                 slicing and [sum] along an axis, over any element type
                 with an exact addition;
    - [Cplx]   : complex numbers as pairs of reals;
    - [NpNum]  : [linspace], [fftshift], the discrete Fourier transforms,
                 [meshgrid], broadcasting, [unravel_index];
    - [Dpc]    : [image_reduction], [_rss_factory], [dpc_fit], [recon]
                 and [dpc_runner], transcribed from the source;
    - lemmas and theorems about them, by function.

    Numbers: Python floats and numpy's float64/complex128 are modelled by
    the real numbers of the Standard Library (and pairs of them), so
    rounding is outside the model; a non-finite float (nan, inf) is
    [None] in an [option].  [scipy.optimize.minimize] is a parameter. *)

From Stdlib Require Import String.
From Stdlib Require Import List ZArith Lia Bool Arith.
From Stdlib Require Import Reals Lra.
Import ListNotations.

(* ================================================================== *)
(** * Python: exceptions, results, indices and slices *)

Module Py.

(** The exception classes the code can raise, with the message for the
    two [raise] statements of the source and for numpy's own errors. *)
Inductive exn : Type :=
| ValueError (msg : string)
| IndexError (msg : string)
| ZeroDivisionError
| OptimizeError.   (* an exception that leaves scipy.optimize.minimize *)

(** the errors numpy and Python raise in the operations modelled below *)
Definition index_error : exn := IndexError "index is out of bounds".
Definition broadcast_error : exn := ValueError "could not broadcast input array".
Definition unpack_error : exn := ValueError "wrong number of values to unpack".
Definition operands_error : exn :=
  ValueError "operands could not be broadcast together".

Inductive result (A : Type) : Type :=
| Ok (a : A)
| Raise (e : exn).
Arguments Ok {A} a.
Arguments Raise {A} e.

Definition bind {A B} (m : result A) (k : A -> result B) : result B :=
  match m with
  | Ok a => k a
  | Raise e => Raise e
  end.

(** [PySlice_AdjustIndices] for step 1: a negative bound counts from
    the end, and the result is clamped to [0, n]. *)
Definition adjust_index (n : nat) (i : Z) : nat :=
  let i1 := if (i <? 0)%Z then (i + Z.of_nat n)%Z else i in
  if (i1 <? 0)%Z then 0
  else if (Z.of_nat n <=? i1)%Z then n
  else Z.to_nat i1.

(** An integer index into an axis of length [n]: [-n <= i < n], a
    negative one counting from the end; [None] is an IndexError. *)
Definition norm_index (n : nat) (i : Z) : option nat :=
  if ((0 <=? i) && (i <? Z.of_nat n))%Z then Some (Z.to_nat i)
  else if ((- Z.of_nat n <=? i) && (i <? 0))%Z then Some (Z.to_nat (i + Z.of_nat n))
  else None.

(** [l[n] = f(l[n])] on a list, nothing out of range (the callers
    check the range first, as numpy does). *)
Fixpoint update {A} (n : nat) (f : A -> A) (l : list A) : list A :=
  match l, n with
  | [], _ => []
  | x :: t, O => f x :: t
  | x :: t, S n' => x :: update n' f t
  end.

End Py.

Import Py.

Notation "x <- m ;; k" := (Py.bind m (fun x => k))
  (at level 61, m at next level, right associativity).
Notation "' p <- m ;; k" := (Py.bind m (fun p => k))
  (at level 61, p pattern, m at next level, right associativity).

(* ================================================================== *)
(** * Element types *)

(** What [np.sum] and [arr[i, j] = 0] need of a dtype: a zero and an
    addition.  The laws are those of exact arithmetic (integer detector
    counts, or idealised reals); floating-point addition satisfies them
    only up to rounding. *)
Class Dtype (A : Type) : Type := {
  dzero : A;
  dadd : A -> A -> A;
  dadd_comm : forall x y, dadd x y = dadd y x;
  dadd_assoc : forall x y z, dadd x (dadd y z) = dadd (dadd x y) z;
  dadd_0_l : forall x, dadd dzero x = x
}.

#[export] Instance Z_dtype : Dtype Z :=
  {| dzero := 0%Z; dadd := Z.add;
     dadd_comm := Z.add_comm; dadd_assoc := Z.add_assoc; dadd_0_l := Z.add_0_l |}.

#[export] Instance R_dtype : Dtype R :=
  {| dzero := 0%R; dadd := Rplus;
     dadd_comm := Rplus_comm;
     dadd_assoc := fun x y z => eq_sym (Rplus_assoc x y z);
     dadd_0_l := Rplus_0_l |}.

(* ================================================================== *)
(** * numpy: 2-D arrays *)

Module Np.

Section Arrays.
Context {A : Type} `{Dtype A}.

(** A 2-D array: its shape and its rows.  The shape is kept apart
    from the rows because an array with no row still has a number of
    columns ([np.zeros((0, 3)).sum(axis=0)] has three entries). *)
Record ndarray : Type := mk_ndarray {
  nrows : nat;
  ncols : nat;
  data : list (list A)
}.

Definition wf (a : ndarray) : Prop :=
  length (data a) = nrows a /\ Forall (fun r => length r = ncols a) (data a).

Definition wfb (a : ndarray) : bool :=
  (length (data a) =? nrows a) && forallb (fun r => length r =? ncols a) (data a).

(** [a[i, j] = v] *)
Definition setitem (a : ndarray) (i j : Z) (v : A) : result ndarray :=
  match norm_index (nrows a) i, norm_index (ncols a) j with
  | Some i', Some j' =>
      Ok (mk_ndarray (nrows a) (ncols a)
            (update i' (update j' (fun _ => v)) (data a)))
  | _, _ => Raise index_error
  end.

(** [a[r0:r1, c0:c1]] (basic slicing; the values of the view): on
    each axis the entries from the adjusted start up to the adjusted
    stop, none when the stop is not beyond the start *)
Definition getslice (a : ndarray) (r0 r1 c0 c1 : Z) : ndarray :=
  let ra := adjust_index (nrows a) r0 in
  let rb := adjust_index (nrows a) r1 in
  let ca := adjust_index (ncols a) c0 in
  let cb := adjust_index (ncols a) c1 in
  mk_ndarray (rb - ra) (cb - ca)
    (map (fun row => firstn (cb - ca) (skipn ca row))
         (firstn (rb - ra) (skipn ra (data a)))).

(** [np.sum] of a 1-D array *)
Definition sum (l : list A) : A := fold_right dadd dzero l.

(** elementwise binary operation on two 1-D arrays of one length *)
Fixpoint zip_with {B C D} (f : B -> C -> D) (l1 : list B) (l2 : list C) : list D :=
  match l1, l2 with
  | x :: t1, y :: t2 => f x y :: zip_with f t1 t2
  | _, _ => []
  end.

(** [np.sum(a, axis=0)]: one entry per column *)
Definition sum_axis0 (a : ndarray) : list A :=
  fold_right (zip_with dadd) (repeat dzero (ncols a)) (data a).

(** [np.sum(a, axis=1)]: one entry per row *)
Definition sum_axis1 (a : ndarray) : list A := map sum (data a).

(** the sum of all the entries *)
Definition total (a : ndarray) : A := sum (concat (data a)).

End Arrays.

Arguments ndarray A : clear implicits.

End Np.

Import Np.

(* ================================================================== *)
(** * Complex numbers (numpy's complex128, over exact reals) *)

Module Cplx.
Local Open Scope R_scope.

Record C : Type := mkC { Re : R; Im : R }.

Definition C0 : C := mkC 0 0.
Definition Ci : C := mkC 0 1.                       (* 1j *)
Definition RtoC (x : R) : C := mkC x 0.
Definition Cadd (a b : C) : C := mkC (Re a + Re b) (Im a + Im b).
Definition Csub (a b : C) : C := mkC (Re a - Re b) (Im a - Im b).
Definition Cneg (a : C) : C := mkC (- Re a) (- Im a).
Definition Cmul (a b : C) : C :=
  mkC (Re a * Re b - Im a * Im b) (Re a * Im b + Im a * Re b).
(** a real times a complex number *)
Definition Cscal (r : R) (z : C) : C := mkC (r * Re z) (r * Im z).
Definition Cconj (z : C) : C := mkC (Re z) (- Im z).
(** [np.exp] of a complex number *)
Definition Cexp (z : C) : C := Cscal (exp (Re z)) (mkC (cos (Im z)) (sin (Im z))).
(** the squared magnitude *)
Definition Cnorm2 (z : C) : R := Re z * Re z + Im z * Im z.

#[export] Instance C_dtype : Dtype C.
Proof.
  refine {| dzero := C0; dadd := Cadd |}.
  - intros [a b] [c d]. unfold Cadd; simpl. f_equal; ring.
  - intros [a b] [c d] [e f]. unfold Cadd; simpl. f_equal; ring.
  - intros [a b]. unfold Cadd, C0; simpl. f_equal; ring.
Defined.

End Cplx.

Import Cplx.

(* ================================================================== *)
(** * numpy: numeric routines *)

Module NpNum.
Local Open Scope R_scope.

(** A float that may be non-finite: [None] stands for nan and for
    +-inf.  numpy's arithmetic on arrays raises nothing on a division
    by zero (it warns and stores nan or inf); arithmetic on a
    non-finite operand stays non-finite. *)
Abbreviation nf := option (only parsing).

Definition nf_map2 {A B D} (f : A -> B -> D) (a : nf A) (b : nf B) : nf D :=
  match a, b with
  | Some x, Some y => Some (f x y)
  | _, _ => None
  end.

(** no entry of the array is nan or inf *)
Definition all_finite {A} (a : ndarray (option A)) : Prop :=
  Forall (Forall (fun x => x <> None)) (data a).

(** [x / d] in an array expression, [x] real *)
Definition nf_div (x : nf R) (d : nf R) : nf R :=
  match x, d with
  | Some x, Some d => if Req_EM_T d 0 then None else Some (x / d)
  | _, _ => None
  end.

(** [z / d] in an array expression, [z] complex and [d] real *)
Definition nf_cdiv (z : nf C) (d : nf R) : nf C :=
  match z, d with
  | Some z, Some d => if Req_EM_T d 0 then None else Some (Cscal (/ d) z)
  | _, _ => None
  end.

(** [np.arange(a, b)] for integers *)
Definition arange (a b : Z) : list Z :=
  map (fun k => (a + Z.of_nat k)%Z) (seq 0 (Z.to_nat (b - a))).

(** [np.linspace(start, stop, num)] with the end point: [num] samples,
    the first [num - 1] as [k * step + start], the last set to [stop]. *)
Definition linspace (start stop : R) (num : nat) : list R :=
  match num with
  | O => []
  | S O => [start]
  | S n =>
      let step := (stop - start) / INR n in
      map (fun k => INR k * step + start) (seq 0 n) ++ [stop]
  end.

(** [np.fft.fftshift] and [np.fft.ifftshift] along one axis *)
Definition fftshift {A} (x : list A) : list A :=
  let p2 := ((length x + 1) / 2)%nat in
  skipn p2 x ++ firstn p2 x.

Definition ifftshift {A} (x : list A) : list A :=
  let p2 := (length x - (length x + 1) / 2)%nat in
  skipn p2 x ++ firstn p2 x.

(** the same along both axes of a 2-D array *)
Definition fftshift2 {A} (a : ndarray A) : ndarray A :=
  mk_ndarray (nrows a) (ncols a) (fftshift (map fftshift (data a))).

Definition ifftshift2 {A} (a : ndarray A) : ndarray A :=
  mk_ndarray (nrows a) (ncols a) (ifftshift (map ifftshift (data a))).

(** [exp(i * theta)] *)
Definition cis (theta : R) : C := mkC (cos theta) (sin theta).

(** The discrete Fourier sum of [x] with the sign [s] in the exponent:
    entry [k] is the sum over [m] of [x[m] * exp(s * 2 pi i k m / n)]. *)
Definition dft (s : R) (x : list C) : list C :=
  let n := length x in
  map (fun k =>
         sum (map (fun '(m, xm) => Cmul xm (cis (s * 2 * PI * INR k * INR m / INR n)))
                  (combine (seq 0 n) x)))
      (seq 0 n).

Definition bad_fft_size : exn :=
  ValueError "Invalid number of FFT data points (0) specified.".

(** [np.fft.ifft] of a 1-D array *)
Definition ifft (x : list C) : result (list C) :=
  match x with
  | [] => Raise bad_fft_size
  | _ => Ok (map (Cscal (/ INR (length x))) (dft 1 x))
  end.

(** the columns of a 2-D array as lists *)
Definition column {A} (d : A) (a : ndarray A) (j : nat) : list A :=
  map (fun row => nth j row d) (data a).

(** the sum along both axes: along each row, then along each column *)
Definition dft2 (s : R) (a : ndarray C) : ndarray C :=
  let by_rows := mk_ndarray (nrows a) (ncols a) (map (dft s) (data a)) in
  let cols := map (fun j => dft s (column C0 by_rows j)) (seq 0 (ncols a)) in
  mk_ndarray (nrows a) (ncols a)
    (map (fun i => map (fun col => nth i col C0) cols) (seq 0 (nrows a))).

(** [np.fft.fft2] *)
Definition fft2 (a : ndarray C) : result (ndarray C) :=
  if ((nrows a =? 0) || (ncols a =? 0))%nat then Raise bad_fft_size
  else Ok (dft2 (-1) a).

(** [np.fft.ifft2] *)
Definition ifft2 (a : ndarray C) : result (ndarray C) :=
  if ((nrows a =? 0) || (ncols a =? 0))%nat then Raise bad_fft_size
  else
    let t := dft2 1 a in
    Ok (mk_ndarray (nrows a) (ncols a)
          (map (map (Cscal (/ (INR (nrows a) * INR (ncols a))))) (data t))).

(** [np.zeros((r, c))] *)
Definition zeros {A} `{Dtype A} (r c : nat) : ndarray A :=
  mk_ndarray r c (repeat (repeat dzero c) r).

(** an elementwise operation on one array, and on two of one shape *)
Definition amap {A B} (f : A -> B) (a : ndarray A) : ndarray B :=
  mk_ndarray (nrows a) (ncols a) (map (map f) (data a)).

Definition amap2 {A B D} (f : A -> B -> D) (a : ndarray A) (b : ndarray B) : ndarray D :=
  mk_ndarray (nrows a) (ncols a) (zip_with (zip_with f) (data a) (data b)).

(** [a[i, j]] for an index in range *)
Definition item {A} (d : A) (a : ndarray A) (i j : nat) : A :=
  nth j (nth i (data a) []) d.

(** Broadcasting of a 2-D array to the shape [(r, c)]: an axis of
    length one is repeated; any other mismatch is a ValueError. *)
Definition broadcast_to {A} (d : A) (a : ndarray A) (r c : nat) : result (ndarray A) :=
  if (((nrows a =? r) || (nrows a =? 1)) && ((ncols a =? c) || (ncols a =? 1)))%nat
  then Ok (mk_ndarray r c
             (map (fun i =>
                     map (fun j => item d a (if (nrows a =? r)%nat then i else 0%nat)
                                            (if (ncols a =? c)%nat then j else 0%nat))
                         (seq 0 c))
                  (seq 0 r)))
  else Raise broadcast_error.

(** [dst[r0:r1, c0:c1] = src]; a window whose end is before its start
    is empty *)
Definition setslice {A} (d : A) (dst : ndarray A) (r0 r1 c0 c1 : Z) (src : ndarray A)
    : result (ndarray A) :=
  let ra := adjust_index (nrows dst) r0 in
  let rb := Nat.max ra (adjust_index (nrows dst) r1) in
  let ca := adjust_index (ncols dst) c0 in
  let cb := Nat.max ca (adjust_index (ncols dst) c1) in
  src <- broadcast_to d src (rb - ra) (cb - ca) ;;
  Ok (mk_ndarray (nrows dst) (ncols dst)
        (firstn ra (data dst)
         ++ zip_with (fun drow srow => firstn ca drow ++ srow ++ skipn cb drow)
              (firstn (rb - ra) (skipn ra (data dst))) (data src)
         ++ skipn rb (data dst))).

(** [np.meshgrid(ax, ay)]: both of shape [(len(ay), len(ax))] *)
Definition meshgrid {A} (ax ay : list A) : ndarray A * ndarray A :=
  (mk_ndarray (length ay) (length ax) (map (fun _ => ax) ay),
   mk_ndarray (length ay) (length ax) (map (fun y => map (fun _ => y) ax) ay)).

Definition unravel_error : exn :=
  ValueError "index is out of bounds for array with this size".

(** [np.unravel_index(index, (rows, cols))] *)
Definition unravel_index (index rows cols : nat) : result (nat * nat) :=
  if (index <? rows * cols)%nat
  then Ok ((index / cols)%nat, (index mod cols)%nat)
  else Raise unravel_error.

(** Elementwise arithmetic on two 1-D arrays with broadcasting: equal
    lengths, or one of them of length one. *)
Definition broadcast1 {A B D} (f : A -> B -> D) (a : list A) (b : list B) : result (list D) :=
  match a, b with
  | [x], _ => Ok (map (fun y => f x y) b)
  | _, [y] => Ok (map (fun x => f x y) a)
  | _, _ =>
      if (length a =? length b)%nat then Ok (zip_with f a b)
      else Raise (ValueError "operands could not be broadcast together")
  end.

End NpNum.

Import NpNum.

(* ================================================================== *)
(** * skxray.dpc *)

Module Dpc.

(** [roi]: [[r, c, row, col]], the corner of the region and its size *)
Definition roi_t : Type := Z * Z * Z * Z.

(* ---------------------------------------------------------------- *)
(** ** Image reduction, lines 49-90 *)

Section Reduction.
Context {A : Type} `{Dtype A}.

(** Lines 79-81: [for row, column in bad_pixels: im[row, column] = 0] *)
Fixpoint zero_bad_pixels (im : ndarray A) (bad : list (Z * Z)) : result (ndarray A) :=
  match bad with
  | [] => Ok im
  | (row, column) :: rest =>
      im' <- setitem im row column dzero ;;
      zero_bad_pixels im' rest
  end.

(** Lines 83-85: [im = im[r : r + row, c : c + col]] *)
Definition crop (im : ndarray A) (roi : option roi_t) : ndarray A :=
  match roi with
  | None => im
  | Some (r, c, row, col) => getslice im r (r + row) c (c + col)
  end.

(** Lines 77-85: the array the two sums are taken of (the copy, its
    bad pixels zeroed, cropped to the region of interest). *)
Definition reduced_image (im : ndarray A) (roi : option roi_t)
    (bad_pixels : option (list (Z * Z))) : result (ndarray A) :=
  let im := im in (* im.copy() *)
  im <- match bad_pixels with
        | None => Ok im
        | Some bad => zero_bad_pixels im bad
        end ;;
  Ok (crop im roi).

(** [image_reduction(im, roi=None, bad_pixels=None)], lines 49-90 *)
Definition image_reduction (im : ndarray A) (roi : option roi_t)
    (bad_pixels : option (list (Z * Z))) : result (list A * list A) :=
  im <- reduced_image im roi bad_pixels ;;
  let xline := sum_axis0 im in
  let yline := sum_axis1 im in
  Ok (xline, yline).

(** ** The same function over a store of arrays

    [im.copy()] allocates a new array; the assignments of lines
    79-81 go to it.  The store is a list of arrays, an address is a
    position in it, and allocation appends.  (A Python reference
    always points to an object; an address outside the store is
    answered with an error to keep the functions total.) *)
Definition heap : Type := list (ndarray A).
Definition loc : Type := nat.

Definition copy (h : heap) (l : loc) : option (loc * heap) :=
  match nth_error h l with
  | Some a => Some (length h, h ++ [a])
  | None => None
  end.

Definition store (h : heap) (l : loc) (a : ndarray A) : heap :=
  update l (fun _ => a) h.

(** the loop of lines 80-81, writing through the address [l] *)
Fixpoint zero_bad_pixels_at (h : heap) (l : loc) (bad : list (Z * Z))
    : result unit * heap :=
  match bad with
  | [] => (Ok tt, h)
  | (row, column) :: rest =>
      match nth_error h l with
      | None => (Raise (IndexError "dangling array"), h)
      | Some a =>
          match setitem a row column dzero with
          | Ok a' => zero_bad_pixels_at (store h l a') l rest
          | Raise e => (Raise e, h)
          end
      end
  end.

Definition image_reduction_at (h : heap) (im : loc) (roi : option roi_t)
    (bad_pixels : option (list (Z * Z))) : result (list A * list A) * heap :=
  match copy h im with
  | None => (Raise (IndexError "dangling array"), h)
  | Some (im, h) =>
      let '(r, h) := match bad_pixels with
                     | None => (Ok tt, h)
                     | Some bad => zero_bad_pixels_at h im bad
                     end in
      match r with
      | Raise e => (Raise e, h)
      | Ok _ =>
          match nth_error h im with
          | None => (Raise (IndexError "dangling array"), h)
          | Some a =>
              let a := crop a roi in (* a view of the copy: no write *)
              (Ok (sum_axis0 a, sum_axis1 a), h)
          end
      end
  end.

(** every bad pixel is a valid index of the image *)
Definition bad_pixels_in_range (im : ndarray A) (bad_pixels : option (list (Z * Z))) : Prop :=
  match bad_pixels with
  | None => True
  | Some bad =>
      Forall (fun '(row, column) =>
                (- Z.of_nat (nrows im) <= row < Z.of_nat (nrows im))%Z /\
                (- Z.of_nat (ncols im) <= column < Z.of_nat (ncols im))%Z) bad
  end.

End Reduction.

Local Open Scope R_scope.

(* ---------------------------------------------------------------- *)
(** ** The residual model, lines 93-147 *)

(** Line 112: [beta = 1j * np.linspace(-(length-1)//2, (length-1)//2, length)].
    Both bounds are integers: [//] is floor division, and the unary
    minus applies before it. *)
Definition beta (length : nat) : list C :=
  let l := Z.of_nat length in
  map (fun y => Cmul Ci (RtoC y))
      (linspace (IZR ((- (l - 1)) / 2)) (IZR ((l - 1) / 2)) length).

(** Lines 114-145, the closure, with the captured [beta] as its first
    argument: [diff = arg2 - arg1 * v[0] * np.exp(v[1] * beta)] and
    [np.sum((diff * np.conj(diff)).real)]. *)
Definition _rss (beta : list C) (v : list R) (arg1 arg2 : list C) : result R :=
  match v with
  | v0 :: v1 :: _ =>
      let e := map (fun b => Cexp (Cscal v1 b)) beta in
      m <- broadcast1 Cmul (map (Cscal v0) arg1) e ;;
      diff <- broadcast1 Csub arg2 m ;;
      Ok (sum (map (fun d => Re (Cmul d (Cconj d))) diff))
  | _ => Raise index_error
  end.

(** [_rss_factory(length)], lines 93-147 *)
Definition _rss_factory (length : nat) : list R -> list C -> list C -> result R :=
  _rss (beta length).

(* ---------------------------------------------------------------- *)
(** ** Reconstruction, lines 215-289 *)

Definition w_error : exn := ValueError "w should be within the range of [0, 1]!".

(** Lines 263-269 for one gradient: the zero grid of the padded shape
    with [g] assigned to the window [roi_slice]. *)
Definition pad_gradient (g : ndarray R) (rows cols padding : nat) : result (ndarray R) :=
  let pad := (2 * padding + 1)%nat in
  let pad_row := (rows * pad)%nat in
  let pad_col := (cols * pad)%nat in
  let g_padding := zeros pad_row pad_col in
  setslice 0 g_padding
    (Z.of_nat (padding * rows)) (Z.of_nat ((padding + 1) * rows))
    (Z.of_nat (padding * cols)) (Z.of_nat ((padding + 1) * cols)) g.

(** Lines 274-279: [2 * np.pi * np.arange(1 - mid, n - mid + 1) / (n * d)]
    with [mid = n // 2 + 1]. *)
Definition freq_axis (n : nat) (d : R) : list (nf R) :=
  let mid := (Z.of_nat n / 2 + 1)%Z in
  map (fun k => nf_div (Some (2 * PI * IZR k)) (Some (INR n * d)))
      (arange (1 - mid) (Z.of_nat n - mid + 1)).

(** Line 282 at one cell *)
Definition div_cell (w : R) (kx ky : nf R) : nf R :=
  nf_map2 (fun kx ky => kx ^ 2 * (1 - w) + ky ^ 2 * w) kx ky.

(** Line 284 at one cell:
    [-1j * (kappax * tx * (1 - w) + kappay * ty * w) / div_v] *)
Definition c_cell (w : R) (kx ky : nf R) (tx ty : C) (div_v : nf R) : nf C :=
  nf_cdiv
    (nf_map2 (fun kx ky =>
                Cmul (Cneg Ci)
                     (Cadd (Cscal (1 - w) (Cscal kx tx)) (Cscal w (Cscal ky ty))))
             kx ky)
    div_v.

(** Line 285 at one cell: [np.where(div_v == 0, 0, c)] *)
Definition where_cell (div_v : nf R) (c : nf C) : nf C :=
  match div_v with
  | Some d => if Req_EM_T d 0 then Some C0 else c
  | None => c
  end.

(** Lines 271-285: the combined spectrum, masked, before the shift is
    undone. *)
Definition recon_spectrum (gx_padding gy_padding : ndarray R) (dx dy w : R)
    : result (ndarray (nf R) * ndarray (nf C)) :=
  let pad_row := nrows gx_padding in
  let pad_col := ncols gx_padding in
  tx <- fft2 (amap RtoC gx_padding) ;;
  let tx := fftshift2 tx in
  ty <- fft2 (amap RtoC gy_padding) ;;
  let ty := fftshift2 ty in
  let ax := freq_axis pad_col dx in
  let ay := freq_axis pad_row dy in
  let '(kappax, kappay) := meshgrid ax ay in
  let div_v := amap2 (div_cell w) kappax kappay in
  let c := amap2 (fun '(kx, ky, d) '(tx, ty) => c_cell w kx ky tx ty d)
             (amap2 pair (amap2 pair kappax kappay) div_v) (amap2 pair tx ty) in
  Ok (div_v, amap2 where_cell div_v c).

(** all the entries of an array, when every one is finite *)
Fixpoint finite_list {A} (l : list (nf A)) : option (list A) :=
  match l with
  | [] => Some []
  | Some x :: t => option_map (cons x) (finite_list t)
  | None :: _ => None
  end.

Definition finite_array {A} (a : ndarray (nf A)) : option (ndarray A) :=
  option_map (mk_ndarray (nrows a) (ncols a))
    (finite_list (map finite_list (data a))).

(** [np.fft.ifft2] of an array that may hold non-finite entries: one
    such entry makes every entry of the transform non-finite. *)
Definition nf_ifft2 (a : ndarray (nf C)) : result (ndarray (nf C)) :=
  match finite_array a with
  | Some a' => r <- ifft2 a' ;; Ok (amap Some r)
  | None =>
      if ((nrows a =? 0) || (ncols a =? 0))%nat then Raise bad_fft_size
      else Ok (mk_ndarray (nrows a) (ncols a)
                 (repeat (repeat None (ncols a)) (nrows a)))
  end.

(** [recon(gx, gy, dx, dy, padding=0, w=0.5)] *)
Definition recon (gx gy : ndarray R) (dx dy : R) (padding : nat) (w : R)
    : result (ndarray (nf R)) :=
  if Rlt_dec w 0 then Raise w_error
  else if Rlt_dec 1 w then Raise w_error
  else
    let rows := nrows gx in
    let cols := ncols gx in
    gx_padding <- pad_gradient gx rows cols padding ;;
    gy_padding <- pad_gradient gy rows cols padding ;;
    ' (_, c) <- recon_spectrum gx_padding gy_padding dx dy w ;;
    let c := ifftshift2 c in
    t <- nf_ifft2 c ;;
    let phi := amap (option_map Re)
                 (getslice t
                    (Z.of_nat (padding * rows)) (Z.of_nat ((padding + 1) * rows))
                    (Z.of_nat (padding * cols)) (Z.of_nat ((padding + 1) * cols))) in
    Ok phi.

(* ---------------------------------------------------------------- *)
(** ** The runner, lines 292-449 *)

Inductive axis : Type := X | Y.

(** What the runner does with its image source and with each scan
    position, in the order it does it. *)
Inductive event : Type :=
| Next (index : nat)                (* the source yielded its next image *)
| StopIteration                     (* the source had no image left *)
| Reduced (index : nat)             (* line 419 returned *)
| Fitted (index : nat) (a : axis).  (* line 426 or 427 returned *)

(** a computation that may raise and that leaves a trace of events *)
Definition W (A : Type) : Type := result A * list event.

Definition ret {A} (a : A) : W A := (Ok a, []).
Definition lift {A} (r : result A) : W A := (r, []).
Definition tell (e : event) : W unit := (Ok tt, [e]).
Definition bindW {A B} (m : W A) (k : A -> W B) : W B :=
  match m with
  | (Ok a, t) => let (r, t') := k a in (r, (t ++ t')%list)
  | (Raise e, t) => (Raise e, t)
  end.

Notation "x <~ m ;; k" := (bindW m (fun x => k))
  (at level 61, m at next level, right associativity).
Notation "' p <~ m ;; k" := (bindW m (fun p => k))
  (at level 61, p pattern, m at next level, right associativity).

(** [a / b] on Python floats *)
Definition pydiv (a b : R) : result R :=
  if Req_EM_T b 0 then Raise ZeroDivisionError else Ok (a / b).

(** [p, q = xs] *)
Definition unpack2 {A} (xs : list A) : result (A * A) :=
  match xs with
  | [p; q] => Ok (p, q)
  | _ => Raise unpack_error
  end.

Definition pixel_error : exn := ValueError "In DPC, detector pixels are squares!".

(** what the body of the loop can raise once the index is accepted *)
Definition loop_error (e : exn) : Prop :=
  e = index_error \/ e = bad_fft_size \/ e = OptimizeError \/ e = unpack_error.

(** the four maps the loop fills *)
Record maps : Type := mk_maps {
  m_ax : ndarray R; m_ay : ndarray R; m_gx : ndarray R; m_gy : ndarray R
}.

Section Runner.
(** [scipy.optimize.minimize(fun, x0, args, method, tol, options).x],
    with the objective already applied to [args]: a library routine
    the source calls and does not define.  [None] is an exception
    leaving it (its own, or one of the objective). *)
Variable minimize :
  (list R -> result R) -> list R -> string -> R -> nat -> option (list R).

(** [dpc_fit(rss, arg1, arg2, start_point, solver='Nelder-Mead',
    tol=1e-6, max_iters=2000)], lines 150-201 *)
Definition dpc_fit (rss : list R -> list C -> list C -> result R)
    (arg1 arg2 : list C) (start_point : list R) (solver : string)
    (tol : R) (max_iters : nat) : result (list R) :=
  match minimize (fun v => rss v arg1 arg2) start_point solver tol max_iters with
  | Some x => Ok x
  | None => Raise OptimizeError
  end.

(** [np.fft.fftshift(np.fft.ifft(line))] *)
Definition spectrum (line : list R) : result (list C) :=
  f <- ifft (map RtoC line) ;;
  Ok (fftshift f).

Section Loop.
Variables (ref_fx ref_fy : list C).
Variables (start_point : list R) (rows cols : nat) (solver : string).
Variables (roi : option roi_t) (bad_pixels : option (list (Z * Z))).

(** The body of the loop, lines 416-433, at one index *)
Definition scan_position (index : nat) (im : ndarray R) (m : maps) : W maps :=
  let ffx := _rss_factory (length ref_fx) in
  let ffy := _rss_factory (length ref_fy) in
  ' (i, j) <~ lift (unravel_index index rows cols) ;;
  ' (imx, imy) <~ lift (image_reduction im roi bad_pixels) ;;
  _ <~ tell (Reduced index) ;;
  fx <~ lift (spectrum imx) ;;
  fy <~ lift (spectrum imy) ;;
  ' (_ax, _gx) <~ lift (xs <- dpc_fit ffx ref_fx fx start_point solver
                                 (1 / 1000000) 2000 ;; unpack2 xs) ;;
  _ <~ tell (Fitted index X) ;;
  ' (_ay, _gy) <~ lift (xs <- dpc_fit ffy ref_fy fy start_point solver
                                 (1 / 1000000) 2000 ;; unpack2 xs) ;;
  _ <~ tell (Fitted index Y) ;;
  gx <~ lift (setitem (m_gx m) (Z.of_nat i) (Z.of_nat j) _gx) ;;
  gy <~ lift (setitem (m_gy m) (Z.of_nat i) (Z.of_nat j) _gy) ;;
  ax <~ lift (setitem (m_ax m) (Z.of_nat i) (Z.of_nat j) _ax) ;;
  ay <~ lift (setitem (m_ay m) (Z.of_nat i) (Z.of_nat j) _ay) ;;
  ret (mk_maps ax ay gx gy).

(** Line 415: [for index, im in enumerate(image_sequence)].  The
    loop asks the source for an image until it has none left;
    nothing else ends it but an exception. *)
Fixpoint scan (index : nat) (image_sequence : list (ndarray R)) (m : maps) : W maps :=
  match image_sequence with
  | [] => _ <~ tell StopIteration ;; ret m
  | im :: rest =>
      _ <~ tell (Next index) ;;
      m' <~ scan_position index im m ;;
      scan (S index) rest m'
  end.
End Loop.

(** the events of one scan position that goes through, and of [n]
    of them from [index] on *)
Definition position_trace (index : nat) : list event :=
  [Next index; Reduced index; Fitted index X; Fitted index Y].

Definition positions_trace (index n : nat) : list event :=
  flat_map position_trace (seq index n).

(** how many images the source was made to yield *)
Definition pulls (t : list event) : nat :=
  length (filter (fun e => match e with Next _ => true | _ => false end) t).

(** Lines 405-409: the spectra of the two projections of the
    reference image *)
Definition reference_spectra (ref : ndarray R) (roi : option roi_t)
    (bad_pixels : option (list (Z * Z))) : result (list C * list C) :=
  ' (refx, refy) <- image_reduction ref roi bad_pixels ;;
  ref_fx <- spectrum refx ;;
  ref_fy <- spectrum refy ;;
  Ok (ref_fx, ref_fy).

(** Lines 435-441: [if scale: ...] *)
Definition rescale (scale : bool) (pixel_size : R * R) (focus_to_det energy : R)
    (len_fx len_fy : nat) (gx gy : ndarray R) : result (ndarray R * ndarray R) :=
  if scale then
    if Req_EM_T (fst pixel_size) (snd pixel_size) then
      lambda_ <- pydiv (124 / 100000) energy ;;
      sx <- pydiv (INR len_fx * fst pixel_size) (lambda_ * focus_to_det) ;;
      let gx := amap (fun g => g * sx) gx in
      sy <- pydiv (INR len_fy * fst pixel_size) (lambda_ * focus_to_det) ;;
      let gy := amap (fun g => g * sy) gy in
      Ok (gx, gy)
    else Raise pixel_error
  else Ok (gx, gy).

(** Lines 435-449: what follows the loop *)
Definition after_scan (scale invert : bool) (pixel_size : R * R)
    (focus_to_det energy dx dy : R) (padding : nat) (w : R)
    (len_fx len_fy : nat) (m : maps) : result (ndarray (nf R) * ndarray R) :=
  ' (gx, gy) <- rescale scale pixel_size focus_to_det energy len_fx len_fy
                  (m_gx m) (m_gy m) ;;
  let gx := if invert then amap Ropp gx else gx in
  phi <- recon gx gy dx dy padding w ;;
  Ok (phi, amap2 (fun a b => (a + b) / 2) (m_ax m) (m_ay m)).

(** [dpc_runner(ref, image_sequence, start_point, pixel_size,
    focus_to_det, rows, cols, dx, dy, energy, padding=0, w=0.5,
    solver='Nelder-Mead', roi=None, bad_pixels=None, invert=True,
    scale=True)] *)
Definition dpc_runner (ref : ndarray R) (image_sequence : list (ndarray R))
    (start_point : list R) (pixel_size : R * R) (focus_to_det : R)
    (rows cols : nat) (dx dy energy : R) (padding : nat) (w : R)
    (solver : string) (roi : option roi_t) (bad_pixels : option (list (Z * Z)))
    (invert scale : bool) : W (ndarray (nf R) * ndarray R) :=
  if Rlt_dec w 0 then lift (Raise w_error)
  else if Rlt_dec 1 w then lift (Raise w_error)
  else
    let m := mk_maps (zeros rows cols) (zeros rows cols)
                     (zeros rows cols) (zeros rows cols) in
    ' (ref_fx, ref_fy) <~ lift (reference_spectra ref roi bad_pixels) ;;
    m <~ scan ref_fx ref_fy start_point rows cols solver roi bad_pixels
           0 image_sequence m ;;
    lift (after_scan scale invert pixel_size focus_to_det energy dx dy padding w
            (length ref_fx) (length ref_fy) m).

End Runner.

End Dpc.

(* ================================================================== *)
(** * The support as the specification words it *)

Module SpecText.
Local Open Scope R_scope.

(** True division: the end points are [-(length-1)/2] and
    [(length-1)/2]. *)
Definition beta_spec (length : nat) : list C :=
  map (fun y => Cmul Ci (RtoC y))
      (linspace (- (INR length - 1) / 2) ((INR length - 1) / 2) length).

End SpecText.

(* ================================================================== *)
(** * Data for the examples *)

Module Examples.
Local Open Scope R_scope.

(** a 2 x 3 image of counts, a region that sticks out of it on the
    right and below, and one bad pixel *)
Definition im23 : ndarray Z := mk_ndarray 2 3 [[1; 2; 3]; [4; 5; 6]]%Z.
Definition roi_out : Dpc.roi_t := (1, 1, 4, 5)%Z.
Definition roi_in : Dpc.roi_t := (0, 1, 2, 2)%Z.
Definition bad1 : list (Z * Z) := [(0, 1)]%Z.

(** a 1 x 2 pair of gradient maps *)
Definition gx12 : ndarray R := mk_ndarray 1 2 [[1; 2]].
Definition gy12 : ndarray R := mk_ndarray 1 2 [[3; 4]].

(** an optimizer that returns its starting point *)
Definition minimize_x0 (f : list R -> result R) (x0 : list R) (method : string)
    (tol : R) (maxiter : nat) : option (list R) := Some x0.
(** a detector image of one pixel *)
Definition im11 : ndarray R := mk_ndarray 1 1 [[1]].

End Examples.

(* ================================================================== *)
(** * The pixels a list of bad pixels marks *)

Module Marks.

(** the bad pixel [p] of an [h] x [w] image is the pixel [(i, j)] *)
Definition hits (h w : nat) (p : Z * Z) (i j : nat) : bool :=
  match norm_index h (fst p), norm_index w (snd p) with
  | Some i0, Some j0 => (i0 =? i) && (j0 =? j)
  | _, _ => false
  end.

(** some bad pixel of the list is the pixel [(i, j)] *)
Definition is_bad (h w : nat) (bad : list (Z * Z)) (i j : nat) : bool :=
  existsb (fun p => hits h w p i j) bad.

(** the list of bad pixels, none when the argument is [None] *)
Definition pixels (bad_pixels : option (list (Z * Z))) : list (Z * Z) :=
  match bad_pixels with Some bad => bad | None => [] end.

(** a region of interest that lies inside the image (no region at all
    counts as the whole image) *)
Definition valid_roi {A} (im : ndarray A) (roi : option Dpc.roi_t) : Prop :=
  match roi with
  | None => True
  | Some (r, c, row, col) =>
      (0 <= r /\ 0 <= c /\ 0 <= row /\ 0 <= col /\
       r + row <= Z.of_nat (nrows im) /\ c + col <= Z.of_nat (ncols im))%Z
  end.

(** the first row and column of a valid region, and its numbers of rows
    and columns *)
Definition region {A} (im : ndarray A) (roi : option Dpc.roi_t) : nat * nat * nat * nat :=
  match roi with
  | None => (0, 0, nrows im, ncols im)
  | Some (r, c, row, col) => (Z.to_nat r, Z.to_nat c, Z.to_nat row, Z.to_nat col)
  end.

End Marks.

Import Marks.

(* ================================================================== *)
(** * What the loop of the runner leaves in its four maps *)

Module ScanSpec.
Import Dpc.
Local Open Scope R_scope.

(** the four maps have the shape of the scan *)
Definition maps_shape (rows cols : nat) (m : maps) : Prop :=
  ((wf (m_ax m) /\ nrows (m_ax m) = rows /\ ncols (m_ax m) = cols) /\
   (wf (m_ay m) /\ nrows (m_ay m) = rows /\ ncols (m_ay m) = cols) /\
   (wf (m_gx m) /\ nrows (m_gx m) = rows /\ ncols (m_gx m) = cols) /\
   (wf (m_gy m) /\ nrows (m_gy m) = rows /\ ncols (m_gy m) = cols))%type.

(** the entries of the four maps at one scan position: the two
    amplitudes, then the two gradients *)
Definition cell (m : maps) (i j : nat) : R * R * R * R :=
  (item 0 (m_ax m) i j, item 0 (m_ay m) i j, item 0 (m_gx m) i j, item 0 (m_gy m) i j).

(** [(_ax, _ay, _gx, _gy)] are the values lines 419-427 compute for
    the image [im]: its two projections, their spectra, and the two fits
    against the spectra of the reference *)
Definition fitted
    (minimize : (list R -> result R) -> list R -> string -> R -> nat -> option (list R))
    (ref_fx ref_fy : list C) (start_point : list R) (solver : string)
    (roi : option roi_t) (bad_pixels : option (list (Z * Z)))
    (im : ndarray R) (vals : R * R * R * R) : Prop :=
  let '(_ax, _ay, _gx, _gy) := vals in
  exists imx imy fx fy,
    image_reduction im roi bad_pixels = Ok (imx, imy) /\
    spectrum imx = Ok fx /\ spectrum imy = Ok fy /\
    minimize (fun v => _rss_factory (length ref_fx) v ref_fx fx) start_point solver
      (1 / 1000000) 2000%nat = Some [_ax; _gx] /\
    minimize (fun v => _rss_factory (length ref_fy) v ref_fy fy) start_point solver
      (1 / 1000000) 2000%nat = Some [_ay; _gy].

End ScanSpec.

Import ScanSpec.

(* ================================================================== *)
(** * Facts: lists, indices and slices *)

Lemma C_eq (a b : C) : Re a = Re b -> Im a = Im b -> a = b.
Proof. destruct a, b; simpl; intros -> ->; reflexivity. Qed.

Section ListFacts.
Context {A : Type}.

Lemma length_update (n : nat) (f : A -> A) (l : list A) :
  length (update n f l) = length l.
Proof.
  revert n; induction l as [|x t IH]; intros [|n]; simpl; auto.
Qed.

Lemma nth_error_update_other (n m : nat) (f : A -> A) (l : list A) :
  n <> m -> nth_error (update n f l) m = nth_error l m.
Proof.
  revert n m; induction l as [|x t IH]; intros [|n] [|m] Hnm; simpl; auto.
  - congruence.
Qed.

Lemma nth_error_update_same (n : nat) (f : A -> A) (l : list A) (x : A) :
  nth_error l n = Some x -> nth_error (update n f l) n = Some (f x).
Proof.
  revert n; induction l as [|y t IH]; intros [|n]; simpl; try discriminate.
  - now intros [= ->].
  - apply IH.
Qed.

Lemma Forall_update (P : A -> Prop) (n : nat) (f : A -> A) (l : list A) :
  (forall x, P x -> P (f x)) -> Forall P l -> Forall P (update n f l).
Proof.
  intros Hf; revert n; induction l as [|x t IH]; intros [|n] HP; simpl;
    inversion HP; subst; constructor; auto.
Qed.

Lemma adjust_index_le (n : nat) (i : Z) : adjust_index n i <= n.
Proof.
  unfold adjust_index.
  destruct (i <? 0)%Z;
    repeat match goal with
           | |- context [(?a <? ?b)%Z] => destruct (Z.ltb_spec a b)
           | |- context [(?a <=? ?b)%Z] => destruct (Z.leb_spec a b)
           end; lia.
Qed.

(** a non-negative bound is clamped to the length *)
Lemma adjust_index_nonneg (n : nat) (i : Z) :
  (0 <= i)%Z -> adjust_index n i = Nat.min n (Z.to_nat i).
Proof.
  intros Hi. unfold adjust_index.
  destruct (Z.ltb_spec i 0); [lia|].
  destruct (Z.ltb_spec i 0); [lia|].
  destruct (Z.leb_spec (Z.of_nat n) i); lia.
Qed.

Lemma length_window (a b : nat) (l : list A) :
  b <= length l -> length (firstn (b - a) (skipn a l)) = b - a.
Proof.
  intros Hb. rewrite length_firstn, length_skipn. lia.
Qed.

Lemma In_window (a b : nat) (l : list A) (x : A) :
  In x (firstn b (skipn a l)) -> In x l.
Proof.
  intros Hx.
  rewrite <- (firstn_skipn a l). apply in_or_app. right.
  rewrite <- (firstn_skipn b (skipn a l)). apply in_or_app. now left.
Qed.

Lemma norm_index_in_range (n : nat) (i : Z) :
  (- Z.of_nat n <= i < Z.of_nat n)%Z -> exists k, norm_index n i = Some k /\ k < n.
Proof.
  intros Hi. unfold norm_index.
  destruct (Z.leb_spec 0 i); destruct (Z.ltb_spec i (Z.of_nat n)); simpl; try lia.
  - eexists; split; [reflexivity | lia].
  - destruct (Z.leb_spec (- Z.of_nat n) i); destruct (Z.ltb_spec i 0); simpl; try lia.
    eexists; split; [reflexivity | lia].
Qed.

Lemma nth_map_seq (f : nat -> A) (start n k : nat) (d : A) :
  k < n -> nth k (map f (seq start n)) d = f (start + k).
Proof.
  intros Hk.
  rewrite nth_indep with (d' := f 0) by (rewrite length_map, length_seq; lia).
  rewrite map_nth. now rewrite seq_nth.
Qed.

Lemma nth_map_in (B : Type) (f : B -> A) (l : list B) (k : nat) (d : A) (d' : B) :
  k < length l -> nth k (map f l) d = f (nth k l d').
Proof.
  intros Hk.
  rewrite nth_indep with (d' := f d') by (rewrite length_map; lia).
  apply map_nth.
Qed.

Lemma length_zip_with {B C} (f : A -> B -> C) (l1 : list A) (l2 : list B) :
  length (zip_with f l1 l2) = Nat.min (length l1) (length l2).
Proof.
  revert l2; induction l1 as [|x t IH]; intros [|y l2]; simpl; auto.
Qed.

End ListFacts.

(* ================================================================== *)
(** * Facts: sums of arrays *)

Section SumFacts.
Context {A : Type} `{Dtype A}.

Lemma dadd_0_r (x : A) : dadd x dzero = x.
Proof. rewrite dadd_comm. apply dadd_0_l. Qed.

Lemma sum_app (l1 l2 : list A) : sum (l1 ++ l2) = dadd (sum l1) (sum l2).
Proof.
  unfold sum. induction l1 as [|x t IH]; simpl.
  - now rewrite dadd_0_l.
  - now rewrite IH, dadd_assoc.
Qed.

Lemma sum_repeat_zero (n : nat) : sum (repeat dzero n) = dzero.
Proof.
  unfold sum. induction n as [|n IH]; simpl; auto.
  now rewrite IH, dadd_0_l.
Qed.

(** adding two vectors of one length adds their sums *)
Lemma sum_zip_with (l1 l2 : list A) :
  length l1 = length l2 ->
  sum (zip_with dadd l1 l2) = dadd (sum l1) (sum l2).
Proof.
  unfold sum. revert l2; induction l1 as [|x t IH]; intros [|y l2] Hlen;
    simpl in *; try discriminate.
  - now rewrite dadd_0_l.
  - rewrite IH by lia.
    rewrite <- !dadd_assoc. f_equal.
    rewrite !dadd_assoc. f_equal. apply dadd_comm.
Qed.

Lemma length_fold_zip (n : nat) (rows : list (list A)) :
  Forall (fun r => length r = n) rows ->
  length (fold_right (zip_with dadd) (repeat dzero n) rows) = n.
Proof.
  induction 1 as [|r rows Hr _ IH]; simpl.
  - apply repeat_length.
  - rewrite length_zip_with, IH, Hr. apply Nat.min_id.
Qed.

Lemma length_sum_axis0 (a : ndarray A) : wf a -> length (sum_axis0 a) = ncols a.
Proof. intros [_ Hrows]. now apply length_fold_zip. Qed.

Lemma length_sum_axis1 (a : ndarray A) : wf a -> length (sum_axis1 a) = nrows a.
Proof. intros [Hlen _]. unfold sum_axis1. now rewrite length_map. Qed.

(** the column sums add up to the sum of all the entries *)
Lemma sum_axis0_total (a : ndarray A) : wf a -> sum (sum_axis0 a) = total a.
Proof.
  intros [_ Hrows]. unfold sum_axis0, total.
  induction Hrows as [|r rows Hr Hrows IH]; simpl.
  - apply sum_repeat_zero.
  - rewrite sum_zip_with, sum_app, IH; auto.
    now rewrite length_fold_zip.
Qed.

(** and so do the row sums *)
Lemma sum_axis1_total (a : ndarray A) : sum (sum_axis1 a) = total a.
Proof.
  unfold sum_axis1, total.
  induction (data a) as [|r rows IH]; simpl; auto.
  rewrite sum_app, <- IH. reflexivity.
Qed.

Lemma wfb_wf (a : ndarray A) : wfb a = true -> wf a.
Proof.
  unfold wfb, wf. intros Hb. apply andb_true_iff in Hb as [H1 H2].
  split; [now apply Nat.eqb_eq|].
  apply Forall_forall. intros r Hr.
  rewrite forallb_forall in H2. now apply Nat.eqb_eq, H2.
Qed.

Lemma wf_setitem (a a' : ndarray A) (i j : Z) (v : A) :
  wf a -> setitem a i j v = Ok a' ->
  wf a' /\ nrows a' = nrows a /\ ncols a' = ncols a.
Proof.
  intros [Hlen Hrows]. unfold setitem.
  destruct (norm_index (nrows a) i); [|discriminate].
  destruct (norm_index (ncols a) j); [|discriminate].
  intros [= <-]. simpl. repeat split; auto.
  - simpl. now rewrite length_update.
  - simpl. apply Forall_update; auto.
    intros r Hr. now rewrite length_update.
Qed.

Lemma wf_getslice (a : ndarray A) (r0 r1 c0 c1 : Z) :
  wf a -> wf (getslice a r0 r1 c0 c1).
Proof.
  intros [Hlen Hrows]. unfold getslice, wf; simpl. split.
  - rewrite length_map. apply length_window.
    rewrite Hlen. apply adjust_index_le.
  - apply Forall_map.
    assert (Hsub : Forall (fun r => length r = ncols a)
                     (firstn (adjust_index (nrows a) r1 - adjust_index (nrows a) r0)
                        (skipn (adjust_index (nrows a) r0) (data a)))).
    { apply Forall_forall. intros r Hr.
      apply (proj1 (Forall_forall _ _) Hrows).
      eapply In_window, Hr. }
    eapply Forall_impl; [|exact Hsub].
    intros r Hr. simpl. apply length_window.
    rewrite Hr. apply adjust_index_le.
Qed.

End SumFacts.

(* ================================================================== *)
(** * Theorems: image reduction *)


Section ReductionTheorems.
Context {A : Type} `{Dtype A}.
Import Dpc.

Lemma zero_bad_pixels_ok (bad : list (Z * Z)) : forall im : ndarray A,
  wf im -> bad_pixels_in_range im (Some bad) ->
  exists im', zero_bad_pixels im bad = Ok im' /\ wf im' /\
              nrows im' = nrows im /\ ncols im' = ncols im.
Proof.
  induction bad as [|[row column] rest IH]; intros im Hwf Hbad; simpl in *.
  - exists im. auto.
  - inversion Hbad as [|? ? Hrc Hrest]; subst.
    simpl in Hrc. destruct Hrc as [Hr Hc].
    destruct (norm_index_in_range _ _ Hr) as (i & Hi & _).
    destruct (norm_index_in_range _ _ Hc) as (j & Hj & _).
    destruct (setitem im row column dzero) as [im1|e] eqn:H1;
      [|unfold setitem in H1; rewrite Hi, Hj in H1; discriminate].
    simpl.
    destruct (wf_setitem _ _ _ _ _ Hwf H1) as (Hwf1 & Hn1 & Hc1).
    destruct (IH im1 Hwf1) as (im' & Him' & Hwf' & Hn' & Hc').
    { rewrite Hn1, Hc1. exact Hrest. }
    exists im'. repeat split; auto; try congruence; apply Hwf'.
Qed.

Lemma reduced_image_ok (im : ndarray A) roi bad_pixels :
  wf im -> bad_pixels_in_range im bad_pixels ->
  exists im1, match bad_pixels with
              | None => Ok im
              | Some bad => zero_bad_pixels im bad
              end = Ok im1 /\
              wf im1 /\ nrows im1 = nrows im /\ ncols im1 = ncols im /\
              reduced_image im roi bad_pixels = Ok (crop im1 roi) /\
              wf (crop im1 roi).
Proof.
  intros Hwf Hbad. unfold reduced_image.
  assert (Hex : exists im1, match bad_pixels with
              | None => Ok im
              | Some bad => zero_bad_pixels im bad
              end = Ok im1 /\ wf im1 /\ nrows im1 = nrows im /\ ncols im1 = ncols im).
  { destruct bad_pixels as [bad|].
    - now apply zero_bad_pixels_ok.
    - exists im. auto. }
  destruct Hex as (im1 & E & Hwf1 & Hn & Hc).
  exists im1. rewrite E. simpl. repeat split; auto; try apply Hwf1.
  all: destruct roi as [[[[r c] row] col]|]; simpl; try apply Hwf1;
    apply wf_getslice; exact Hwf1.
Qed.

(** clipping the size of a window to the axis leaves its end
    where it was *)
Lemma window_clip (n : nat) (r row : Z) :
  (0 <= r)%Z -> (0 <= row)%Z ->
  adjust_index n (r + Z.min row (Z.of_nat n - r)) = adjust_index n (r + row).
Proof.
  intros Hr Hrow. rewrite !adjust_index_nonneg by lia. lia.
Qed.

End ReductionTheorems.

(** a region whose origin lies beyond the image: no column is left *)
Example image_reduction_origin_beyond :
  Dpc.image_reduction Examples.im23 (Some (0, 5, 1, 2)%Z) None = Ok ([], [0%Z]).
Proof. reflexivity. Qed.

Example image_reduction_im23 :
  Dpc.image_reduction Examples.im23 (Some Examples.roi_out)
    (Some Examples.bad1) = Ok ([5; 6]%Z, [11]%Z).
Proof. reflexivity. Qed.

(* ================================================================== *)
(** * Theorems: image reduction leaves the caller's array alone *)

Section ReductionFrame.
Context {A : Type} `{Dtype A}.
Import Dpc.

(** The loop of lines 80-81 writes to the one address it is given,
    and computes what [zero_bad_pixels] computes. *)
Lemma zero_bad_pixels_at_spec (bad : list (Z * Z)) :
  forall (h : heap) (l : loc) (a : ndarray A),
    nth_error h l = Some a ->
    (forall l', l' <> l ->
       nth_error (snd (zero_bad_pixels_at h l bad)) l' = nth_error h l') /\
    match zero_bad_pixels a bad with
    | Ok a' => fst (zero_bad_pixels_at h l bad) = Ok tt /\
               nth_error (snd (zero_bad_pixels_at h l bad)) l = Some a'
    | Raise e => fst (zero_bad_pixels_at h l bad) = Raise e
    end.
Proof.
  induction bad as [|[row column] rest IH]; intros h l a Hl; simpl.
  - auto.
  - rewrite Hl.
    destruct (setitem a row column dzero) as [a1|e]; simpl; [|auto].
    assert (Hl1 : nth_error (store h l a1) l = Some a1).
    { unfold store. now rewrite (nth_error_update_same l (fun _ => a1) h a Hl). }
    destruct (IH (store h l a1) l a1 Hl1) as [Hframe Hres].
    split; [|exact Hres].
    intros l' Hne. rewrite Hframe by exact Hne.
    unfold store. apply nth_error_update_other. congruence.
Qed.

(** One call: the result is that of the function on the array's
    value, and every array that was in the store is as it was. *)
Lemma image_reduction_at_spec (h : heap) (im : loc) (a : ndarray A) roi bad_pixels :
  nth_error h im = Some a ->
  fst (image_reduction_at h im roi bad_pixels) = image_reduction a roi bad_pixels /\
  forall l, l < length h ->
    nth_error (snd (image_reduction_at h im roi bad_pixels)) l = nth_error h l.
Proof.
  intros Him. unfold image_reduction_at, copy. rewrite Him.
  assert (Hnew : nth_error (h ++ [a]) (length h) = Some a).
  { rewrite nth_error_app2 by lia. now rewrite Nat.sub_diag. }
  assert (Hold : forall l, l < length h -> nth_error (h ++ [a]) l = nth_error h l).
  { intros l Hlt. now apply nth_error_app1. }
  unfold image_reduction, reduced_image.
  destruct bad_pixels as [bad|].
  - destruct (zero_bad_pixels_at_spec bad (h ++ [a]) (length h) a Hnew) as [Hframe Hres].
    destruct (zero_bad_pixels_at (h ++ [a]) (length h) bad) as [r h'] eqn:E.
    simpl in Hframe, Hres.
    destruct (zero_bad_pixels a bad) as [a'|e]; simpl.
    + destruct Hres as [-> Ha']. rewrite Ha'. simpl. split; [reflexivity|].
      intros l Hlt. rewrite Hframe by lia. now apply Hold.
    + rewrite Hres. simpl. split; [reflexivity|].
      intros l Hlt. rewrite Hframe by lia. now apply Hold.
  - simpl. rewrite Hnew. simpl. split; [reflexivity | exact Hold].
Qed.

(** C7. [image_reduction] called on an array of the store returns what
    the function of [(image, roi, bad_pixels)] returns, leaves the
    caller's array (and every other array of the store) with the
    values it had, and a second call with the same arguments returns
    the same result. *)
Theorem image_reduction_pure (h : heap) (im : loc) (a : ndarray A) roi bad_pixels :
  nth_error h im = Some a ->
  let (out1, h1) := image_reduction_at h im roi bad_pixels in
  let (out2, h2) := image_reduction_at h1 im roi bad_pixels in
  out1 = image_reduction a roi bad_pixels /\
  nth_error h1 im = Some a /\
  (forall l, l < length h -> nth_error h1 l = nth_error h l) /\
  out2 = out1 /\
  nth_error h2 im = Some a.
Proof.
  intros Him.
  assert (Hlt : im < length h) by (apply nth_error_Some; congruence).
  destruct (image_reduction_at_spec h im a roi bad_pixels Him) as [Hout1 Hframe1].
  destruct (image_reduction_at h im roi bad_pixels) as [out1 h1]. simpl in *.
  assert (Him1 : nth_error h1 im = Some a) by (rewrite Hframe1; auto).
  assert (Hlt1 : im < length h1) by (apply nth_error_Some; congruence).
  destruct (image_reduction_at_spec h1 im a roi bad_pixels Him1) as [Hout2 Hframe2].
  destruct (image_reduction_at h1 im roi bad_pixels) as [out2 h2]. simpl in *.
  repeat split; auto; try congruence.
  rewrite Hframe2; auto.
Qed.

End ReductionFrame.

(** C7 on a store that holds the example image *)
Lemma image_reduction_pure_witness :
  let (out1, h1) := Dpc.image_reduction_at [Examples.im23] 0
                      (Some Examples.roi_in) (Some Examples.bad1) in
  let (out2, h2) := Dpc.image_reduction_at h1 0
                      (Some Examples.roi_in) (Some Examples.bad1) in
  out1 = Dpc.image_reduction Examples.im23
           (Some Examples.roi_in) (Some Examples.bad1) /\
  nth_error h1 0 = Some Examples.im23 /\
  (forall l, l < 1 -> nth_error h1 l = nth_error [Examples.im23] l) /\
  out2 = out1 /\
  nth_error h2 0 = Some Examples.im23.
Proof.
  apply (image_reduction_pure [Examples.im23] 0 Examples.im23
           (Some Examples.roi_in) (Some Examples.bad1)).
  reflexivity.
Defined.

(** the private copy is the array that changes: after the call the store
    holds the caller's image untouched and, behind it, the zeroed copy *)
Example image_reduction_at_im23 :
  Dpc.image_reduction_at [Examples.im23] 0
    (Some Examples.roi_in) (Some Examples.bad1)
  = (Ok ([5; 9]%Z, [3; 11]%Z),
     [Examples.im23; mk_ndarray 2 3 [[1; 0; 3]; [4; 5; 6]]%Z]).
Proof. reflexivity. Qed.

(* ================================================================== *)
(** * Theorems: the frequency support of the residual model *)

Module Support.
Import Dpc SpecText.
Local Open Scope R_scope.


Lemma Ci_times (y : R) : Cmul Ci (RtoC y) = mkC 0 y.
Proof. apply C_eq; simpl; ring. Qed.

Lemma length_linspace (a b : R) (n : nat) : length (linspace a b n) = n.
Proof.
  destruct n as [|[|n]]; simpl; auto.
  rewrite length_app, length_map, length_seq. simpl. lia.
Qed.

(** the entries of [linspace] when the step is one *)
Lemma nth_linspace_unit (a b : R) (n k : nat) :
  (k < n)%nat -> b - a = INR n - 1 ->
  nth k (linspace a b n) 0 = a + INR k.
Proof.
  intros Hk Hab.
  destruct n as [|[|n]]; [lia| |].
  - assert (k = 0%nat) by lia. subst. simpl. ring.
  - unfold linspace.
    assert (Hstep : (b - a) / INR (S n) = 1).
    { rewrite Hab. rewrite (S_INR (S n)). field.
      rewrite S_INR. pose proof (pos_INR n). lra. }
    rewrite Hstep.
    destruct (Nat.eq_dec k (S n)) as [->|Hne].
    + rewrite app_nth2; rewrite length_map, length_seq; [|lia].
      rewrite Nat.sub_diag. simpl nth.
      rewrite (S_INR (S n)) in Hab. lra.
    + rewrite app_nth1 by (rewrite length_map, length_seq; lia).
      rewrite nth_map_seq by lia. simpl Nat.add. ring.
Qed.

(** the two integer bounds of line 112 *)
Lemma floor_bounds (n : nat) : (0 < n)%nat ->
  ((- (Z.of_nat n - 1)) / 2 = - Z.of_nat (n / 2))%Z /\
  ((Z.of_nat n - 1) / 2 = Z.of_nat n - 1 - Z.of_nat (n / 2))%Z.
Proof.
  intros Hn.
  rewrite Nat2Z.inj_div. simpl Z.of_nat.
  set (z := Z.of_nat n). assert (Hz : (0 < z)%Z) by (subst z; lia).
  clearbody z.
  pose proof (Z.div_mod z 2 ltac:(lia)) as Hdm.
  pose proof (Z.mod_pos_bound z 2 ltac:(lia)) as Hmb.
  split.
  - symmetry. apply Z.div_unique with (r := (2 * (z / 2) - z + 1)%Z); lia.
  - symmetry. apply Z.div_unique with (r := (1 - (z - 2 * (z / 2)))%Z); lia.
Qed.

Lemma length_beta (n : nat) : length (beta n) = n.
Proof. unfold beta. now rewrite length_map, length_linspace. Qed.

(** C2 (as the code has it). For every positive [length] the support
    has [length] entries, all purely imaginary, the [k]-th being
    [i * (k - length // 2)]: the integers from [-(length // 2)] to
    [(length - 1) // 2] in steps of one.  For an odd [length] these
    are the evenly spaced values from [-(length-1)/2] to
    [(length-1)/2]. *)
Theorem beta_entries (n k : nat) :
  (k < n)%nat ->
  length (beta n) = n /\
  nth k (beta n) C0 = mkC 0 (IZR (Z.of_nat k - Z.of_nat (n / 2))) /\
  (Nat.odd n = true -> nth k (beta n) C0 = nth k (beta_spec n) C0).
Proof.
  intros Hk. assert (Hn : (0 < n)%nat) by lia.
  destruct (floor_bounds n Hn) as [Hlo Hhi].
  split; [apply length_beta|].
  assert (Hcode : nth k (beta n) C0 = mkC 0 (IZR (Z.of_nat k - Z.of_nat (n / 2)))).
  { unfold beta. cbv zeta. rewrite Hlo, Hhi.
    rewrite nth_map_in with (d' := 0) by (rewrite length_linspace; lia).
    rewrite nth_linspace_unit; [|lia|].
    - rewrite Ci_times. f_equal.
      rewrite minus_IZR, opp_IZR, <- !INR_IZR_INZ. ring.
    - rewrite !minus_IZR, opp_IZR, <- !INR_IZR_INZ. simpl. ring. }
  split; [exact Hcode|].
  intros Hodd. rewrite Hcode.
  unfold beta_spec.
  rewrite nth_map_in with (d' := 0) by (rewrite length_linspace; lia).
  rewrite nth_linspace_unit; [|lia|field].
  rewrite Ci_times. f_equal.
  rewrite minus_IZR, <- !INR_IZR_INZ.
  assert (Hhalf : INR n = 2 * INR (n / 2) + 1).
  { apply Nat.odd_spec in Hodd. destruct Hodd as [m ->].
    replace ((2 * m + 1) / 2)%nat with m.
    - rewrite plus_INR, mult_INR. simpl. ring.
    - apply Nat.div_unique with (r := 1%nat); lia. }
  rewrite Hhalf. field.
Qed.

(** C2 for a support of three entries *)
Lemma beta_entries_witness :
  length (beta 3) = 3%nat /\
  nth 0 (beta 3) C0 = mkC 0 (IZR (Z.of_nat 0 - Z.of_nat (3 / 2))) /\
  (Nat.odd 3 = true -> nth 0 (beta 3) C0 = nth 0 (beta_spec 3) C0).
Proof. apply (beta_entries 3 0). lia. Defined.

(** C2 (as the specification has it) fails for an even [length]: for
    [length = 2] the code's support is [i * (-1), i * 0], the
    specification's is [i * (-1/2), i * (1/2)]. *)
Lemma beta_even_counterexample :
  beta 2 = [mkC 0 (-1); mkC 0 0] /\
  beta_spec 2 = [mkC 0 (-1 / 2); mkC 0 (1 / 2)] /\
  beta 2 <> beta_spec 2.
Proof.
  assert (H1 : beta 2 = [mkC 0 (-1); mkC 0 0]).
  { unfold beta, linspace. simpl map.
    change (1 / 2)%Z with 0%Z. change (-1 / 2)%Z with (-1)%Z.
    rewrite !Ci_times.
    repeat (apply f_equal2; [apply C_eq; cbn [Re Im INR]; lra|]). reflexivity. }
  assert (H2 : beta_spec 2 = [mkC 0 (-1 / 2); mkC 0 (1 / 2)]).
  { unfold beta_spec, linspace. simpl map.
    rewrite !Ci_times.
    repeat (apply f_equal2; [apply C_eq; cbn [Re Im INR]; lra|]). reflexivity. }
  repeat split; auto.
  rewrite H1, H2. intros [= Habs]. lra.
Qed.

End Support.

(* ================================================================== *)
(** * Theorems: the residual evaluator *)

Module Residual.
Import Dpc.
Local Open Scope R_scope.

Lemma broadcast1_same_length {A B D} (f : A -> B -> D) (a : list A) (b : list B) :
  length a = length b -> broadcast1 f a b = Ok (zip_with f a b).
Proof.
  intros Hlen. unfold broadcast1.
  destruct a as [|x [|x' a]]; destruct b as [|y [|y' b]]; simpl in *;
    try discriminate; try reflexivity.
  injection Hlen as Hlen. rewrite Hlen, Nat.eqb_refl. reflexivity.
Qed.

Lemma zip_with_nth {A B D} (f : A -> B -> D) (da : A) (db : B) :
  forall (a : list A) (b : list B) (n : nat),
    length a = n -> length b = n ->
    zip_with f a b = map (fun k => f (nth k a da) (nth k b db)) (seq 0 n).
Proof.
  induction a as [|x a IH]; intros [|y b] [|n] Ha Hb; simpl in *;
    try discriminate; auto.
  f_equal. rewrite <- seq_shift, map_map. apply IH; lia.
Qed.

Lemma sum_cons (x : R) (l : list R) : sum (x :: l) = x + sum l.
Proof. reflexivity. Qed.

Lemma sum_nonneg (l : list R) : Forall (fun x => 0 <= x) l -> 0 <= sum l.
Proof.
  induction 1 as [|x l Hx _ IH].
  - unfold sum; simpl. lra.
  - rewrite sum_cons. lra.
Qed.

Lemma Cnorm2_nonneg (z : C) : 0 <= Cnorm2 z.
Proof. unfold Cnorm2. nra. Qed.

(** [(d * conj(d)).real] is the squared magnitude of [d] *)
Lemma Re_mul_conj (d : C) : Re (Cmul d (Cconj d)) = Cnorm2 d.
Proof. unfold Cnorm2; simpl. ring. Qed.

(** C4. For parameters [(amplitude, phaseGradient)] and two spectra of
    the length the evaluator was built for, the evaluator returns the
    sum over all [k] of
    [|target[k] - reference[k] * amplitude * exp(phaseGradient * beta[k])|^2],
    a real number that is not negative. *)
Theorem rss_value (n : nat) (amplitude phaseGradient : R) (reference target : list C) :
  length reference = n -> length target = n ->
  exists r,
    _rss_factory n [amplitude; phaseGradient] reference target = Ok r /\
    r = sum (map (fun k =>
                    Cnorm2 (Csub (nth k target C0)
                              (Cmul (Cscal amplitude (nth k reference C0))
                                 (Cexp (Cscal phaseGradient (nth k (beta n) C0))))))
                 (seq 0 n)) /\
    0 <= r.
Proof.
  intros Href Htgt.
  unfold _rss_factory, _rss.
  rewrite broadcast1_same_length
    by (rewrite !length_map, Support.length_beta; exact Href).
  cbv beta iota delta [Py.bind].
  rewrite broadcast1_same_length.
  2:{ rewrite length_zip_with, !length_map, Support.length_beta, Href, Htgt.
      now rewrite Nat.min_id. }
  cbv beta iota delta [Py.bind].
  eexists. split; [reflexivity|].
  assert (Hinner : length (zip_with Cmul (map (Cscal amplitude) reference)
                             (map (fun b => Cexp (Cscal phaseGradient b)) (beta n))) = n).
  { rewrite length_zip_with, !length_map, Support.length_beta, Href.
    apply Nat.min_id. }
  rewrite (zip_with_nth Csub C0 C0 target _ n Htgt Hinner).
  rewrite map_map.
  assert (Heq : forall k, (k < n)%nat ->
            Re (Cmul (Csub (nth k target C0)
                        (nth k (zip_with Cmul (map (Cscal amplitude) reference)
                                  (map (fun b => Cexp (Cscal phaseGradient b)) (beta n))) C0))
                  (Cconj (Csub (nth k target C0)
                        (nth k (zip_with Cmul (map (Cscal amplitude) reference)
                                  (map (fun b => Cexp (Cscal phaseGradient b)) (beta n))) C0))))
            = Cnorm2 (Csub (nth k target C0)
                        (Cmul (Cscal amplitude (nth k reference C0))
                           (Cexp (Cscal phaseGradient (nth k (beta n) C0)))))).
  { intros k Hk. rewrite Re_mul_conj. do 2 f_equal.
    rewrite (zip_with_nth Cmul C0 C0 _ _ n)
      by (rewrite !length_map, ?Support.length_beta; auto).
    rewrite nth_map_seq by exact Hk. simpl Nat.add.
    rewrite nth_map_in with (d' := C0) by lia.
    rewrite (nth_map_in C (fun b => Cexp (Cscal phaseGradient b)) (beta n) k C0 C0)
      by (rewrite Support.length_beta; exact Hk).
    reflexivity. }
  split.
  - f_equal. apply map_ext_in. intros k Hk.
    apply in_seq in Hk. apply Heq. lia.
  - apply sum_nonneg. apply Forall_forall. intros x Hx.
    apply in_map_iff in Hx as (k & <- & Hk).
    apply in_seq in Hk. rewrite Heq by lia. apply Cnorm2_nonneg.
Qed.

(** C4 for two spectra of two entries *)
Lemma rss_value_witness :
  exists r,
    _rss_factory 2 [1; 0] [mkC 1 0; mkC 0 1] [mkC 1 0; mkC 0 1] = Ok r /\
    r = sum (map (fun k =>
                    Cnorm2 (Csub (nth k [mkC 1 0; mkC 0 1] C0)
                              (Cmul (Cscal 1 (nth k [mkC 1 0; mkC 0 1] C0))
                                 (Cexp (Cscal 0 (nth k (beta 2) C0))))))
                 (seq 0 2)) /\
    0 <= r.
Proof.
  apply (rss_value 2 1 0 [mkC 1 0; mkC 0 1] [mkC 1 0; mkC 0 1]); reflexivity.
Defined.

End Residual.

(* ================================================================== *)
(** * Facts: shapes and entries of arrays *)

Section ArrayFacts.

Lemma nth_zip_with {A B D} (f : A -> B -> D) (l1 : list A) (l2 : list B)
    (k : nat) (d : D) (da : A) (db : B) :
  k < length l1 -> k < length l2 ->
  nth k (zip_with f l1 l2) d = f (nth k l1 da) (nth k l2 db).
Proof.
  revert l2 k; induction l1 as [|x t IH]; intros [|y l2] [|k] H1 H2; simpl in *;
    try lia; auto.
  apply IH; lia.
Qed.

Lemma Forall_zip_with {A B D} (f : A -> B -> D) (P : D -> Prop)
    (Q1 : A -> Prop) (Q2 : B -> Prop) (l1 : list A) (l2 : list B) :
  (forall x y, Q1 x -> Q2 y -> P (f x y)) ->
  Forall Q1 l1 -> Forall Q2 l2 -> Forall P (zip_with f l1 l2).
Proof.
  intros Hf H1; revert l2; induction H1 as [|x t Hx _ IH]; intros l2 H2; simpl.
  - constructor.
  - destruct H2 as [|y l2 Hy H2]; constructor; auto.
Qed.

(** a list with the window [a, b) replaced by [s] *)
Lemma length_patch {A} (a b : nat) (l s : list A) :
  a <= b -> b <= length l -> length s = b - a ->
  length (firstn a l ++ s ++ skipn b l) = length l.
Proof.
  intros Hab Hb Hs. rewrite !length_app, length_firstn, length_skipn. lia.
Qed.

Lemma nth_patch {A} (a b : nat) (l s : list A) (k : nat) (d : A) :
  a <= b -> b <= length l -> length s = b - a ->
  nth k (firstn a l ++ s ++ skipn b l) d
  = if (a <=? k) && (k <? b) then nth (k - a) s d else nth k l d.
Proof.
  intros Hab Hb Hs.
  assert (Hfa : length (firstn a l) = a) by (rewrite length_firstn; lia).
  destruct (Nat.leb_spec a k) as [Hak|Hak]; simpl.
  - rewrite app_nth2 by lia. rewrite Hfa.
    destruct (Nat.ltb_spec k b) as [Hkb|Hkb].
    + now rewrite app_nth1 by lia.
    + rewrite app_nth2 by lia. rewrite nth_skipn. f_equal. lia.
  - rewrite app_nth1 by lia. rewrite nth_firstn.
    destruct (Nat.ltb_spec k a); [reflexivity | lia].
Qed.

Lemma length_fftshift {B} (x : list B) : length (fftshift x) = length x.
Proof.
  unfold fftshift. rewrite length_app, length_skipn, length_firstn.
  pose proof (Nat.Div0.div_le_upper_bound (length x + 1) 2 (length x)). lia.
Qed.

Lemma length_ifftshift {B} (x : list B) : length (ifftshift x) = length x.
Proof.
  unfold ifftshift. rewrite length_app, length_skipn, length_firstn. lia.
Qed.

Lemma Forall_rotate {B} (P : B -> Prop) (p : nat) (x : list B) :
  Forall P x -> Forall P (skipn p x ++ firstn p x).
Proof.
  intros HP. apply Forall_app. split.
  - apply Forall_forall. intros y Hy.
    apply (proj1 (Forall_forall P x) HP).
    rewrite <- (firstn_skipn p x). apply in_or_app. now right.
  - apply Forall_forall. intros y Hy.
    apply (proj1 (Forall_forall P x) HP).
    rewrite <- (firstn_skipn p x). apply in_or_app. now left.
Qed.

Lemma wf_fftshift2 {A} (a : ndarray A) : wf a -> wf (fftshift2 a).
Proof.
  intros [Hlen Hrows]. split; cbn [nrows ncols data fftshift2].
  - now rewrite length_fftshift, length_map.
  - apply Forall_rotate. apply Forall_map.
    eapply Forall_impl; [|exact Hrows].
    intros r Hr. cbv beta. now rewrite length_fftshift.
Qed.

Lemma wf_ifftshift2 {A} (a : ndarray A) : wf a -> wf (ifftshift2 a).
Proof.
  intros [Hlen Hrows]. split; cbn [nrows ncols data ifftshift2].
  - now rewrite length_ifftshift, length_map.
  - apply Forall_rotate. apply Forall_map.
    eapply Forall_impl; [|exact Hrows].
    intros r Hr. cbv beta. now rewrite length_ifftshift.
Qed.

Lemma wf_amap {A B} (f : A -> B) (a : ndarray A) : wf a -> wf (amap f a).
Proof.
  intros [Hlen Hrows]. split; simpl.
  - now rewrite length_map.
  - apply Forall_map. eapply Forall_impl; [|exact Hrows].
    intros r Hr. simpl. now rewrite length_map.
Qed.

Lemma wf_amap2 {A B D} (f : A -> B -> D) (a : ndarray A) (b : ndarray B) :
  wf a -> wf b -> nrows b = nrows a -> ncols b = ncols a -> wf (amap2 f a b).
Proof.
  intros [Hla Hra] [Hlb Hrb] Hn Hc. split; simpl.
  - rewrite length_zip_with. lia.
  - eapply Forall_zip_with; [|exact Hra|exact Hrb].
    intros x y Hx Hy. simpl in *. rewrite length_zip_with. lia.
Qed.

Lemma item_amap2 {A B D} (f : A -> B -> D) (a : ndarray A) (b : ndarray B)
    (i j : nat) (da : A) (db : B) (d : D) :
  wf a -> wf b -> nrows b = nrows a -> ncols b = ncols a ->
  i < nrows a -> j < ncols a ->
  item d (amap2 f a b) i j = f (item da a i j) (item db b i j).
Proof.
  intros [Hla Hra] [Hlb Hrb] Hn Hc Hi Hj. unfold item, amap2. simpl.
  rewrite (nth_zip_with (zip_with f) (data a) (data b) i [] [] []) by lia.
  assert (Hrow_a : length (nth i (data a) []) = ncols a).
  { apply (proj1 (Forall_forall _ _) Hra). apply nth_In. lia. }
  assert (Hrow_b : length (nth i (data b) []) = ncols b).
  { apply (proj1 (Forall_forall _ _) Hrb). apply nth_In. lia. }
  apply nth_zip_with; lia.
Qed.

Lemma wf_zeros {A} `{Dtype A} (r c : nat) : wf (zeros r c : ndarray A).
Proof.
  split; simpl.
  - apply repeat_length.
  - apply Forall_forall. intros x Hx. apply repeat_spec in Hx. subst.
    apply repeat_length.
Qed.

Lemma item_zeros {A} `{Dtype A} (r c i j : nat) :
  item dzero (zeros r c : ndarray A) i j = dzero.
Proof.
  unfold item, zeros. cbn [data].
  destruct (Nat.ltb_spec i r).
  - rewrite nth_repeat_lt by lia. apply nth_repeat.
  - rewrite (nth_overflow (repeat (repeat dzero c) r) [])
      by (rewrite repeat_length; lia).
    now destruct j.
Qed.

(** [broadcast_to] on an array that has the shape already *)
Lemma broadcast_to_same {A} (d : A) (a : ndarray A) (r c : nat) :
  nrows a = r -> ncols a = c ->
  exists a', broadcast_to d a r c = Ok a' /\ wf a' /\
             nrows a' = r /\ ncols a' = c /\
             forall i j, i < r -> j < c -> item d a' i j = item d a i j.
Proof.
  intros Hr Hc. unfold broadcast_to.
  rewrite Hr, Hc, !Nat.eqb_refl. simpl.
  eexists. split; [reflexivity|]. repeat split; simpl.
  - now rewrite length_map, length_seq.
  - apply Forall_map, Forall_forall. intros i _.
    now rewrite length_map, length_seq.
  - intros i j Hi Hj. unfold item at 1. simpl.
    rewrite nth_map_seq with (d := []) by exact Hi.
    rewrite nth_map_seq by exact Hj. reflexivity.
Qed.

(** [dst[r0:r1, c0:c1] = src] for a source of the shape of the window:
    the window holds the source, the rest of [dst] is as it was *)
Lemma setslice_spec {A} (d : A) (dst src : ndarray A) (r0 r1 c0 c1 : Z) :
  wf dst ->
  adjust_index (nrows dst) r0 <= adjust_index (nrows dst) r1 ->
  adjust_index (ncols dst) c0 <= adjust_index (ncols dst) c1 ->
  nrows src = adjust_index (nrows dst) r1 - adjust_index (nrows dst) r0 ->
  ncols src = adjust_index (ncols dst) c1 - adjust_index (ncols dst) c0 ->
  exists out, setslice d dst r0 r1 c0 c1 src = Ok out /\ wf out /\
    nrows out = nrows dst /\ ncols out = ncols dst /\
    forall i j, i < nrows dst -> j < ncols dst ->
      item d out i j =
      if (adjust_index (nrows dst) r0 <=? i) && (i <? adjust_index (nrows dst) r1)
         && ((adjust_index (ncols dst) c0 <=? j) && (j <? adjust_index (ncols dst) c1))
      then item d src (i - adjust_index (nrows dst) r0) (j - adjust_index (ncols dst) c0)
      else item d dst i j.
Proof.
  intros [Hlen Hrows].
  pose proof (adjust_index_le (nrows dst) r1) as Hrb.
  pose proof (adjust_index_le (ncols dst) c1) as Hcb.
  set (ra := adjust_index (nrows dst) r0). set (rb := adjust_index (nrows dst) r1) in *.
  set (ca := adjust_index (ncols dst) c0). set (cb := adjust_index (ncols dst) c1) in *.
  intros Hra Hca Hn Hc.
  destruct (broadcast_to_same d src (rb - ra) (cb - ca) Hn Hc)
    as (src' & Hb & [Hlen' Hrows'] & Hn' & Hc' & Hitem').
  unfold setslice. fold ra rb ca cb.
  rewrite (Nat.max_r ra rb Hra), (Nat.max_r ca cb Hca).
  rewrite Hb. cbv beta iota delta [Py.bind].
  set (g := fun drow srow : list A => firstn ca drow ++ srow ++ skipn cb drow).
  set (win := firstn (rb - ra) (skipn ra (data dst))).
  assert (Hwinlen : length win = rb - ra).
  { subst win. apply length_window. lia. }
  assert (Hwin : Forall (fun r => length r = ncols dst) win).
  { apply Forall_forall. intros r Hr.
    apply (proj1 (Forall_forall _ _) Hrows). eapply In_window, Hr. }
  assert (Hzlen : length (zip_with g win (data src')) = rb - ra).
  { rewrite length_zip_with. lia. }
  eexists. split; [reflexivity|]. split; [|split; [reflexivity|split; [reflexivity|]]].
  - split; simpl.
    + rewrite length_patch; auto; lia.
    + apply Forall_app. split; [|apply Forall_app; split].
      * apply Forall_forall. intros r Hr.
        apply (proj1 (Forall_forall _ _) Hrows).
        rewrite <- (firstn_skipn ra (data dst)). apply in_or_app. now left.
      * eapply Forall_zip_with; [|exact Hwin|exact Hrows'].
        intros x y Hx Hy. simpl in *. subst g. simpl.
        rewrite length_patch; auto; lia.
      * apply Forall_forall. intros r Hr.
        apply (proj1 (Forall_forall _ _) Hrows).
        rewrite <- (firstn_skipn rb (data dst)). apply in_or_app. now right.
  - intros i j Hi Hj. unfold item at 1. simpl.
    rewrite nth_patch by (auto; lia).
    destruct ((ra <=? i) && (i <? rb)) eqn:Erow; simpl.
    + apply andb_true_iff in Erow as [E1 E2].
      apply Nat.leb_le in E1. apply Nat.ltb_lt in E2.
      rewrite (nth_zip_with g win (data src') (i - ra) [] [] []) by lia.
      assert (Hdrow : length (nth (i - ra) win []) = ncols dst).
      { apply (proj1 (Forall_forall _ _) Hwin). apply nth_In. lia. }
      assert (Hsrow : length (nth (i - ra) (data src') []) = cb - ca).
      { rewrite <- Hc'. apply (proj1 (Forall_forall _ _) Hrows'). apply nth_In. lia. }
      subst g. simpl. rewrite nth_patch by (auto; lia).
      destruct ((ca <=? j) && (j <? cb)) eqn:Ecol.
      * apply andb_true_iff in Ecol as [E3 E4].
        apply Nat.leb_le in E3. apply Nat.ltb_lt in E4.
        rewrite <- Hitem' by lia. reflexivity.
      * unfold item. subst win. rewrite nth_firstn.
        destruct (Nat.ltb_spec (i - ra) (rb - ra)); [|lia].
        rewrite nth_skipn. do 2 f_equal. lia.
    + reflexivity.
Qed.

End ArrayFacts.

(* ================================================================== *)
(** * Facts: the stages of the reconstruction *)

Module ReconFacts.
Import Dpc.
Local Open Scope R_scope.

Lemma length_arange (a b : Z) : length (arange a b) = Z.to_nat (b - a).
Proof. unfold arange. now rewrite length_map, length_seq. Qed.

Lemma length_freq_axis (n : nat) (d : R) : length (freq_axis n d) = n.
Proof. unfold freq_axis. rewrite length_map, length_arange. lia. Qed.

(** the frequency of column (or row) [k]: [2 pi (k - n // 2) / (n d)] *)
Lemma nth_freq_axis (n : nat) (d : R) (k : nat) :
  (k < n)%nat -> d <> 0 ->
  nth k (freq_axis n d) None
  = Some (2 * PI * IZR (Z.of_nat k - Z.of_nat n / 2) / (INR n * d)).
Proof.
  intros Hk Hd. unfold freq_axis, arange. rewrite map_map.
  rewrite nth_map_seq by lia. simpl Nat.add. unfold nf_div.
  destruct (Req_EM_T (INR n * d) 0) as [Hz|_].
  - exfalso. apply Rmult_integral in Hz. destruct Hz as [Hz|Hz]; [|tauto].
    assert (0 < INR n) by (apply lt_0_INR; lia). lra.
  - do 4 f_equal. lia.
Qed.

Lemma wf_meshgrid {A} (ax ay : list A) :
  wf (fst (meshgrid ax ay)) /\ wf (snd (meshgrid ax ay)).
Proof.
  unfold meshgrid, wf; simpl. rewrite !length_map. repeat split; auto.
  - apply Forall_map, Forall_forall. intros; reflexivity.
  - apply Forall_map, Forall_forall. intros; simpl. apply length_map.
Qed.

Lemma item_meshgrid {A} (ax ay : list A) (d : A) (i j : nat) :
  (i < length ay)%nat -> (j < length ax)%nat ->
  item d (fst (meshgrid ax ay)) i j = nth j ax d /\
  item d (snd (meshgrid ax ay)) i j = nth i ay d.
Proof.
  intros Hi Hj. unfold meshgrid, item; simpl. split.
  - rewrite nth_map_in with (d' := d) by exact Hi. reflexivity.
  - rewrite nth_map_in with (d' := d) by exact Hi.
    rewrite nth_map_in with (d' := d) by exact Hj. reflexivity.
Qed.

Lemma wf_dft2 (s : R) (a : ndarray C) : wf (dft2 s a).
Proof.
  unfold dft2, wf; simpl. rewrite length_map, length_seq. split; auto.
  apply Forall_map, Forall_forall. intros i _. simpl.
  now rewrite !length_map, length_seq.
Qed.

Lemma fft2_ok (a : ndarray C) :
  (0 < nrows a)%nat -> (0 < ncols a)%nat ->
  exists t, fft2 a = Ok t /\ wf t /\ nrows t = nrows a /\ ncols t = ncols a.
Proof.
  intros Hr Hc. unfold fft2.
  destruct (Nat.eqb_spec (nrows a) 0); [lia|].
  destruct (Nat.eqb_spec (ncols a) 0); [lia|]. simpl.
  eexists. split; [reflexivity|]. split; [apply wf_dft2|]. auto.
Qed.

(** the padded grid of one gradient: shape, and entries *)
Lemma pad_gradient_spec (g : ndarray R) (padding : nat) :
  wf g ->
  exists gp, pad_gradient g (nrows g) (ncols g) padding = Ok gp /\ wf gp /\
    nrows gp = (nrows g * (2 * padding + 1))%nat /\
    ncols gp = (ncols g * (2 * padding + 1))%nat /\
    forall i j, (i < nrows g * (2 * padding + 1))%nat ->
                (j < ncols g * (2 * padding + 1))%nat ->
      item 0 gp i j =
      if ((padding * nrows g <=? i) && (i <? (padding + 1) * nrows g)
          && ((padding * ncols g <=? j) && (j <? (padding + 1) * ncols g)))%nat
      then item 0 g (i - padding * nrows g) (j - padding * ncols g)
      else 0.
Proof.
  intros Hwf. unfold pad_gradient.
  set (rows := nrows g). set (cols := ncols g).
  set (pr := (rows * (2 * padding + 1))%nat). set (pc := (cols * (2 * padding + 1))%nat).
  assert (Hra : adjust_index pr (Z.of_nat (padding * rows)) = (padding * rows)%nat).
  { rewrite adjust_index_nonneg by lia. subst pr. nia. }
  assert (Hrb : adjust_index pr (Z.of_nat ((padding + 1) * rows)) = ((padding + 1) * rows)%nat).
  { rewrite adjust_index_nonneg by lia. subst pr. nia. }
  assert (Hca : adjust_index pc (Z.of_nat (padding * cols)) = (padding * cols)%nat).
  { rewrite adjust_index_nonneg by lia. subst pc. nia. }
  assert (Hcb : adjust_index pc (Z.of_nat ((padding + 1) * cols)) = ((padding + 1) * cols)%nat).
  { rewrite adjust_index_nonneg by lia. subst pc. nia. }
  destruct (setslice_spec 0 (zeros pr pc) g
              (Z.of_nat (padding * rows)) (Z.of_nat ((padding + 1) * rows))
              (Z.of_nat (padding * cols)) (Z.of_nat ((padding + 1) * cols)))
    as (out & Hout & Hwfout & Hn & Hc & Hitem).
  - apply wf_zeros.
  - cbn [nrows zeros]. rewrite Hra, Hrb. nia.
  - cbn [ncols zeros]. rewrite Hca, Hcb. nia.
  - cbn [nrows zeros]. rewrite Hra, Hrb. subst rows. nia.
  - cbn [ncols zeros]. rewrite Hca, Hcb. subst cols. nia.
  - exists out. split; [exact Hout|]. split; [exact Hwfout|].
    split; [exact Hn|]. split; [exact Hc|].
    intros i j Hi Hj. rewrite Hitem by assumption.
    cbn [nrows ncols zeros]. rewrite Hra, Hrb, Hca, Hcb.
    destruct (_ && _ && _); [reflexivity|].
    exact (@item_zeros R R_dtype pr pc i j).
Qed.


(** The combined spectrum, cell by cell: line 282 gives the divisor,
    lines 284-285 the masked quotient. *)
Lemma recon_spectrum_spec (gxp gyp : ndarray R) (dx dy w : R) :
  wf gxp -> wf gyp -> nrows gyp = nrows gxp -> ncols gyp = ncols gxp ->
  (0 < nrows gxp)%nat -> (0 < ncols gxp)%nat ->
  exists tx ty div_v c,
    fft2 (amap RtoC gxp) = Ok tx /\ fft2 (amap RtoC gyp) = Ok ty /\
    recon_spectrum gxp gyp dx dy w = Ok (div_v, c) /\
    wf c /\ nrows c = nrows gxp /\ ncols c = ncols gxp /\
    forall i j, (i < nrows gxp)%nat -> (j < ncols gxp)%nat ->
      let kx := nth j (freq_axis (ncols gxp) dx) None in
      let ky := nth i (freq_axis (nrows gxp) dy) None in
      item None div_v i j = div_cell w kx ky /\
      item None c i j =
        where_cell (div_cell w kx ky)
          (c_cell w kx ky (item C0 (fftshift2 tx) i j) (item C0 (fftshift2 ty) i j)
             (div_cell w kx ky)).
Proof.
  intros Hwx Hwy Hn Hc Hr0 Hc0.
  destruct (fft2_ok (amap RtoC gxp) Hr0 Hc0) as (tx & Htx & Hwtx & Hntx & Hctx).
  destruct (fft2_ok (amap RtoC gyp)) as (ty & Hty & Hwty & Hnty & Hcty);
    [cbn [nrows amap]; lia | cbn [ncols amap]; lia |].
  cbn [nrows ncols amap] in Hntx, Hctx, Hnty, Hcty.
  exists tx, ty.
  unfold recon_spectrum. rewrite Htx, Hty.
  cbv beta iota zeta delta [Py.bind].
  set (ax := freq_axis (ncols gxp) dx). set (ay := freq_axis (nrows gxp) dy).
  assert (Hax : length ax = ncols gxp) by apply length_freq_axis.
  assert (Hay : length ay = nrows gxp) by apply length_freq_axis.
  destruct (wf_meshgrid ax ay) as [Hwkx Hwky].
  unfold meshgrid in *. cbn [fst snd] in Hwkx, Hwky.
  set (kappax := mk_ndarray (length ay) (length ax) (map (fun _ => ax) ay)) in *.
  set (kappay := mk_ndarray (length ay) (length ax)
                   (map (fun y => map (fun _ => y) ax) ay)) in *.
  set (div_v := amap2 (div_cell w) kappax kappay).
  set (KK := amap2 pair kappax kappay).
  set (K := amap2 pair KK div_v).
  set (T := amap2 pair (fftshift2 tx) (fftshift2 ty)).
  set (c0 := amap2 _ K T).
  assert (Hwdiv : wf div_v) by (apply wf_amap2; auto).
  assert (HwKK : wf KK) by (apply wf_amap2; auto).
  assert (HwK : wf K) by (apply wf_amap2; auto).
  assert (Hwtx' : wf (fftshift2 tx)) by now apply wf_fftshift2.
  assert (Hwty' : wf (fftshift2 ty)) by now apply wf_fftshift2.
  assert (HwT : wf T) by (apply wf_amap2; auto; cbn [nrows ncols fftshift2]; lia).
  assert (Hwc0 : wf c0).
  { apply wf_amap2; auto; cbn [nrows ncols fftshift2 amap2 T K KK kappax]; lia. }
  exists div_v, (amap2 where_cell div_v c0).
  split; [reflexivity|]. split; [reflexivity|]. split; [reflexivity|].
  split; [apply wf_amap2; auto|].
  split; [exact Hay|]. split; [exact Hax|].
  intros i j Hi Hj. cbv zeta.
  destruct (item_meshgrid ax ay None i j) as [Hix Hiy]; [lia | lia |].
  unfold meshgrid in Hix, Hiy. cbn [fst snd] in Hix, Hiy.
  fold kappax in Hix. fold kappay in Hiy.
  assert (Hd : item None div_v i j = div_cell w (nth j ax None) (nth i ay None)).
  { unfold div_v.
    rewrite (item_amap2 (div_cell w) kappax kappay i j None None None); auto.
    - now rewrite Hix, Hiy.
    - cbn [nrows kappax]. lia.
    - cbn [ncols kappax]. lia. }
  split; [exact Hd|].
  rewrite (item_amap2 where_cell div_v c0 i j None None None); auto;
    [|cbn [nrows amap2 div_v kappax]; lia | cbn [ncols amap2 div_v kappax]; lia].
  rewrite Hd. f_equal.
  unfold c0.
  rewrite (item_amap2 _ K T i j (None, None, None) (C0, C0) None); auto;
    [|cbn [nrows ncols fftshift2 amap2 T K KK kappax]; lia ..].
  unfold K.
  rewrite (item_amap2 pair KK div_v i j (None, None) None (None, None, None)); auto;
    [|cbn [nrows ncols amap2 KK kappax]; lia ..].
  unfold KK.
  rewrite (item_amap2 pair kappax kappay i j None None (None, None)); auto;
    [|cbn [nrows ncols kappax]; lia ..].
  unfold T.
  rewrite (item_amap2 pair (fftshift2 tx) (fftshift2 ty) i j C0 C0 (C0, C0)); auto;
    [|cbn [nrows ncols fftshift2]; lia ..].
  rewrite Hd, Hix, Hiy. reflexivity.
Qed.


Lemma finite_list_some {A} (l : list (option A)) :
  Forall (fun x => x <> None) l ->
  exists l', finite_list l = Some l' /\ length l' = length l.
Proof.
  induction 1 as [|x l Hx _ (l' & IH & Hlen)]; simpl.
  - exists []. auto.
  - destruct x as [x|]; [|congruence].
    rewrite IH. simpl. exists (x :: l'). simpl. auto.
Qed.

Lemma finite_array_some {A} (a : ndarray (option A)) :
  all_finite a ->
  exists a', finite_array a = Some a' /\ nrows a' = nrows a /\ ncols a' = ncols a.
Proof.
  intros Hfin. unfold finite_array.
  assert (Hrows : Forall (fun x => x <> None) (map finite_list (data a))).
  { apply Forall_map. eapply Forall_impl; [|exact Hfin].
    intros r Hr. simpl in *. destruct (finite_list_some r Hr) as (r' & -> & _).
    discriminate. }
  destruct (finite_list_some _ Hrows) as (rows & -> & _).
  simpl. eexists. repeat split.
Qed.

Lemma all_finite_amap_Some {A} (a : ndarray A) : all_finite (amap Some a).
Proof.
  unfold all_finite, amap; simpl.
  apply Forall_map, Forall_forall. intros r _.
  apply Forall_map, Forall_forall. intros x _. discriminate.
Qed.

(** the inverse transform keeps the shape, and finite input gives
    finite output *)
Lemma nf_ifft2_spec (a : ndarray (option C)) :
  (0 < nrows a)%nat -> (0 < ncols a)%nat ->
  exists t, nf_ifft2 a = Ok t /\ wf t /\ nrows t = nrows a /\ ncols t = ncols a /\
            (all_finite a -> all_finite t).
Proof.
  intros Hr Hc. unfold nf_ifft2.
  destruct (finite_array a) as [a'|] eqn:Efin.
  - assert (Hshape : nrows a' = nrows a /\ ncols a' = ncols a).
    { unfold finite_array in Efin.
      destruct (finite_list _); simpl in Efin; [|discriminate].
      injection Efin as <-. auto. }
    destruct Hshape as [Hn Hm]. unfold ifft2. rewrite Hn, Hm.
    destruct (Nat.eqb_spec (nrows a) 0); [lia|].
    destruct (Nat.eqb_spec (ncols a) 0); [lia|]. simpl.
    eexists. split; [reflexivity|]. split; [|split; [|split]]; try reflexivity.
    + apply wf_amap.
      destruct (wf_dft2 1 a') as [Hlen Hrows].
      cbn [nrows ncols dft2] in Hlen, Hrows. rewrite Hn in Hlen. rewrite Hm in Hrows.
      split; cbn [nrows ncols data].
      * now rewrite length_map.
      * apply Forall_map. eapply Forall_impl; [|exact Hrows].
        intros r Hlr. cbv beta in *. now rewrite length_map.
    + intros _. apply all_finite_amap_Some.
  - destruct (Nat.eqb_spec (nrows a) 0); [lia|].
    destruct (Nat.eqb_spec (ncols a) 0); [lia|]. simpl.
    eexists. split; [reflexivity|]. split; [|split; [|split]]; try reflexivity.
    + split; cbn [nrows ncols data].
      * apply repeat_length.
      * apply Forall_forall. intros x Hx. apply repeat_spec in Hx. subst.
        apply repeat_length.
    + intros Hfin. destruct (finite_array_some a Hfin) as (a' & Ha' & _). congruence.
Qed.

(** entries that are all finite, read row by row *)
Lemma all_finite_items {A} (a : ndarray (option A)) :
  wf a ->
  (forall i j, (i < nrows a)%nat -> (j < ncols a)%nat -> item None a i j <> None) ->
  all_finite a.
Proof.
  intros [Hlen Hrows] Hitem. unfold all_finite.
  apply Forall_forall. intros r Hr.
  destruct (In_nth _ _ [] Hr) as (i & Hi & <-).
  apply Forall_forall. intros x Hx.
  destruct (In_nth _ _ None Hx) as (j & Hj & <-).
  apply Hitem; [lia|].
  assert (length (nth i (data a) []) = ncols a)
    by (apply (proj1 (Forall_forall _ _) Hrows), nth_In; exact Hi).
  lia.
Qed.

Lemma all_finite_ifftshift2 {A} (a : ndarray (option A)) :
  all_finite a -> all_finite (ifftshift2 a).
Proof.
  unfold all_finite, ifftshift2; cbn [data]. intros Hfin.
  unfold ifftshift at 1. apply Forall_rotate, Forall_map.
  eapply Forall_impl; [|exact Hfin].
  intros r Hr. cbv beta. unfold ifftshift. now apply Forall_rotate.
Qed.

Lemma all_finite_window {A} (t : ndarray (option C)) (f : option C -> option A)
    (r0 r1 c0 c1 : Z) :
  (forall x, x <> None -> f x <> None) ->
  all_finite t -> all_finite (amap f (getslice t r0 r1 c0 c1)).
Proof.
  intros Hf Hfin. unfold all_finite, amap, getslice; cbn [data].
  rewrite map_map. apply Forall_map, Forall_forall. intros r Hr.
  apply In_window in Hr.
  apply Forall_map, Forall_forall. intros x Hx.
  apply In_window in Hx.
  apply Hf.
  exact (proj1 (Forall_forall _ _) (proj1 (Forall_forall _ _) Hfin r Hr) x Hx).
Qed.

(** [recon] runs to its end on two gradients of one non-empty shape
    when [w] is in range *)
Lemma recon_ok (gx gy : ndarray R) (dx dy : R) (padding : nat) (w : R) :
  wf gx -> wf gy -> nrows gy = nrows gx -> ncols gy = ncols gx ->
  (0 < nrows gx)%nat -> (0 < ncols gx)%nat -> 0 <= w <= 1 ->
  exists gxp gyp tx ty div_v c t,
    pad_gradient gx (nrows gx) (ncols gx) padding = Ok gxp /\
    pad_gradient gy (nrows gx) (ncols gx) padding = Ok gyp /\
    fft2 (amap RtoC gxp) = Ok tx /\ fft2 (amap RtoC gyp) = Ok ty /\
    recon_spectrum gxp gyp dx dy w = Ok (div_v, c) /\
    nf_ifft2 (ifftshift2 c) = Ok t /\
    wf t /\ nrows t = (nrows gx * (2 * padding + 1))%nat /\
    ncols t = (ncols gx * (2 * padding + 1))%nat /\
    (all_finite c -> all_finite t) /\
    recon gx gy dx dy padding w
    = Ok (amap (option_map Re)
            (getslice t
               (Z.of_nat (padding * nrows gx)) (Z.of_nat ((padding + 1) * nrows gx))
               (Z.of_nat (padding * ncols gx)) (Z.of_nat ((padding + 1) * ncols gx)))).
Proof.
  intros Hwx Hwy Hn Hc Hr0 Hc0 Hw.
  destruct (pad_gradient_spec gx padding Hwx) as (gxp & Hgxp & Hwgxp & Hnx & Hcx & _).
  destruct (pad_gradient_spec gy padding Hwy) as (gyp & Hgyp & Hwgyp & Hny & Hcy & _).
  rewrite Hn, Hc in Hgyp. rewrite Hn in Hny. rewrite Hc in Hcy.
  destruct (recon_spectrum_spec gxp gyp dx dy w)
    as (tx & ty & div_v & c & Htx & Hty & Hspec & Hwc & Hnc & Hcc & _);
    try assumption; try lia; try nia.
  destruct (nf_ifft2_spec (ifftshift2 c)) as (t & Ht & Hwt & Hnt & Hct & Hfin);
    [cbn [nrows ifftshift2]; nia | cbn [ncols ifftshift2]; nia |].
  cbn [nrows ncols ifftshift2] in Hnt, Hct.
  exists gxp, gyp, tx, ty, div_v, c, t.
  split; [exact Hgxp|]. split; [exact Hgyp|].
  split; [exact Htx|]. split; [exact Hty|]. split; [exact Hspec|].
  split; [exact Ht|]. split; [exact Hwt|].
  split; [congruence|]. split; [congruence|].
  split; [intros Hf; now apply Hfin, all_finite_ifftshift2|].
  unfold recon.
  destruct (Rlt_dec w 0); [lra|]. destruct (Rlt_dec 1 w); [lra|].
  rewrite Hgxp, Hgyp. cbv beta iota zeta delta [Py.bind].
  rewrite Hspec. cbv beta iota zeta delta [Py.bind].
  rewrite Ht. reflexivity.
Qed.

End ReconFacts.

(* ================================================================== *)
(** * Theorems: reconstruction *)


Module Recon.
Import Dpc ReconFacts.
Local Open Scope R_scope.

(** the masked quotient at a cell whose two frequencies are finite *)
Lemma masked_cell (w kx ky : R) (tx ty : C) :
  let d := kx ^ 2 * (1 - w) + ky ^ 2 * w in
  let q := Cscal (/ d) (Cmul (Cneg Ci)
                          (Cadd (Cscal (1 - w) (Cscal kx tx)) (Cscal w (Cscal ky ty)))) in
  where_cell (div_cell w (Some kx) (Some ky))
    (c_cell w (Some kx) (Some ky) tx ty (div_cell w (Some kx) (Some ky)))
  = Some (if Req_EM_T d 0 then C0 else q).
Proof.
  cbv zeta. unfold where_cell, c_cell, div_cell, nf_map2, nf_cdiv.
  destruct (Req_EM_T _ 0); reflexivity.
Qed.

(** C3. [recon] on two gradient maps of one non-empty shape raises
    nothing: the phase image it returns is the real part of the inverse
    transform of the combined spectrum [c], cropped to the block of the
    maps.  With non-zero step sizes, [c] at every frequency cell
    [(i, j)] is [0] where the divisor [kx^2 (1 - w) + ky^2 w] is zero
    and [-i (kx Tx (1 - w) + ky Ty w) / divisor] where it is not, so
    that no entry of [c], and none of the phase image, is nan or inf. *)
Theorem recon_masks_zero_divisor (gx gy : ndarray R) (dx dy : R) (padding : nat)
    (w : R) (i j : nat) :
  wf gx -> wf gy -> nrows gy = nrows gx -> ncols gy = ncols gx ->
  (0 < nrows gx)%nat -> (0 < ncols gx)%nat -> 0 <= w <= 1 ->
  (i < nrows gx * (2 * padding + 1))%nat -> (j < ncols gx * (2 * padding + 1))%nat ->
  exists gxp gyp tx ty div_v c t phi,
    pad_gradient gx (nrows gx) (ncols gx) padding = Ok gxp /\
    pad_gradient gy (nrows gx) (ncols gx) padding = Ok gyp /\
    fft2 (amap RtoC gxp) = Ok tx /\ fft2 (amap RtoC gyp) = Ok ty /\
    recon_spectrum gxp gyp dx dy w = Ok (div_v, c) /\
    nf_ifft2 (ifftshift2 c) = Ok t /\
    recon gx gy dx dy padding w = Ok phi /\
    phi = amap (option_map Re)
            (getslice t
               (Z.of_nat (padding * nrows gx)) (Z.of_nat ((padding + 1) * nrows gx))
               (Z.of_nat (padding * ncols gx)) (Z.of_nat ((padding + 1) * ncols gx))) /\
    (dx <> 0 -> dy <> 0 ->
     let pad_row := (nrows gx * (2 * padding + 1))%nat in
     let pad_col := (ncols gx * (2 * padding + 1))%nat in
     let kx := 2 * PI * IZR (Z.of_nat j - Z.of_nat pad_col / 2) / (INR pad_col * dx) in
     let ky := 2 * PI * IZR (Z.of_nat i - Z.of_nat pad_row / 2) / (INR pad_row * dy) in
     let Tx := item C0 (fftshift2 tx) i j in
     let Ty := item C0 (fftshift2 ty) i j in
     let divisor := kx ^ 2 * (1 - w) + ky ^ 2 * w in
     item None div_v i j = Some divisor /\
     (divisor = 0 -> item None c i j = Some C0) /\
     (divisor <> 0 ->
      item None c i j
      = Some (Cscal (/ divisor)
                (Cmul (Cneg Ci)
                   (Cadd (Cscal (1 - w) (Cscal kx Tx)) (Cscal w (Cscal ky Ty)))))) /\
     all_finite c /\ all_finite t /\ all_finite phi).
Proof.
  intros Hwx Hwy Hn Hc Hr0 Hc0 Hw Hi Hj.
  destruct (recon_ok gx gy dx dy padding w)
    as (gxp & gyp & tx & ty & div_v & c & t & Hgxp & Hgyp & Htx & Hty & Hspec
        & Ht & Hwt & Hnt & Hct & Hfin & Hrecon); try assumption.
  destruct (pad_gradient_spec gx padding Hwx) as (gxp' & Hgxp' & Hwgxp & Hnx & Hcx & _).
  rewrite Hgxp in Hgxp'. injection Hgxp' as <-.
  destruct (pad_gradient_spec gy padding Hwy) as (gyp' & Hgyp' & Hwgyp & Hny & Hcy & _).
  rewrite Hn, Hc in Hgyp'. rewrite Hgyp in Hgyp'. injection Hgyp' as <-.
  rewrite Hn in Hny. rewrite Hc in Hcy.
  destruct (recon_spectrum_spec gxp gyp dx dy w)
    as (tx' & ty' & div_v' & c' & Htx' & Hty' & Hspec' & Hwc & Hnc & Hcc & Hcells);
    try assumption; try lia.
  rewrite Htx in Htx'. injection Htx' as <-.
  rewrite Hty in Hty'. injection Hty' as <-.
  rewrite Hspec in Hspec'. injection Hspec' as <- <-.
  exists gxp, gyp, tx, ty, div_v, c, t. eexists.
  split; [exact Hgxp|]. split; [exact Hgyp|].
  split; [exact Htx|]. split; [exact Hty|]. split; [exact Hspec|].
  split; [exact Ht|]. split; [exact Hrecon|]. split; [reflexivity|].
  intros Hdx Hdy.
  assert (Hcell : forall i j, (i < nrows gxp)%nat -> (j < ncols gxp)%nat ->
            let kx := 2 * PI * IZR (Z.of_nat j - Z.of_nat (ncols gxp) / 2)
                      / (INR (ncols gxp) * dx) in
            let ky := 2 * PI * IZR (Z.of_nat i - Z.of_nat (nrows gxp) / 2)
                      / (INR (nrows gxp) * dy) in
            let d := kx ^ 2 * (1 - w) + ky ^ 2 * w in
            item None div_v i j = Some d /\
            item None c i j
            = Some (if Req_EM_T d 0 then C0
                    else Cscal (/ d)
                           (Cmul (Cneg Ci)
                              (Cadd (Cscal (1 - w) (Cscal kx (item C0 (fftshift2 tx) i j)))
                                 (Cscal w (Cscal ky (item C0 (fftshift2 ty) i j))))))).
  { intros i' j' Hi' Hj'. cbv zeta.
    destruct (Hcells i' j' Hi' Hj') as [Hd Hcij]. cbv zeta in Hd, Hcij.
    rewrite nth_freq_axis in Hd, Hcij by assumption.
    rewrite nth_freq_axis in Hd, Hcij by assumption.
    split; [exact Hd|]. rewrite Hcij. apply masked_cell. }
  assert (Hcfin : all_finite c).
  { apply all_finite_items; [exact Hwc|].
    intros i' j' Hi' Hj'. rewrite Hnc in Hi'. rewrite Hcc in Hj'.
    destruct (Hcell i' j' Hi' Hj') as [_ ->]. discriminate. }
  cbv zeta. rewrite <- Hnx, <- Hcx.
  destruct (Hcell i j) as [Hd Hcij]; [lia | lia |]. cbv zeta in Hd, Hcij.
  split; [exact Hd|].
  split; [|split; [|split; [exact Hcfin|split; [now apply Hfin|]]]].
  - intros Hz. rewrite Hcij. destruct (Req_EM_T _ 0); [reflexivity | contradiction].
  - intros Hz. rewrite Hcij. destruct (Req_EM_T _ 0); [contradiction | reflexivity].
  - apply all_finite_window; [|now apply Hfin].
    intros [x|] Hx; simpl; congruence.
Qed.

(** C8. For two gradient maps of one non-empty shape [(rows, cols)] and
    every padding [p], [recon] builds two zero grids of shape
    [(rows (2p+1), cols (2p+1))] holding [gx] and [gy] in the block at
    offset [(p rows, p cols)], and the phase image it returns is the
    real part of the inverse transform cropped to that block: it has the
    shape of [gx]. *)
Theorem recon_padding_shape (gx gy : ndarray R) (dx dy : R) (padding : nat) (w : R) :
  wf gx -> wf gy -> nrows gy = nrows gx -> ncols gy = ncols gx ->
  (0 < nrows gx)%nat -> (0 < ncols gx)%nat -> 0 <= w <= 1 ->
  exists gxp gyp div_v c t phi,
    let rows := nrows gx in
    let cols := ncols gx in
    let pad := (2 * padding + 1)%nat in
    let in_block i j :=
      ((padding * rows <=? i) && (i <? (padding + 1) * rows)
       && ((padding * cols <=? j) && (j <? (padding + 1) * cols)))%nat in
    pad_gradient gx rows cols padding = Ok gxp /\
    pad_gradient gy rows cols padding = Ok gyp /\
    wf gxp /\ nrows gxp = (rows * pad)%nat /\ ncols gxp = (cols * pad)%nat /\
    wf gyp /\ nrows gyp = (rows * pad)%nat /\ ncols gyp = (cols * pad)%nat /\
    (forall i j, (i < rows * pad)%nat -> (j < cols * pad)%nat ->
       item 0 gxp i j
       = (if in_block i j then item 0 gx (i - padding * rows) (j - padding * cols) else 0) /\
       item 0 gyp i j
       = (if in_block i j then item 0 gy (i - padding * rows) (j - padding * cols) else 0)) /\
    recon_spectrum gxp gyp dx dy w = Ok (div_v, c) /\
    nf_ifft2 (ifftshift2 c) = Ok t /\
    nrows t = (rows * pad)%nat /\ ncols t = (cols * pad)%nat /\
    recon gx gy dx dy padding w = Ok phi /\
    phi = amap (option_map Re)
            (getslice t (Z.of_nat (padding * rows)) (Z.of_nat ((padding + 1) * rows))
                        (Z.of_nat (padding * cols)) (Z.of_nat ((padding + 1) * cols))) /\
    wf phi /\ nrows phi = rows /\ ncols phi = cols.
Proof.
  intros Hwx Hwy Hn Hc Hr0 Hc0 Hw.
  destruct (recon_ok gx gy dx dy padding w)
    as (gxp & gyp & tx & ty & div_v & c & t & Hgxp & Hgyp & Htx & Hty & Hspec
        & Ht & Hwt & Hnt & Hct & Hfin & Hrecon); try assumption.
  destruct (pad_gradient_spec gx padding Hwx)
    as (gxp' & Hgxp' & Hwgxp & Hnx & Hcx & Hix).
  rewrite Hgxp in Hgxp'. injection Hgxp' as <-.
  destruct (pad_gradient_spec gy padding Hwy)
    as (gyp' & Hgyp' & Hwgyp & Hny & Hcy & Hiy).
  rewrite Hn, Hc in Hgyp'. rewrite Hgyp in Hgyp'. injection Hgyp' as <-.
  rewrite Hn in Hny. rewrite Hc in Hcy.
  exists gxp, gyp, div_v, c, t. eexists. cbv zeta.
  split; [exact Hgxp|]. split; [exact Hgyp|].
  split; [exact Hwgxp|]. split; [exact Hnx|]. split; [exact Hcx|].
  split; [exact Hwgyp|]. split; [exact Hny|]. split; [exact Hcy|].
  split.
  { intros i j Hi Hj. split; [now apply Hix|].
    rewrite Hiy by (rewrite ?Hn, ?Hc; assumption).
    now rewrite Hn, Hc. }
  split; [exact Hspec|]. split; [exact Ht|].
  split; [exact Hnt|]. split; [exact Hct|].
  split; [exact Hrecon|]. split; [reflexivity|].
  split; [apply wf_amap, wf_getslice, Hwt|].
  cbn [nrows ncols amap getslice]. rewrite Hnt, Hct.
  rewrite !adjust_index_nonneg by lia. split; nia.
Qed.

(** C3 on the 1 x 2 example maps with padding 1, at cell (1, 3) *)
Lemma recon_masks_zero_divisor_witness :
  exists gxp gyp tx ty div_v c t phi,
    pad_gradient Examples.gx12 1 2 1 = Ok gxp /\
    pad_gradient Examples.gy12 1 2 1 = Ok gyp /\
    fft2 (amap RtoC gxp) = Ok tx /\ fft2 (amap RtoC gyp) = Ok ty /\
    recon_spectrum gxp gyp 1 1 (1 / 2) = Ok (div_v, c) /\
    nf_ifft2 (ifftshift2 c) = Ok t /\
    recon Examples.gx12 Examples.gy12 1 1 1 (1 / 2) = Ok phi /\
    phi = amap (option_map Re) (getslice t 1 2 2 4) /\
    let pad_row := (1 * (2 * 1 + 1))%nat in
    let pad_col := (2 * (2 * 1 + 1))%nat in
    let kx := 2 * PI * IZR (Z.of_nat 3 - Z.of_nat pad_col / 2) / (INR pad_col * 1) in
    let ky := 2 * PI * IZR (Z.of_nat 1 - Z.of_nat pad_row / 2) / (INR pad_row * 1) in
    let Tx := item C0 (fftshift2 tx) 1 3 in
    let Ty := item C0 (fftshift2 ty) 1 3 in
    let divisor := kx ^ 2 * (1 - 1 / 2) + ky ^ 2 * (1 / 2) in
    item None div_v 1 3 = Some divisor /\
    (divisor = 0 -> item None c 1 3 = Some C0) /\
    (divisor <> 0 ->
     item None c 1 3
     = Some (Cscal (/ divisor)
               (Cmul (Cneg Ci)
                  (Cadd (Cscal (1 - 1 / 2) (Cscal kx Tx)) (Cscal (1 / 2) (Cscal ky Ty)))))) /\
    all_finite c /\ all_finite t /\ all_finite phi.
Proof.
  destruct (recon_masks_zero_divisor Examples.gx12 Examples.gy12 1 1 1 (1 / 2) 1 3)
    as (gxp & gyp & tx & ty & div_v & c & t & phi & H1 & H2 & H3 & H4 & H5 & H6 & H7
        & H8 & Hcells).
  - apply wfb_wf. reflexivity.
  - apply wfb_wf. reflexivity.
  - reflexivity.
  - reflexivity.
  - simpl. lia.
  - simpl. lia.
  - lra.
  - simpl. lia.
  - simpl. lia.
  - exists gxp, gyp, tx, ty, div_v, c, t, phi.
    split; [exact H1|]. split; [exact H2|]. split; [exact H3|]. split; [exact H4|].
    split; [exact H5|]. split; [exact H6|]. split; [exact H7|]. split; [exact H8|].
    apply Hcells; lra.
Defined.

(** C8 on the 1 x 2 example maps with padding 1 *)
Lemma recon_padding_shape_witness :
  exists gxp gyp div_v c t phi,
    let rows := 1%nat in
    let cols := 2%nat in
    let pad := (2 * 1 + 1)%nat in
    let in_block i j :=
      ((1 * rows <=? i) && (i <? (1 + 1) * rows)
       && ((1 * cols <=? j) && (j <? (1 + 1) * cols)))%nat in
    pad_gradient Examples.gx12 rows cols 1 = Ok gxp /\
    pad_gradient Examples.gy12 rows cols 1 = Ok gyp /\
    wf gxp /\ nrows gxp = (rows * pad)%nat /\ ncols gxp = (cols * pad)%nat /\
    wf gyp /\ nrows gyp = (rows * pad)%nat /\ ncols gyp = (cols * pad)%nat /\
    (forall i j, (i < rows * pad)%nat -> (j < cols * pad)%nat ->
       item 0 gxp i j
       = (if in_block i j then item 0 Examples.gx12 (i - 1 * rows) (j - 1 * cols) else 0) /\
       item 0 gyp i j
       = (if in_block i j then item 0 Examples.gy12 (i - 1 * rows) (j - 1 * cols) else 0)) /\
    recon_spectrum gxp gyp 1 1 (1 / 2) = Ok (div_v, c) /\
    nf_ifft2 (ifftshift2 c) = Ok t /\
    nrows t = (rows * pad)%nat /\ ncols t = (cols * pad)%nat /\
    recon Examples.gx12 Examples.gy12 1 1 1 (1 / 2) = Ok phi /\
    phi = amap (option_map Re)
            (getslice t (Z.of_nat (1 * rows)) (Z.of_nat ((1 + 1) * rows))
                        (Z.of_nat (1 * cols)) (Z.of_nat ((1 + 1) * cols))) /\
    wf phi /\ nrows phi = rows /\ ncols phi = cols.
Proof.
  apply (recon_padding_shape Examples.gx12 Examples.gy12 1 1 1 (1 / 2)).
  - apply wfb_wf. reflexivity.
  - apply wfb_wf. reflexivity.
  - reflexivity.
  - reflexivity.
  - simpl. lia.
  - simpl. lia.
  - lra.
Defined.

(** the padded grid of the example: a 3 x 6 grid, zero outside the
    middle block *)
Example pad_gradient_gx12 :
  pad_gradient Examples.gx12 1 2 1
  = Ok (mk_ndarray 3 6 [[0; 0; 0; 0; 0; 0]; [0; 0; 1; 2; 0; 0]; [0; 0; 0; 0; 0; 0]]).
Proof. reflexivity. Qed.

End Recon.

(* ================================================================== *)
(** * Facts: what each step of the runner can raise *)

Module RunnerFacts.
Import Dpc.
Local Open Scope R_scope.

Lemma setitem_raises {A} (a : ndarray A) (i j : Z) (v : A) (e : exn) :
  setitem a i j v = Raise e -> e = index_error.
Proof.
  unfold setitem.
  destruct (norm_index (nrows a) i); [destruct (norm_index (ncols a) j)|];
    intros [= <-]; reflexivity.
Qed.

Lemma zero_bad_pixels_raises {A} `{Dtype A} (bad : list (Z * Z)) :
  forall (im : ndarray A) (e : exn),
    zero_bad_pixels im bad = Raise e -> e = index_error.
Proof.
  induction bad as [|[row column] rest IH]; intros im e; simpl.
  - discriminate.
  - destruct (setitem im row column dzero) as [im'|e'] eqn:E; simpl.
    + apply IH.
    + intros [= <-]. eapply setitem_raises, E.
Qed.

Lemma image_reduction_raises {A} `{Dtype A} (im : ndarray A) roi bad_pixels (e : exn) :
  image_reduction im roi bad_pixels = Raise e -> e = index_error.
Proof.
  unfold image_reduction, reduced_image.
  destruct bad_pixels as [bad|]; simpl; [|discriminate].
  destruct (zero_bad_pixels im bad) as [im'|e'] eqn:E; simpl; [discriminate|].
  intros [= <-]. eapply zero_bad_pixels_raises, E.
Qed.

Lemma spectrum_raises (line : list R) (e : exn) :
  spectrum line = Raise e -> e = bad_fft_size.
Proof.
  unfold spectrum, ifft. destruct (map RtoC line); simpl; [|discriminate].
  now intros [= <-].
Qed.

Lemma unpack2_raises {A} (xs : list A) (e : exn) :
  unpack2 xs = Raise e -> e = unpack_error.
Proof.
  destruct xs as [|p [|q [|r xs]]]; simpl; try discriminate; now intros [= <-].
Qed.

Lemma pad_gradient_raises (g : ndarray R) (rows cols padding : nat) (e : exn) :
  pad_gradient g rows cols padding = Raise e -> e = broadcast_error.
Proof.
  unfold pad_gradient, setslice, broadcast_to.
  destruct (_ && _)%bool; simpl; [discriminate|]. now intros [= <-].
Qed.

Lemma recon_spectrum_raises (gxp gyp : ndarray R) (dx dy w : R) (e : exn) :
  recon_spectrum gxp gyp dx dy w = Raise e -> e = bad_fft_size.
Proof.
  unfold recon_spectrum, fft2.
  destruct (_ || _)%bool; simpl; [now intros [= <-]|].
  destruct (_ || _)%bool; simpl; [now intros [= <-]|].
  discriminate.
Qed.

Lemma nf_ifft2_raises (a : ndarray (option C)) (e : exn) :
  nf_ifft2 a = Raise e -> e = bad_fft_size.
Proof.
  unfold nf_ifft2, ifft2.
  destruct (finite_array a) as [a'|].
  - destruct (_ || _)%bool; simpl; [now intros [= <-] | discriminate].
  - destruct (_ || _)%bool; simpl; [now intros [= <-] | discriminate].
Qed.

(** what [recon] raises once [w] has passed the check *)
Lemma recon_raises (gx gy : ndarray R) (dx dy : R) (padding : nat) (w : R) (e : exn) :
  recon gx gy dx dy padding w = Raise e ->
  (e = w_error /\ (w < 0 \/ 1 < w)) \/
  (~ (w < 0 \/ 1 < w) /\ (e = broadcast_error \/ e = bad_fft_size)).
Proof.
  unfold recon.
  destruct (Rlt_dec w 0) as [Hlo|Hlo]; [intros [= <-]; auto|].
  destruct (Rlt_dec 1 w) as [Hhi|Hhi]; [intros [= <-]; auto|].
  intros Hraise. right. split; [tauto|].
  destruct (pad_gradient gx _ _ padding) as [gxp|e1] eqn:E1; simpl in Hraise.
  2:{ injection Hraise as <-. left. eapply pad_gradient_raises, E1. }
  destruct (pad_gradient gy _ _ padding) as [gyp|e2] eqn:E2; simpl in Hraise.
  2:{ injection Hraise as <-. left. eapply pad_gradient_raises, E2. }
  destruct (recon_spectrum gxp gyp dx dy w) as [[div_v c]|e3] eqn:E3; simpl in Hraise.
  2:{ injection Hraise as <-. right. eapply recon_spectrum_raises, E3. }
  destruct (nf_ifft2 (ifftshift2 c)) as [t|e4] eqn:E4; simpl in Hraise.
  2:{ injection Hraise as <-. right. eapply nf_ifft2_raises, E4. }
  discriminate.
Qed.


Lemma reference_spectra_raises (ref : ndarray R) roi bad_pixels (e : exn) :
  reference_spectra ref roi bad_pixels = Raise e ->
  e = index_error \/ e = bad_fft_size.
Proof.
  unfold reference_spectra.
  destruct (image_reduction ref roi bad_pixels) as [[refx refy]|e1] eqn:E1; simpl.
  2:{ intros [= <-]. left. exact (image_reduction_raises _ _ _ _ E1). }
  destruct (spectrum refx) as [fx|e2] eqn:E2; simpl.
  2:{ intros [= <-]. right. eapply spectrum_raises, E2. }
  destruct (spectrum refy) as [fy|e3] eqn:E3; simpl; [discriminate|].
  intros [= <-]. right. eapply spectrum_raises, E3.
Qed.

Lemma pydiv_raises (a b : R) (e : exn) : pydiv a b = Raise e -> e = ZeroDivisionError.
Proof. unfold pydiv. destruct (Req_EM_T b 0); [now intros [= <-] | discriminate]. Qed.

(** the pixel check is the one place the pixel error comes from *)
Lemma rescale_raises (scale : bool) (pixel_size : R * R) (focus_to_det energy : R)
    (len_fx len_fy : nat) (gx gy : ndarray R) (e : exn) :
  rescale scale pixel_size focus_to_det energy len_fx len_fy gx gy = Raise e ->
  (e = pixel_error /\ scale = true /\ fst pixel_size <> snd pixel_size) \/
  e = ZeroDivisionError.
Proof.
  unfold rescale. destruct scale; [|discriminate].
  destruct (Req_EM_T (fst pixel_size) (snd pixel_size)) as [Heq|Hne].
  - intros Hraise. right.
    destruct (pydiv _ energy) as [lambda_|e1] eqn:E1; simpl in Hraise.
    2:{ injection Hraise as <-. eapply pydiv_raises, E1. }
    destruct (pydiv (INR len_fx * _) _) as [sx|e2] eqn:E2; simpl in Hraise.
    2:{ injection Hraise as <-. eapply pydiv_raises, E2. }
    destruct (pydiv (INR len_fy * _) _) as [sy|e3] eqn:E3; simpl in Hraise.
    2:{ injection Hraise as <-. eapply pydiv_raises, E3. }
    discriminate.
  - intros [= <-]. left. auto.
Qed.

Lemma after_scan_raises (scale invert : bool) (pixel_size : R * R)
    (focus_to_det energy dx dy : R) (padding : nat) (w : R)
    (len_fx len_fy : nat) (m : maps) (e : exn) :
  ~ (w < 0 \/ 1 < w) ->
  after_scan scale invert pixel_size focus_to_det energy dx dy padding w
    len_fx len_fy m = Raise e ->
  (e = pixel_error /\ scale = true /\ fst pixel_size <> snd pixel_size) \/
  e = ZeroDivisionError \/ e = broadcast_error \/ e = bad_fft_size.
Proof.
  intros Hw. unfold after_scan.
  destruct (rescale _ _ _ _ _ _ _ _) as [[gx gy]|e1] eqn:E1; simpl.
  2:{ intros [= <-]. destruct (rescale_raises _ _ _ _ _ _ _ _ _ E1); auto. }
  destruct (recon _ gy dx dy padding w) as [phi|e2] eqn:E2; simpl; [discriminate|].
  intros [= <-]. destruct (recon_raises _ _ _ _ _ _ _ E2) as [[_ Hbad]|[_ [H|H]]]; tauto.
Qed.

Lemma pulls_app (t1 t2 : list event) : pulls (t1 ++ t2) = (pulls t1 + pulls t2)%nat.
Proof. unfold pulls. now rewrite filter_app, length_app. Qed.

Lemma pulls_positions_trace (n index : nat) : pulls (positions_trace index n) = n.
Proof.
  revert index; induction n as [|n IH]; intros index; [reflexivity|].
  unfold positions_trace. simpl seq. simpl flat_map.
  change (pulls (Next index :: Reduced index :: Fitted index X :: Fitted index Y
                   :: positions_trace (S index) n) = S n).
  unfold pulls in *. simpl. now rewrite IH.
Qed.

Lemma positions_trace_S (index n : nat) :
  positions_trace index (S n) = (position_trace index ++ positions_trace (S index) n)%list.
Proof. reflexivity. Qed.

Section ScanFacts.
Variable minimize :
  (list R -> result R) -> list R -> string -> R -> nat -> option (list R).
Variables (ref_fx ref_fy : list C) (start_point : list R) (rows cols : nat).
Variables (solver : string) (roi : option roi_t) (bad_pixels : option (list (Z * Z))).

Lemma dpc_fit_raises rss arg1 arg2 x0 s tol n (e : exn) :
  dpc_fit minimize rss arg1 arg2 x0 s tol n = Raise e -> e = OptimizeError.
Proof. unfold dpc_fit. destruct (minimize _ _ _ _ _); [discriminate | now intros [= <-]]. Qed.

Lemma fit_unpack_raises rss arg1 arg2 x0 s tol n (e : exn) :
  (xs <- dpc_fit minimize rss arg1 arg2 x0 s tol n ;; unpack2 xs) = Raise e ->
  loop_error e.
Proof.
  destruct (dpc_fit minimize rss arg1 arg2 x0 s tol n) as [xs|e1] eqn:E1; simpl.
  - intros Hu. apply unpack2_raises in Hu. unfold loop_error. auto.
  - intros [= <-]. apply dpc_fit_raises in E1. unfold loop_error. auto.
Qed.

(** an index beyond the grid is refused at once *)
Lemma scan_position_beyond (index : nat) (im : ndarray R) (m : maps) :
  (rows * cols <= index)%nat ->
  scan_position minimize ref_fx ref_fy start_point rows cols solver roi bad_pixels
    index im m = (Raise unravel_error, []).
Proof.
  intros Hge. unfold scan_position, unravel_index.
  destruct (Nat.ltb_spec index (rows * cols)); [lia | reflexivity].
Qed.

(** an index of the grid: the position goes through, leaving its three
    events, or one of its steps raises *)
Lemma scan_position_within (index : nat) (im : ndarray R) (m : maps) :
  (index < rows * cols)%nat ->
  (exists m',
     scan_position minimize ref_fx ref_fy start_point rows cols solver roi bad_pixels
       index im m = (Ok m', [Reduced index; Fitted index X; Fitted index Y])) \/
  (exists e t,
     scan_position minimize ref_fx ref_fy start_point rows cols solver roi bad_pixels
       index im m = (Raise e, t) /\ loop_error e /\ pulls t = 0%nat).
Proof.
  intros Hlt. unfold scan_position, unravel_index.
  destruct (Nat.ltb_spec index (rows * cols)); [|lia].
  cbn [bindW lift tell ret app].
  destruct (image_reduction im roi bad_pixels) as [[imx imy]|e] eqn:E1.
  2:{ right. exists e, []. apply image_reduction_raises in E1.
      unfold loop_error. auto. }
  cbn [bindW lift tell ret app].
  destruct (spectrum imx) as [fx|e] eqn:E2.
  2:{ right. exists e, [Reduced index]. apply spectrum_raises in E2.
      unfold loop_error. auto. }
  cbn [bindW lift tell ret app].
  destruct (spectrum imy) as [fy|e] eqn:E3.
  2:{ right. exists e, [Reduced index]. apply spectrum_raises in E3.
      unfold loop_error. auto. }
  cbn [bindW lift tell ret app].
  destruct (xs <- dpc_fit minimize (_rss_factory (length ref_fx)) ref_fx fx start_point
                    solver (1 / 1000000) 2000 ;; unpack2 xs) as [[_ax _gx]|e] eqn:E4.
  2:{ right. exists e, [Reduced index]. apply fit_unpack_raises in E4. auto. }
  cbn [bindW lift tell ret app].
  destruct (xs <- dpc_fit minimize (_rss_factory (length ref_fy)) ref_fy fy start_point
                    solver (1 / 1000000) 2000 ;; unpack2 xs) as [[_ay _gy]|e] eqn:E5.
  2:{ right. exists e, [Reduced index; Fitted index X].
      apply fit_unpack_raises in E5. auto. }
  cbn [bindW lift tell ret app].
  destruct (setitem (m_gx m) _ _ _gx) as [gx|e] eqn:E6.
  2:{ right. exists e, [Reduced index; Fitted index X; Fitted index Y].
      apply setitem_raises in E6. unfold loop_error. auto. }
  cbn [bindW lift tell ret app].
  destruct (setitem (m_gy m) _ _ _gy) as [gy|e] eqn:E7.
  2:{ right. exists e, [Reduced index; Fitted index X; Fitted index Y].
      apply setitem_raises in E7. unfold loop_error. auto. }
  cbn [bindW lift tell ret app].
  destruct (setitem (m_ax m) _ _ _ax) as [ax|e] eqn:E8.
  2:{ right. exists e, [Reduced index; Fitted index X; Fitted index Y].
      apply setitem_raises in E8. unfold loop_error. auto. }
  cbn [bindW lift tell ret app].
  destruct (setitem (m_ay m) _ _ _ay) as [ay|e] eqn:E9.
  2:{ right. exists e, [Reduced index; Fitted index X; Fitted index Y].
      apply setitem_raises in E9. unfold loop_error. auto. }
  left. eexists. reflexivity.
Qed.

(** The loop from [index] on: it runs through the whole sequence and
    meets the end of the source, or it stops at the first position that
    raises, the image of that position pulled. *)
Lemma scan_spec (image_sequence : list (ndarray R)) :
  forall (index : nat) (m : maps), (index <= rows * cols)%nat ->
    (exists m',
       scan minimize ref_fx ref_fy start_point rows cols solver roi bad_pixels
         index image_sequence m
       = (Ok m', (positions_trace index (length image_sequence) ++ [StopIteration])%list) /\
       (index + length image_sequence <= rows * cols)%nat) \/
    (exists e k t,
       scan minimize ref_fx ref_fy start_point rows cols solver roi bad_pixels
         index image_sequence m
       = (Raise e, (positions_trace index k ++ Next (index + k) :: t)%list) /\
       (k < length image_sequence)%nat /\ pulls t = 0%nat /\
       ((loop_error e /\ (index + k < rows * cols)%nat) \/
        (e = unravel_error /\ t = [] /\ (index + k = rows * cols)%nat))).
Proof.
  induction image_sequence as [|im rest IH]; intros index m Hle.
  - left. exists m. split; [reflexivity | simpl; lia].
  - cbn [scan]. cbn [bindW tell app].
    destruct (Nat.eq_dec index (rows * cols)) as [Heq|Hne].
    + rewrite scan_position_beyond by lia. cbn [bindW app].
      right. exists unravel_error, 0%nat, []. rewrite Nat.add_0_r.
      repeat split; simpl; auto; try lia.
    + destruct (scan_position_within index im m) as [(m' & ->)|(e & t & -> & He & Ht)];
        [lia| |].
      * cbn [bindW app].
        destruct (IH (S index) m') as [(m'' & -> & Hlen)|(e & k & t & -> & Hk & Ht & Hcase)];
          [lia| |].
        -- left. exists m''. split; [|simpl; lia].
           simpl length. rewrite positions_trace_S. reflexivity.
        -- right. exists e, (S k), t.
           rewrite positions_trace_S. rewrite Nat.add_succ_r.
           split; [reflexivity|]. split; [simpl; lia|]. split; [exact Ht|].
           destruct Hcase as [[He Hlt]|(He & Htn & Heq)]; [left | right];
             repeat split; auto; lia.
      * cbn [bindW app].
        right. exists e, 0%nat, t. rewrite Nat.add_0_r.
        split; [reflexivity|]. split; [simpl; lia|]. split; [exact Ht|].
        left. split; [exact He | lia].
Qed.

End ScanFacts.

End RunnerFacts.

(* ================================================================== *)
(** * Theorems: the runner *)


Module Runner.
Import Dpc RunnerFacts.
Local Open Scope R_scope.

Section Outcomes.
Variable minimize :
  (list R -> result R) -> list R -> string -> R -> nat -> option (list R).
Variables (ref : ndarray R) (image_sequence : list (ndarray R)).
Variables (start_point : list R) (pixel_size : R * R) (focus_to_det : R).
Variables (rows cols : nat) (dx dy energy : R) (padding : nat) (w : R).
Variables (solver : string) (roi : option roi_t) (bad_pixels : option (list (Z * Z))).
Variables (invert scale : bool).

Let out := dpc_runner minimize ref image_sequence start_point pixel_size focus_to_det
             rows cols dx dy energy padding w solver roi bad_pixels invert scale.

(** the runner, stage by stage *)
Lemma dpc_runner_cases :
  ((w < 0 \/ 1 < w) /\ out = (Raise w_error, [])) \/
  (~ (w < 0 \/ 1 < w) /\
   exists e, reference_spectra ref roi bad_pixels = Raise e /\ out = (Raise e, [])) \/
  (~ (w < 0 \/ 1 < w) /\
   exists ref_fx ref_fy r t,
     reference_spectra ref roi bad_pixels = Ok (ref_fx, ref_fy) /\
     scan minimize ref_fx ref_fy start_point rows cols solver roi bad_pixels
       0 image_sequence
       (mk_maps (zeros rows cols) (zeros rows cols) (zeros rows cols) (zeros rows cols))
     = (r, t) /\
     out = (match r with
            | Raise e => Raise e
            | Ok m => after_scan scale invert pixel_size focus_to_det energy dx dy
                        padding w (length ref_fx) (length ref_fy) m
            end, t)).
Proof.
  unfold out, dpc_runner.
  destruct (Rlt_dec w 0) as [Hlo|Hlo]; [left; auto|].
  destruct (Rlt_dec 1 w) as [Hhi|Hhi]; [left; auto|].
  right.
  destruct (reference_spectra ref roi bad_pixels) as [[ref_fx ref_fy]|e] eqn:Eref.
  - right. split; [tauto|]. cbn [bindW lift app].
    destruct (scan _ _ _ _ _ _ _ _ _ _ _ _) as [r t] eqn:Escan.
    exists ref_fx, ref_fy, r, t. split; [reflexivity|]. split; [exact Escan|].
    destruct r as [m|e]; cbn [bindW lift app]; [|reflexivity].
    now rewrite app_nil_r.
  - left. split; [tauto|]. exists e. split; reflexivity.
Qed.

(** when the reference and every position go through and the pixel is
    not square, the pixel error is what the runner raises *)
Lemma pixel_error_raised (ref_fx ref_fy : list C) (m : maps) (t : list event) :
  ~ (w < 0 \/ 1 < w) ->
  reference_spectra ref roi bad_pixels = Ok (ref_fx, ref_fy) ->
  scan minimize ref_fx ref_fy start_point rows cols solver roi bad_pixels
    0 image_sequence
    (mk_maps (zeros rows cols) (zeros rows cols) (zeros rows cols) (zeros rows cols))
  = (Ok m, t) ->
  scale = true -> fst pixel_size <> snd pixel_size ->
  out = (Raise pixel_error, t).
Proof.
  intros Hw Href Hscan Hscale Hpix.
  destruct dpc_runner_cases as [[Hbad _]|[(_ & e & He & _)|(_ & fx & fy & r & t' & Hr & Hs & ->)]].
  - tauto.
  - congruence.
  - rewrite Href in Hr. injection Hr as <- <-.
    rewrite Hscan in Hs. injection Hs as <- <-.
    unfold after_scan, rescale. rewrite Hscale.
    destruct (Req_EM_T (fst pixel_size) (snd pixel_size)); [contradiction | reflexivity].
Qed.

(** C10. Whenever [dpc_runner] raises the non-square-pixel error,
    [scale] is true, the two pixel sizes differ, and the whole image
    sequence has been pulled, every scan position reduced and fitted on
    both axes, and the end of the source met: the check comes after the
    loop, never before it. *)
Theorem pixel_check_after_scan (t : list event) :
  out = (Raise pixel_error, t) ->
  scale = true /\ fst pixel_size <> snd pixel_size /\
  t = (positions_trace 0 (length image_sequence) ++ [StopIteration])%list /\
  pulls t = length image_sequence.
Proof.
  intros Hout.
  destruct dpc_runner_cases
    as [[_ Hr]|[(_ & e & He & Hr)|(Hw & fx & fy & r & t' & Href & Hscan & Hr)]];
    rewrite Hr in Hout.
  - discriminate.
  - injection Hout as -> _.
    destruct (reference_spectra_raises _ _ _ _ He); discriminate.
  - injection Hout as Hres <-.
    destruct (scan_spec minimize fx fy start_point rows cols solver roi bad_pixels
                image_sequence 0 (mk_maps (zeros rows cols) (zeros rows cols)
                                           (zeros rows cols) (zeros rows cols)))
      as [(m' & Hs & _)|(e & k & tk & Hs & _ & _ & Hcase)]; [apply Nat.le_0_l| |];
      rewrite Hs in Hscan; injection Hscan as <- <-.
    + destruct (after_scan_raises _ _ _ _ _ _ _ _ _ _ _ _ _ Hw Hres)
        as [(_ & Hscale & Hpix)|[H|[H|H]]]; try discriminate.
      repeat split; auto.
      rewrite pulls_app, pulls_positions_trace.
      change (pulls [StopIteration]) with 0%nat. lia.
    + injection Hres as ->.
      destruct Hcase as [[[H|[H|[H|H]]] _]|(H & _)]; discriminate.
Qed.

(** C6. [recon] raises the error of the [w] check if and only if
    [w < 0] or [w > 1], whatever [gx] and [gy] are; [dpc_runner] does
    the same, and then no image has been pulled and no position
    processed. *)
Theorem w_range_check (gx gy : ndarray R) :
  (recon gx gy dx dy padding w = Raise w_error <-> (w < 0 \/ 1 < w)) /\
  (w < 0 \/ 1 < w -> out = (Raise w_error, [])) /\
  (fst out = Raise w_error -> w < 0 \/ 1 < w).
Proof.
  split; [split|split].
  - intros Hraise.
    destruct (recon_raises _ _ _ _ _ _ _ Hraise) as [[_ Hbad]|[_ [H|H]]];
      [exact Hbad | discriminate | discriminate].
  - intros Hbad. unfold recon.
    destruct (Rlt_dec w 0); [reflexivity|].
    destruct (Rlt_dec 1 w); [reflexivity | tauto].
  - intros Hbad.
    destruct dpc_runner_cases as [[_ Hr]|[(Hw & _)|(Hw & _)]]; [exact Hr | tauto | tauto].
  - intros Hout.
    destruct dpc_runner_cases
      as [[Hbad _]|[(_ & e & He & Hr)|(Hw & fx & fy & r & t' & Href & Hscan & Hr)]];
      [exact Hbad | |]; rewrite Hr in Hout; cbn [fst] in Hout.
    + injection Hout as ->.
      destruct (reference_spectra_raises _ _ _ _ He); discriminate.
    + destruct (scan_spec minimize fx fy start_point rows cols solver roi bad_pixels
                  image_sequence 0 (mk_maps (zeros rows cols) (zeros rows cols)
                                             (zeros rows cols) (zeros rows cols)))
        as [(m' & Hs & _)|(e & k & tk & Hs & _ & _ & Hcase)]; [apply Nat.le_0_l| |];
        rewrite Hs in Hscan; injection Hscan as <- <-.
      * destruct (after_scan_raises _ _ _ _ _ _ _ _ _ _ _ _ _ Hw Hout)
          as [(H & _)|[H|[H|H]]]; discriminate.
      * injection Hout as ->.
        destruct Hcase as [[[H|[H|[H|H]]] _]|(H & _)]; discriminate.
Qed.

(** C1 (as the code has it). On an image sequence longer than
    [rows * cols] the runner does not stop after [rows * cols] images
    and does not return: unless a step raises before, it processes the
    first [rows * cols] images, pulls one more, and [np.unravel_index]
    raises ValueError on its index. *)
Theorem dpc_runner_overlong :
  (rows * cols < length image_sequence)%nat ->
  (fst out = Raise unravel_error /\
   snd out = (positions_trace 0 (rows * cols) ++ [Next (rows * cols)])%list /\
   pulls (snd out) = (rows * cols + 1)%nat) \/
  (exists e, fst out = Raise e /\ e <> unravel_error /\
             (pulls (snd out) <= rows * cols)%nat).
Proof.
  intros Hlong.
  destruct dpc_runner_cases
    as [[_ Hr]|[(_ & e & He & Hr)|(Hw & fx & fy & r & t' & Href & Hscan & Hr)]];
    rewrite Hr; cbn [fst snd].
  - right. exists w_error. repeat split; [discriminate | apply Nat.le_0_l].
  - right. exists e. repeat split; [|apply Nat.le_0_l].
    destruct (reference_spectra_raises _ _ _ _ He); subst; discriminate.
  - destruct (scan_spec minimize fx fy start_point rows cols solver roi bad_pixels
                image_sequence 0 (mk_maps (zeros rows cols) (zeros rows cols)
                                           (zeros rows cols) (zeros rows cols)))
      as [(m' & Hs & Hlen)|(e & k & tk & Hs & Hk & Htk & Hcase)];
      [apply Nat.le_0_l | simpl in Hlen; lia |].
    rewrite Hs in Hscan. injection Hscan as <- <-.
    simpl Nat.add in *.
    destruct Hcase as [[He Hlt]|(-> & -> & ->)].
    + right. exists e. repeat split.
      * destruct He as [H|[H|[H|H]]]; subst; discriminate.
      * rewrite pulls_app, pulls_positions_trace.
        change (Next k :: tk) with ([Next k] ++ tk)%list.
        rewrite pulls_app, Htk. change (pulls [Next k]) with 1%nat. lia.
    + left. repeat split.
      rewrite pulls_app, pulls_positions_trace. reflexivity.
Qed.

End Outcomes.

(** C1 (as the specification has it) fails: a 1 x 1 scan fed two images
    pulls both and raises on the second. *)
Lemma dpc_runner_overlong_counterexample :
  dpc_runner Examples.minimize_x0 Examples.im11
    [Examples.im11; Examples.im11] [1; 0] (1, 1) 1 1 1 1 1 1 0 (1 / 2)
    "Nelder-Mead" None None true false
  = (Raise unravel_error, [Next 0; Reduced 0; Fitted 0 X; Fitted 0 Y; Next 1]) /\
  pulls [Next 0; Reduced 0; Fitted 0 X; Fitted 0 Y; Next 1] = 2%nat.
Proof.
  split; [|reflexivity].
  unfold dpc_runner.
  destruct (Rlt_dec (1 / 2) 0); [lra|].
  destruct (Rlt_dec 1 (1 / 2)); [lra|].
  reflexivity.
Qed.

(** C1 (as the code has it) on a 1 x 1 scan fed two images *)
Lemma dpc_runner_overlong_witness :
  let out := dpc_runner Examples.minimize_x0 Examples.im11
               [Examples.im11; Examples.im11] [1; 0] (1, 1) 1 1 1 1 1 1 0
               (1 / 2) "Nelder-Mead" None None true false in
  (fst out = Raise unravel_error /\
   snd out = (positions_trace 0 (1 * 1) ++ [Next (1 * 1)%nat])%list /\
   pulls (snd out) = (1 * 1 + 1)%nat) \/
  (exists e, fst out = Raise e /\ e <> unravel_error /\ (pulls (snd out) <= 1 * 1)%nat).
Proof.
  apply (dpc_runner_overlong Examples.minimize_x0 Examples.im11
           [Examples.im11; Examples.im11] [1; 0] (1, 1) 1 1 1 1 1 1 0
           (1 / 2) "Nelder-Mead" None None true false).
  simpl. lia.
Defined.

(** a run that ends in the pixel check: one image, a 1 x 2 pixel *)
Example dpc_runner_pixel_run :
  dpc_runner Examples.minimize_x0 Examples.im11
    [Examples.im11] [1; 0] (1, 2) 1 1 1 1 1 1 0 (1 / 2)
    "Nelder-Mead" None None true true
  = (Raise pixel_error, [Next 0; Reduced 0; Fitted 0 X; Fitted 0 Y; StopIteration]).
Proof.
  eapply pixel_error_raised.
  - lra.
  - reflexivity.
  - reflexivity.
  - reflexivity.
  - simpl. lra.
Qed.

(** C10 on the run above *)
Lemma pixel_check_after_scan_witness :
  true = true /\ fst (1, 2) <> snd (1, 2) /\
  [Next 0; Reduced 0; Fitted 0 X; Fitted 0 Y; StopIteration]
  = (positions_trace 0 (length [Examples.im11]) ++ [StopIteration])%list /\
  pulls [Next 0; Reduced 0; Fitted 0 X; Fitted 0 Y; StopIteration]
  = length [Examples.im11].
Proof.
  apply (pixel_check_after_scan Examples.minimize_x0 Examples.im11
           [Examples.im11] [1; 0] (1, 2) 1 1 1 1 1 1 0 (1 / 2)
           "Nelder-Mead" None None true true).
  exact dpc_runner_pixel_run.
Defined.

End Runner.

(* ================================================================== *)
(** * More on image reduction: entries, bad pixels, regions *)

Section EntryFacts.
Context {A : Type} `{Dtype A}.
Import Dpc.

Lemma nth_update {B} (n m : nat) (f : B -> B) (l : list B) (d : B) :
  n < length l ->
  nth m (update n f l) d = if m =? n then f (nth n l d) else nth m l d.
Proof.
  revert n m; induction l as [|x t IH]; intros [|n] [|m] Hn; simpl in *;
    try lia; auto.
  apply IH. lia.
Qed.

Lemma norm_index_some (n : nat) (i : Z) (k : nat) :
  norm_index n i = Some k ->
  (- Z.of_nat n <= i < Z.of_nat n)%Z /\ k < n.
Proof.
  unfold norm_index.
  destruct (Z.leb_spec 0 i); destruct (Z.ltb_spec i (Z.of_nat n)); simpl;
    try (intros [= <-]; lia);
    destruct (Z.leb_spec (- Z.of_nat n) i); destruct (Z.ltb_spec i 0); simpl;
    try discriminate; intros [= <-]; lia.
Qed.

Lemma norm_index_none (n : nat) (i : Z) :
  norm_index n i = None -> ~ (- Z.of_nat n <= i < Z.of_nat n)%Z.
Proof.
  intros Hnone Hr. destruct (norm_index_in_range n i Hr) as (k & Hk & _). congruence.
Qed.

(** [a[i, j] = v] changes the entry [(i, j)] and no other *)
Lemma item_setitem (d : A) (a a' : ndarray A) (i j : Z) (v : A) (i' j' : nat) :
  wf a -> setitem a i j v = Ok a' ->
  item d a' i' j' = if hits (nrows a) (ncols a) (i, j) i' j' then v else item d a i' j'.
Proof.
  intros [Hlen Hrows]. unfold setitem, hits. cbn [fst snd].
  destruct (norm_index (nrows a) i) as [i0|] eqn:Ei; [|discriminate].
  destruct (norm_index (ncols a) j) as [j0|] eqn:Ej; [|discriminate].
  intros [= <-]. unfold item. cbn [data].
  destruct (norm_index_some _ _ _ Ei) as [_ Hi0].
  destruct (norm_index_some _ _ _ Ej) as [_ Hj0].
  rewrite nth_update by lia.
  rewrite (Nat.eqb_sym i0 i').
  destruct (Nat.eqb_spec i' i0) as [->|Hne]; simpl; [|reflexivity].
  assert (Hrow : length (nth i0 (data a) []) = ncols a)
    by (apply (proj1 (Forall_forall _ _) Hrows), nth_In; lia).
  rewrite nth_update by lia.
  rewrite (Nat.eqb_sym j0 j'). reflexivity.
Qed.

(** the loop of lines 80-81 zeroes the marked pixels and no other *)
Lemma zero_bad_pixels_items (d : A) (bad : list (Z * Z)) :
  forall (im im1 : ndarray A), wf im ->
    zero_bad_pixels im bad = Ok im1 ->
    wf im1 /\ nrows im1 = nrows im /\ ncols im1 = ncols im /\
    forall i j, item d im1 i j
                = if is_bad (nrows im) (ncols im) bad i j then dzero else item d im i j.
Proof.
  induction bad as [|[row column] rest IH]; intros im im1 Hwf; simpl.
  - intros [= <-]. auto.
  - destruct (setitem im row column dzero) as [im'|e] eqn:E; simpl; [|discriminate].
    intros Hrest.
    destruct (wf_setitem _ _ _ _ _ Hwf E) as (Hwf' & Hn' & Hc').
    destruct (IH im' im1 Hwf' Hrest) as (Hwf1 & Hn1 & Hc1 & Hitems).
    repeat split; try congruence; [apply Hwf1 | apply Hwf1 |].
    intros i j. rewrite Hitems, Hn', Hc'.
    rewrite (item_setitem d im im' row column dzero i j Hwf E).
    destruct (hits (nrows im) (ncols im) (row, column) i j); simpl;
      destruct (is_bad (nrows im) (ncols im) rest i j); reflexivity.
Qed.

(** a bad pixel that is no index of the image stops the loop *)
Lemma zero_bad_pixels_out_of_range (bad : list (Z * Z)) :
  forall im : ndarray A, wf im ->
    ~ bad_pixels_in_range im (Some bad) ->
    zero_bad_pixels im bad = Raise index_error.
Proof.
  induction bad as [|[row column] rest IH]; intros im Hwf Hout; simpl in *.
  - exfalso. apply Hout. constructor.
  - destruct (setitem im row column dzero) as [im'|e] eqn:E; simpl.
    + destruct (wf_setitem _ _ _ _ _ Hwf E) as (Hwf' & Hn' & Hc').
      apply IH; [exact Hwf'|]. rewrite Hn', Hc'. intros Hrest. apply Hout.
      constructor; [|exact Hrest]. simpl.
      unfold setitem in E.
      destruct (norm_index (nrows im) row) as [i0|] eqn:Ei; [|discriminate].
      destruct (norm_index (ncols im) column) as [j0|] eqn:Ej; [|discriminate].
      split; [eapply norm_index_some, Ei | eapply norm_index_some, Ej].
    + f_equal. eapply RunnerFacts.setitem_raises, E.
Qed.

(** two arrays of one shape with the same entries are the same array *)
Lemma ndarray_ext (d : A) (a b : ndarray A) :
  wf a -> wf b -> nrows a = nrows b -> ncols a = ncols b ->
  (forall i j, i < nrows a -> j < ncols a -> item d a i j = item d b i j) ->
  a = b.
Proof.
  destruct a as [ra ca da], b as [rb cb db]. unfold wf, item; simpl.
  intros [Hla Hra] [Hlb Hrb] -> -> Hitems. f_equal.
  apply nth_ext with (d := []) (d' := []); [congruence|].
  intros i Hi.
  assert (Hri : length (nth i da []) = cb)
    by (apply (proj1 (Forall_forall _ _) Hra), nth_In; lia).
  assert (Hrj : length (nth i db []) = cb)
    by (apply (proj1 (Forall_forall _ _) Hrb), nth_In; lia).
  apply nth_ext with (d := d) (d' := d); [congruence|].
  intros j Hj. apply Hitems; lia.
Qed.

(** the entries of a window *)
Lemma item_getslice (d : A) (a : ndarray A) (r0 r1 c0 c1 : Z) (i k : nat) :
  i < adjust_index (nrows a) r1 - adjust_index (nrows a) r0 ->
  k < adjust_index (ncols a) c1 - adjust_index (ncols a) c0 ->
  item d (getslice a r0 r1 c0 c1) i k
  = item d a (adjust_index (nrows a) r0 + i) (adjust_index (ncols a) c0 + k).
Proof.
  intros Hi Hk. unfold item, getslice. cbn [data].
  set (ra := adjust_index (nrows a) r0) in *. set (rb := adjust_index (nrows a) r1) in *.
  set (ca := adjust_index (ncols a) c0) in *. set (cb := adjust_index (ncols a) c1) in *.
  destruct (Nat.ltb_spec i (length (firstn (rb - ra) (skipn ra (data a))))) as [Hin|Hout].
  - rewrite nth_map_in with (d' := []) by exact Hin.
    rewrite nth_firstn. destruct (Nat.ltb_spec k (cb - ca)); [|lia].
    rewrite nth_skipn. f_equal.
    rewrite nth_firstn. destruct (Nat.ltb_spec i (rb - ra)); [|lia].
    now rewrite nth_skipn.
  - rewrite (nth_overflow (map _ _)) by (rewrite length_map; exact Hout).
    rewrite length_firstn, length_skipn in Hout.
    rewrite (nth_overflow (data a)) by lia.
    now destruct k, (ca + _).
Qed.

(** a list is the list of its entries *)
Lemma list_as_entries {B} (l : list B) (d : B) :
  l = map (fun k => nth k l d) (seq 0 (length l)).
Proof.
  induction l as [|x t IH]; simpl; [reflexivity|].
  f_equal. rewrite <- seq_shift, map_map. exact IH.
Qed.

(** the entries of the sum along the rows: one sum per column *)
Lemma nth_fold_zip (n k : nat) (rows : list (list A)) :
  Forall (fun r => length r = n) rows -> k < n ->
  nth k (fold_right (zip_with dadd) (repeat dzero n) rows) dzero
  = sum (map (fun r => nth k r dzero) rows).
Proof.
  intros Hrows Hk. induction Hrows as [|r rows Hr Hrows IH]; simpl.
  - now rewrite nth_repeat.
  - rewrite (nth_zip_with dadd r _ k dzero dzero dzero)
      by (rewrite ?length_fold_zip by exact Hrows; lia).
    rewrite IH. reflexivity.
Qed.

Lemma nth_sum_axis0 (a : ndarray A) (k : nat) :
  wf a -> k < ncols a ->
  nth k (sum_axis0 a) dzero
  = sum (map (fun i => item dzero a i k) (seq 0 (nrows a))).
Proof.
  intros [Hlen Hrows] Hk. unfold sum_axis0.
  rewrite nth_fold_zip by assumption.
  rewrite (list_as_entries (data a) []) at 1.
  rewrite map_map, Hlen. reflexivity.
Qed.

Lemma nth_sum_axis1 (a : ndarray A) (i : nat) :
  wf a -> i < nrows a ->
  nth i (sum_axis1 a) dzero
  = sum (map (fun k => item dzero a i k) (seq 0 (ncols a))).
Proof.
  intros [Hlen Hrows] Hi. unfold sum_axis1.
  rewrite nth_map_in with (d' := []) by lia.
  assert (Hrow : length (nth i (data a) []) = ncols a)
    by (apply (proj1 (Forall_forall _ _) Hrows), nth_In; lia).
  rewrite (list_as_entries (nth i (data a) []) dzero) at 1.
  rewrite Hrow. reflexivity.
Qed.

Lemma bad_pixels_in_range_dec (im : ndarray A) (bad_pixels : option (list (Z * Z))) :
  bad_pixels_in_range im bad_pixels \/ ~ bad_pixels_in_range im bad_pixels.
Proof.
  destruct bad_pixels as [bad|]; simpl; [|now left].
  induction bad as [|[row column] rest IH].
  - left. constructor.
  - destruct IH as [IH|IH].
    + destruct (Z_le_dec (- Z.of_nat (nrows im)) row);
        destruct (Z_lt_dec row (Z.of_nat (nrows im)));
        destruct (Z_le_dec (- Z.of_nat (ncols im)) column);
        destruct (Z_lt_dec column (Z.of_nat (ncols im)));
        try (left; constructor; [simpl; lia | exact IH]);
        right; intros Hall; inversion Hall as [|? ? Hhd _]; simpl in Hhd; lia.
    + right. intros Hall. inversion Hall; auto.
Qed.

End EntryFacts.

Section ReductionMore.
Context {A : Type} `{Dtype A}.
Import Dpc.

Lemma zeroed_items (im : ndarray A) (bad_pixels : option (list (Z * Z))) :
  wf im -> bad_pixels_in_range im bad_pixels ->
  exists im1,
    match bad_pixels with
    | None => Ok im
    | Some bad => zero_bad_pixels im bad
    end = Ok im1 /\
    wf im1 /\ nrows im1 = nrows im /\ ncols im1 = ncols im /\
    forall i j, item dzero im1 i j
                = if is_bad (nrows im) (ncols im) (pixels bad_pixels) i j
                  then dzero else item dzero im i j.
Proof.
  intros Hwf Hbad. destruct bad_pixels as [bad|]; simpl.
  - destruct (zero_bad_pixels_ok bad im Hwf Hbad) as (im1 & E & _).
    exists im1. split; [exact E|]. now apply zero_bad_pixels_items.
  - exists im. auto.
Qed.

(** X1. [image_reduction] on a rectangular image returns if and only if
    every bad pixel is an index of the image ([-n <= i < n] on each
    axis, whatever the region of interest); otherwise it raises
    IndexError. *)
Theorem image_reduction_index_error (im : ndarray A) roi bad_pixels :
  wf im ->
  ((exists xline yline, image_reduction im roi bad_pixels = Ok (xline, yline))
   <-> bad_pixels_in_range im bad_pixels) /\
  (~ bad_pixels_in_range im bad_pixels ->
   image_reduction im roi bad_pixels = Raise index_error).
Proof.
  intros Hwf.
  assert (Hraise : ~ bad_pixels_in_range im bad_pixels ->
                   image_reduction im roi bad_pixels = Raise index_error).
  { intros Hout. destruct bad_pixels as [bad|]; [|exfalso; apply Hout; exact I].
    unfold image_reduction, reduced_image.
    now rewrite (zero_bad_pixels_out_of_range bad im Hwf Hout). }
  split; [split|exact Hraise].
  - intros (xline & yline & Hok).
    destruct (bad_pixels_in_range_dec im bad_pixels) as [Hin|Hout]; [exact Hin|].
    rewrite (Hraise Hout) in Hok. discriminate.
  - intros Hin.
    destruct (reduced_image_ok im roi bad_pixels Hwf Hin) as (im1 & _ & _ & _ & _ & Hred & _).
    unfold image_reduction. rewrite Hred. simpl. eauto.
Qed.

(** X2. For a region of interest inside the image, entry [k] of the
    first projection is the sum over the rows of the region of the
    pixels of column [c + k], and entry [i] of the second the sum over
    the columns of the region of the pixels of row [r + i], a bad pixel
    counting as zero. *)
Theorem projection_entries (im : ndarray A) (r c row col : nat) bad_pixels :
  wf im -> bad_pixels_in_range im bad_pixels ->
  r + row <= nrows im -> c + col <= ncols im ->
  exists xline yline,
    image_reduction im
      (Some (Z.of_nat r, Z.of_nat c, Z.of_nat row, Z.of_nat col)) bad_pixels
    = Ok (xline, yline) /\
    length xline = col /\ length yline = row /\
    let good i j :=
      if is_bad (nrows im) (ncols im) (pixels bad_pixels) i j
      then dzero else item dzero im i j in
    (forall k, k < col ->
       nth k xline dzero = sum (map (fun i => good (r + i) (c + k)) (seq 0 row))) /\
    (forall i, i < row ->
       nth i yline dzero = sum (map (fun k => good (r + i) (c + k)) (seq 0 col))).
Proof.
  intros Hwf Hbad Hr Hc.
  destruct (zeroed_items im bad_pixels Hwf Hbad) as (im1 & E & Hwf1 & Hn & Hm & Hitems).
  set (roi := (Z.of_nat r, Z.of_nat c, Z.of_nat row, Z.of_nat col)).
  set (a := crop im1 (Some roi)).
  assert (Hwfa : wf a) by (apply wf_getslice; exact Hwf1).
  assert (Hra : adjust_index (nrows im1) (Z.of_nat r) = r)
    by (rewrite adjust_index_nonneg by lia; lia).
  assert (Hrb : adjust_index (nrows im1) (Z.of_nat r + Z.of_nat row) = r + row)
    by (rewrite adjust_index_nonneg by lia; lia).
  assert (Hca : adjust_index (ncols im1) (Z.of_nat c) = c)
    by (rewrite adjust_index_nonneg by lia; lia).
  assert (Hcb : adjust_index (ncols im1) (Z.of_nat c + Z.of_nat col) = c + col)
    by (rewrite adjust_index_nonneg by lia; lia).
  assert (Hna : nrows a = row) by (cbn [a crop roi getslice nrows]; lia).
  assert (Hma : ncols a = col) by (cbn [a crop roi getslice ncols]; lia).
  assert (Hia : forall i k, i < row -> k < col ->
            item dzero a i k
            = if is_bad (nrows im) (ncols im) (pixels bad_pixels) (r + i) (c + k)
              then dzero else item dzero im (r + i) (c + k)).
  { intros i k Hi Hk. unfold a, crop, roi.
    rewrite item_getslice by lia. rewrite Hra, Hca. apply Hitems. }
  exists (sum_axis0 a), (sum_axis1 a).
  split.
  { unfold image_reduction, reduced_image. rewrite E. reflexivity. }
  split; [rewrite length_sum_axis0 by exact Hwfa; exact Hma|].
  split; [rewrite length_sum_axis1 by exact Hwfa; exact Hna|].
  cbv zeta. split.
  - intros k Hk. rewrite nth_sum_axis0 by (auto; lia). rewrite Hna.
    f_equal. apply map_ext_in. intros i Hi. apply in_seq in Hi. apply Hia; lia.
  - intros i Hi. rewrite nth_sum_axis1 by (auto; lia). rewrite Hma.
    f_equal. apply map_ext_in. intros k Hk. apply in_seq in Hk. apply Hia; lia.
Qed.

Lemma is_bad_same_pixels (h w : nat) (bad bad' : list (Z * Z)) (i j : nat) :
  (forall p, In p bad <-> In p bad') -> is_bad h w bad i j = is_bad h w bad' i j.
Proof.
  intros Hsame. unfold is_bad.
  destruct (existsb _ bad) eqn:E; symmetry.
  - apply existsb_exists in E as (p & Hp & Hhit).
    apply existsb_exists. exists p. split; [now apply Hsame | exact Hhit].
  - destruct (existsb _ bad') eqn:E'; [|reflexivity].
    apply existsb_exists in E' as (p & Hp & Hhit).
    rewrite <- E. symmetry. apply existsb_exists.
    exists p. split; [now apply Hsame | exact Hhit].
Qed.

(** X3. The bad pixels act as a set: two lists with the same members,
    in any order and with any repetition, give the same result (the same
    projections, or the same IndexError). *)
Theorem bad_pixels_as_set (im : ndarray A) roi (bad bad' : list (Z * Z)) :
  wf im -> (forall p, In p bad <-> In p bad') ->
  image_reduction im roi (Some bad) = image_reduction im roi (Some bad').
Proof.
  intros Hwf Hsame.
  assert (Hrange : bad_pixels_in_range im (Some bad) <-> bad_pixels_in_range im (Some bad')).
  { simpl. rewrite !Forall_forall. split; intros Hall p Hp; apply Hall, Hsame, Hp. }
  destruct (bad_pixels_in_range_dec im (Some bad)) as [Hin|Hout].
  - destruct (zeroed_items im (Some bad) Hwf Hin) as (im1 & E & Hwf1 & Hn & Hm & Hit).
    destruct (zeroed_items im (Some bad') Hwf (proj1 Hrange Hin))
      as (im2 & E' & Hwf2 & Hn' & Hm' & Hit').
    assert (Heq : im1 = im2).
    { apply (ndarray_ext dzero); try assumption; try congruence.
      intros i j _ _. rewrite Hit, Hit'. cbn [pixels].
      now rewrite (is_bad_same_pixels _ _ bad bad' i j Hsame). }
    unfold image_reduction, reduced_image. rewrite E, E', Heq. reflexivity.
  - unfold image_reduction, reduced_image.
    rewrite (zero_bad_pixels_out_of_range bad im Hwf Hout).
    rewrite (zero_bad_pixels_out_of_range bad' im Hwf); [reflexivity|].
    intros Hin'. apply Hout, Hrange, Hin'.
Qed.

(** X4. Bad pixels are given in the coordinates of the whole image and
    zeroed before the crop: when none of them lies in the region of
    interest (and all are indices of the image), the result is that of
    a call without bad pixels. *)
Theorem bad_pixels_outside_roi (im : ndarray A) (r c row col : nat) (bad : list (Z * Z)) :
  wf im -> bad_pixels_in_range im (Some bad) ->
  (forall i j, is_bad (nrows im) (ncols im) bad i j = true ->
               ~ (r <= i < r + row /\ c <= j < c + col)) ->
  image_reduction im (Some (Z.of_nat r, Z.of_nat c, Z.of_nat row, Z.of_nat col)) (Some bad)
  = image_reduction im (Some (Z.of_nat r, Z.of_nat c, Z.of_nat row, Z.of_nat col)) None.
Proof.
  intros Hwf Hbad Hout.
  destruct (zeroed_items im (Some bad) Hwf Hbad) as (im1 & E & Hwf1 & Hn & Hm & Hit).
  cbn [pixels] in Hit.
  unfold image_reduction, reduced_image. rewrite E. cbv beta iota delta [Py.bind].
  assert (Hcrop : crop im1 (Some (Z.of_nat r, Z.of_nat c, Z.of_nat row, Z.of_nat col))
                  = crop im (Some (Z.of_nat r, Z.of_nat c, Z.of_nat row, Z.of_nat col))).
  { apply (ndarray_ext dzero).
    - apply wf_getslice, Hwf1.
    - apply wf_getslice, Hwf.
    - cbn [crop getslice nrows]. now rewrite Hn.
    - cbn [crop getslice ncols]. now rewrite Hm.
    - cbn [crop getslice nrows ncols]. intros i k Hi Hk. unfold crop.
      rewrite !item_getslice by (rewrite <- ?Hn, <- ?Hm; assumption).
      rewrite Hn, Hm, Hit.
      destruct (is_bad (nrows im) (ncols im) bad _ _) eqn:Eb; [|reflexivity].
      exfalso. apply (Hout _ _ Eb).
      rewrite Hn in Hi. rewrite Hm in Hk.
      rewrite !adjust_index_nonneg in * by lia. lia. }
  now rewrite Hcrop.
Qed.

(** X5. A negative origin is read as Python reads a negative slice
    bound: a region of [row <= height] rows whose origin [r] is
    negative and whose end [r + row] is not ([r = -row] for the last
    [row] rows) selects no row at all; the second projection is empty
    and the first holds zeros. *)
Theorem negative_origin_empty (im : ndarray A) (r c row col : Z) :
  wf im ->
  (- Z.of_nat (nrows im) <= r < 0)%Z -> (0 <= r + row)%Z ->
  (row <= Z.of_nat (nrows im))%Z ->
  exists xline,
    image_reduction im (Some (r, c, row, col)) None = Ok (xline, []) /\
    xline = repeat dzero (length xline).
Proof.
  intros Hwf Hr Hend Hrow.
  assert (Hrows : adjust_index (nrows im) (r + row) - adjust_index (nrows im) r = 0).
  { rewrite (adjust_index_nonneg (nrows im) (r + row)) by lia.
    unfold adjust_index.
    destruct (Z.ltb_spec r 0); [|lia].
    destruct (Z.ltb_spec (r + Z.of_nat (nrows im)) 0); [lia|].
    destruct (Z.leb_spec (Z.of_nat (nrows im)) (r + Z.of_nat (nrows im))); lia. }
  unfold image_reduction, reduced_image. cbv beta iota delta [Py.bind crop].
  unfold getslice, sum_axis0, sum_axis1. cbn [nrows ncols data].
  rewrite Hrows. simpl. eexists. split; [reflexivity|].
  now rewrite repeat_length.
Qed.

End ReductionMore.

(** X1 on the 2 x 3 example image *)
Lemma image_reduction_index_error_witness :
  ((exists xline yline,
      Dpc.image_reduction Examples.im23 (Some Examples.roi_in) (Some [(2, 0)]%Z)
      = Ok (xline, yline))
   <-> Dpc.bad_pixels_in_range Examples.im23 (Some [(2, 0)]%Z)) /\
  (~ Dpc.bad_pixels_in_range Examples.im23 (Some [(2, 0)]%Z) ->
   Dpc.image_reduction Examples.im23 (Some Examples.roi_in) (Some [(2, 0)]%Z)
   = Raise index_error).
Proof.
  apply (image_reduction_index_error Examples.im23 (Some Examples.roi_in)
           (Some [(2, 0)]%Z)).
  apply wfb_wf. reflexivity.
Defined.

(** X2 on the 2 x 3 example image, the region of its last two columns *)
Lemma projection_entries_witness :
  exists xline yline,
    Dpc.image_reduction Examples.im23
      (Some (Z.of_nat 0, Z.of_nat 1, Z.of_nat 2, Z.of_nat 2)) (Some Examples.bad1)
    = Ok (xline, yline) /\
    length xline = 2 /\ length yline = 2 /\
    let good i j :=
      if is_bad 2 3 (pixels (Some Examples.bad1)) i j
      then 0%Z else item 0%Z Examples.im23 i j in
    (forall k, k < 2 ->
       nth k xline 0%Z = sum (map (fun i => good (0 + i) (1 + k)) (seq 0 2))) /\
    (forall i, i < 2 ->
       nth i yline 0%Z = sum (map (fun k => good (0 + i) (1 + k)) (seq 0 2))).
Proof.
  refine (projection_entries Examples.im23 0 1 2 2 (Some Examples.bad1) _ _ _ _).
  - apply wfb_wf. reflexivity.
  - simpl. repeat constructor; simpl; lia.
  - simpl. lia.
  - simpl. lia.
Defined.

(** X3: a list of two bad pixels, and the same two in another order, one
    of them twice *)
Lemma bad_pixels_as_set_witness :
  Dpc.image_reduction Examples.im23 None (Some [(0, 1); (1, 2)]%Z)
  = Dpc.image_reduction Examples.im23 None (Some [(1, 2); (0, 1); (1, 2)]%Z).
Proof.
  apply (bad_pixels_as_set Examples.im23 None).
  - apply wfb_wf. reflexivity.
  - intros p. simpl. tauto.
Defined.

(** X4: the bad pixel (0, 0) and the region of the last two columns *)
Lemma bad_pixels_outside_roi_witness :
  Dpc.image_reduction Examples.im23
    (Some (Z.of_nat 0, Z.of_nat 1, Z.of_nat 2, Z.of_nat 2)) (Some [(0, 0)]%Z)
  = Dpc.image_reduction Examples.im23
      (Some (Z.of_nat 0, Z.of_nat 1, Z.of_nat 2, Z.of_nat 2)) None.
Proof.
  apply (bad_pixels_outside_roi Examples.im23 0 1 2 2 [(0, 0)]%Z).
  - apply wfb_wf. reflexivity.
  - simpl. repeat constructor; simpl; lia.
  - intros i j. destruct i as [|i]; destruct j as [|j]; simpl;
      try discriminate; intros _; lia.
Defined.

(** X5: the last row of the 2 x 3 example image asked for as
    [r = -1, row = 1] *)
Lemma negative_origin_empty_witness :
  exists xline,
    Dpc.image_reduction Examples.im23 (Some (-1, 0, 1, 3)%Z) None = Ok (xline, []) /\
    xline = repeat 0%Z (length xline).
Proof.
  refine (negative_origin_empty Examples.im23 (-1) 0 1 3 _ _ _ _).
  - apply wfb_wf. reflexivity.
  - simpl. lia.
  - lia.
  - simpl. lia.
Defined.

(** the region [r = -1, row = 1] of the example image holds no row; a
    region that stays in the negative indices holds the rows it names *)
Example image_reduction_negative_origin :
  Dpc.image_reduction Examples.im23 (Some (-1, 0, 1, 3)%Z) None = Ok ([0; 0; 0]%Z, []) /\
  Dpc.image_reduction Examples.im23 (Some (-2, 0, 1, 3)%Z) None = Ok ([1; 2; 3]%Z, [6]%Z).
Proof. split; reflexivity. Qed.

(* ================================================================== *)
(** * Theorems: the two projections, entry by entry *)

Section ReductionClaims.
Context {A : Type} `{Dtype A}.
Import Dpc.

(** the two sums of an array whose entries are known *)
Lemma projections_of (a : ndarray A) (g : nat -> nat -> A) :
  wf a ->
  (forall i k, i < nrows a -> k < ncols a -> item dzero a i k = g i k) ->
  length (sum_axis0 a) = ncols a /\ length (sum_axis1 a) = nrows a /\
  (forall k, k < ncols a ->
     nth k (sum_axis0 a) dzero = sum (map (fun i => g i k) (seq 0 (nrows a)))) /\
  (forall i, i < nrows a ->
     nth i (sum_axis1 a) dzero = sum (map (fun k => g i k) (seq 0 (ncols a)))) /\
  sum (sum_axis0 a) = sum (sum_axis1 a) /\
  sum (sum_axis1 a)
  = sum (map (fun i => sum (map (fun k => g i k) (seq 0 (ncols a)))) (seq 0 (nrows a))).
Proof.
  intros Hwf Hg.
  assert (Hy : forall i, i < nrows a ->
            nth i (sum_axis1 a) dzero = sum (map (fun k => g i k) (seq 0 (ncols a)))).
  { intros i Hi. rewrite nth_sum_axis1 by assumption.
    f_equal. apply map_ext_in. intros k Hk. apply in_seq in Hk. apply Hg; lia. }
  split; [now apply length_sum_axis0|]. split; [now apply length_sum_axis1|].
  split.
  { intros k Hk. rewrite nth_sum_axis0 by assumption.
    f_equal. apply map_ext_in. intros i Hi. apply in_seq in Hi. apply Hg; lia. }
  split; [exact Hy|].
  split; [rewrite sum_axis0_total by exact Hwf; now rewrite sum_axis1_total|].
  rewrite (list_as_entries (sum_axis1 a) dzero) at 1.
  rewrite length_sum_axis1 by exact Hwf.
  f_equal. apply map_ext_in. intros i Hi. apply in_seq in Hi. apply Hy. lia.
Qed.

(** the array the sums are taken of: the pixels of the window of the
    slices, the bad ones zeroed *)
Lemma reduced_window (im : ndarray A) (r c row col : Z) bad_pixels :
  wf im -> bad_pixels_in_range im bad_pixels ->
  exists a,
    image_reduction im (Some (r, c, row, col)) bad_pixels
    = Ok (sum_axis0 a, sum_axis1 a) /\
    wf a /\
    nrows a = adjust_index (nrows im) (r + row) - adjust_index (nrows im) r /\
    ncols a = adjust_index (ncols im) (c + col) - adjust_index (ncols im) c /\
    forall i k, i < nrows a -> k < ncols a ->
      item dzero a i k
      = if is_bad (nrows im) (ncols im) (pixels bad_pixels)
             (adjust_index (nrows im) r + i) (adjust_index (ncols im) c + k)
        then dzero
        else item dzero im (adjust_index (nrows im) r + i) (adjust_index (ncols im) c + k).
Proof.
  intros Hwf Hbad.
  destruct (zeroed_items im bad_pixels Hwf Hbad) as (im1 & E & Hwf1 & Hn & Hm & Hitems).
  exists (crop im1 (Some (r, c, row, col))).
  split; [unfold image_reduction, reduced_image; rewrite E; reflexivity|].
  split; [apply wf_getslice; exact Hwf1|].
  cbn [crop getslice nrows ncols]. rewrite Hn, Hm.
  split; [reflexivity|]. split; [reflexivity|].
  intros i k Hi Hk. rewrite item_getslice by (rewrite ?Hn, ?Hm; assumption).
  rewrite Hn, Hm. apply Hitems.
Qed.

(** C5. For every rectangular image, every region of interest and
    every list of in-range bad pixels, [image_reduction] returns two
    projections whose sums are equal; for a region inside the image (or
    no region) both are the sum, over the rows and the columns of the
    region, of the pixels of the image, a bad pixel counting as zero. *)
Theorem image_reduction_sums (im : ndarray A) roi bad_pixels :
  wf im -> bad_pixels_in_range im bad_pixels ->
  exists xline yline,
    image_reduction im roi bad_pixels = Ok (xline, yline) /\
    sum xline = sum yline /\
    (valid_roi im roi ->
     let '(r0, c0, h, w) := region im roi in
     let good i j :=
       if is_bad (nrows im) (ncols im) (pixels bad_pixels) i j
       then dzero else item dzero im i j in
     sum yline
     = sum (map (fun i => sum (map (fun k => good (r0 + i) (c0 + k)) (seq 0 w)))
              (seq 0 h))).
Proof.
  intros Hwf Hbad. destruct roi as [[[[r c] row] col]|].
  - destruct (reduced_window im r c row col bad_pixels Hwf Hbad)
      as (a & Hred & Hwfa & Hna & Hma & Hitems).
    destruct (projections_of a _ Hwfa Hitems) as (_ & _ & _ & _ & Hxy & Htot).
    exists (sum_axis0 a), (sum_axis1 a).
    split; [exact Hred|]. split; [exact Hxy|].
    intros (Hr & Hc & Hrow & Hcol & Hrr & Hcc). cbn [region]. cbv zeta.
    rewrite Htot, Hna, Hma.
    rewrite !adjust_index_nonneg by lia.
    replace (Nat.min (nrows im) (Z.to_nat r)) with (Z.to_nat r) by lia.
    replace (Nat.min (ncols im) (Z.to_nat c)) with (Z.to_nat c) by lia.
    replace (Nat.min (nrows im) (Z.to_nat (r + row)) - Z.to_nat r)
      with (Z.to_nat row) by lia.
    replace (Nat.min (ncols im) (Z.to_nat (c + col)) - Z.to_nat c)
      with (Z.to_nat col) by lia.
    reflexivity.
  - destruct (zeroed_items im bad_pixels Hwf Hbad) as (im1 & E & Hwf1 & Hn & Hm & Hitems).
    destruct (projections_of im1 _ Hwf1 (fun i k _ _ => Hitems i k))
      as (_ & _ & _ & _ & Hxy & Htot).
    exists (sum_axis0 im1), (sum_axis1 im1).
    split; [unfold image_reduction, reduced_image; rewrite E; reflexivity|].
    split; [exact Hxy|].
    intros _. cbn [region]. cbv zeta. rewrite Htot, Hn, Hm. reflexivity.
Qed.

(** C9. A region of interest with a non-negative origin and size that
    reaches beyond the image raises nothing: the projections are those
    of the part of the region inside the image, entry by entry, the row
    projection with [max(0, min(numCols, width - originCol))] entries
    and the column projection with
    [max(0, min(numRows, height - originRow))]; they are the projections
    of the region clipped to the image. *)
Theorem image_reduction_truncates (im : ndarray A) (r c row col : Z) bad_pixels :
  wf im -> bad_pixels_in_range im bad_pixels ->
  (0 <= r)%Z -> (0 <= c)%Z -> (0 <= row)%Z -> (0 <= col)%Z ->
  exists xline yline,
    image_reduction im (Some (r, c, row, col)) bad_pixels = Ok (xline, yline) /\
    Z.of_nat (length xline) = Z.max 0 (Z.min col (Z.of_nat (ncols im) - c)) /\
    Z.of_nat (length yline) = Z.max 0 (Z.min row (Z.of_nat (nrows im) - r)) /\
    (let good i j :=
       if is_bad (nrows im) (ncols im) (pixels bad_pixels) i j
       then dzero else item dzero im i j in
     (forall k, k < length xline ->
        nth k xline dzero
        = sum (map (fun i => good (Z.to_nat r + i) (Z.to_nat c + k))
                 (seq 0 (length yline)))) /\
     (forall i, i < length yline ->
        nth i yline dzero
        = sum (map (fun k => good (Z.to_nat r + i) (Z.to_nat c + k))
                 (seq 0 (length xline))))) /\
    image_reduction im
      (Some (r, c, Z.min row (Z.of_nat (nrows im) - r),
                   Z.min col (Z.of_nat (ncols im) - c))) bad_pixels
    = Ok (xline, yline).
Proof.
  intros Hwf Hbad Hr Hc Hrow Hcol.
  destruct (reduced_window im r c row col bad_pixels Hwf Hbad)
    as (a & Hred & Hwfa & Hna & Hma & Hitems).
  destruct (projections_of a _ Hwfa Hitems) as (Hlx & Hly & Hx & Hy & _).
  rewrite !adjust_index_nonneg in Hna, Hma, Hx, Hy by lia.
  exists (sum_axis0 a), (sum_axis1 a).
  split; [exact Hred|].
  split; [rewrite Hlx, Hma; lia|]. split; [rewrite Hly, Hna; lia|].
  split.
  - cbv zeta. rewrite Hlx, Hly. split.
    + intros k Hk. rewrite (Hx k Hk). f_equal. apply map_ext_in.
      intros i Hi. apply in_seq in Hi.
      replace (Nat.min (nrows im) (Z.to_nat r)) with (Z.to_nat r) by lia.
      replace (Nat.min (ncols im) (Z.to_nat c)) with (Z.to_nat c) by lia.
      reflexivity.
    + intros i Hi. rewrite (Hy i Hi). f_equal. apply map_ext_in.
      intros k Hk. apply in_seq in Hk.
      replace (Nat.min (nrows im) (Z.to_nat r)) with (Z.to_nat r) by lia.
      replace (Nat.min (ncols im) (Z.to_nat c)) with (Z.to_nat c) by lia.
      reflexivity.
  - rewrite <- Hred. unfold image_reduction, reduced_image.
    destruct (match bad_pixels with
              | Some bad => zero_bad_pixels im bad
              | None => Ok im
              end) as [im1|e] eqn:E; [|reflexivity].
    cbv beta iota delta [Py.bind].
    assert (Hshape : nrows im1 = nrows im /\ ncols im1 = ncols im).
    { destruct (zeroed_items im bad_pixels Hwf Hbad) as (im2 & E2 & _ & Hn & Hm & _).
      rewrite E in E2. injection E2 as <-. auto. }
    destruct Hshape as [Hn Hm].
    unfold crop, getslice. rewrite Hn, Hm, !window_clip by assumption.
    reflexivity.
Qed.

End ReductionClaims.

(** C5 on the 2 x 3 example image, one bad pixel, a region inside it:
    both projections add up to the three pixels left, [3 + 5 + 6] *)
Lemma image_reduction_sums_witness :
  exists xline yline,
    Dpc.image_reduction Examples.im23 (Some Examples.roi_in)
      (Some Examples.bad1) = Ok (xline, yline) /\
    sum xline = sum yline /\ sum yline = 14%Z.
Proof.
  destruct (image_reduction_sums Examples.im23 (Some Examples.roi_in)
              (Some Examples.bad1)) as (xline & yline & Hred & Hxy & Htot).
  - apply wfb_wf. reflexivity.
  - simpl. repeat constructor; simpl; lia.
  - exists xline, yline. split; [exact Hred|]. split; [exact Hxy|].
    apply Htot. simpl. lia.
Defined.

(** C9 on the 2 x 3 example image and a 4 x 5 region at (1, 1): one row
    and two columns of it lie inside the image *)
Lemma image_reduction_truncates_witness :
  exists xline yline,
    Dpc.image_reduction Examples.im23 (Some (1, 1, 4, 5)%Z)
      (Some Examples.bad1) = Ok (xline, yline) /\
    Z.of_nat (length xline) = 2%Z /\ Z.of_nat (length yline) = 1%Z /\
    (let good i j :=
       if is_bad 2 3 Examples.bad1 i j then 0%Z else item 0%Z Examples.im23 i j in
     (forall k, k < length xline ->
        nth k xline 0%Z
        = sum (map (fun i => good (1 + i) (1 + k)) (seq 0 (length yline)))) /\
     (forall i, i < length yline ->
        nth i yline 0%Z
        = sum (map (fun k => good (1 + i) (1 + k)) (seq 0 (length xline))))) /\
    Dpc.image_reduction Examples.im23 (Some (1, 1, 1, 2)%Z)
      (Some Examples.bad1) = Ok (xline, yline).
Proof.
  refine (image_reduction_truncates Examples.im23 1 1 4 5
            (Some Examples.bad1) _ _ _ _ _ _).
  - apply wfb_wf. reflexivity.
  - simpl. repeat constructor; simpl; lia.
  - lia.
  - lia.
  - lia.
  - lia.
Defined.

(** C9 as the specification has it fails for an origin beyond the
    image: on the 2 x 3 example image the region of two columns at
    column 5 leaves a row projection of no entry, where
    [min(numCols, width - originCol)] is [-2]. *)
Lemma image_reduction_truncates_counterexample :
  Dpc.image_reduction Examples.im23 (Some (0, 5, 1, 2)%Z) None = Ok ([], [0%Z]) /\
  Z.of_nat (length (@nil Z)) = 0%Z /\
  Z.min 2 (Z.of_nat (ncols Examples.im23) - 5) = (-2)%Z /\
  Z.of_nat (length (@nil Z)) <> Z.min 2 (Z.of_nat (ncols Examples.im23) - 5).
Proof. repeat split; try reflexivity. simpl. lia. Qed.

(* ================================================================== *)
(** * More on the residual evaluator *)

Module ResidualMore.
Import Dpc Residual.
Local Open Scope R_scope.

(** the residual as a sum over the indices, for any parameter vector
    of two entries or more *)
Lemma rss_expand (n : nat) (v0 v1 : R) (rest : list R) (reference target : list C) :
  length reference = n -> length target = n ->
  _rss_factory n (v0 :: v1 :: rest) reference target
  = Ok (sum (map (fun k =>
                    Cnorm2 (Csub (nth k target C0)
                              (Cmul (Cscal v0 (nth k reference C0))
                                 (Cexp (Cscal v1 (nth k (beta n) C0))))))
                 (seq 0 n))).
Proof.
  intros Href Htgt. unfold _rss_factory, _rss.
  rewrite broadcast1_same_length
    by (rewrite !length_map, Support.length_beta; exact Href).
  cbv beta iota delta [Py.bind].
  assert (Hinner : length (zip_with Cmul (map (Cscal v0) reference)
                             (map (fun b => Cexp (Cscal v1 b)) (beta n))) = n).
  { rewrite length_zip_with, !length_map, Support.length_beta, Href.
    apply Nat.min_id. }
  rewrite broadcast1_same_length by congruence.
  cbv beta iota delta [Py.bind]. f_equal.
  rewrite (zip_with_nth Csub C0 C0 target _ n Htgt Hinner).
  rewrite map_map. f_equal. apply map_ext_in. intros k Hk. apply in_seq in Hk.
  rewrite Re_mul_conj. do 2 f_equal.
  rewrite (zip_with_nth Cmul C0 C0 _ _ n)
    by (rewrite !length_map, ?Support.length_beta; auto).
  rewrite nth_map_seq by lia. simpl Nat.add.
  rewrite nth_map_in with (d' := C0) by lia.
  rewrite (nth_map_in C (fun b => Cexp (Cscal v1 b)) (beta n) k C0 C0)
    by (rewrite Support.length_beta; lia).
  reflexivity.
Qed.

(** X6. The residual vanishes at a perfect fit: for two spectra of the
    model's length, when every entry of the target is the entry of the
    reference scaled by the amplitude and turned by the phase ramp, the
    evaluator returns [0]. *)
Theorem rss_zero_at_fit (n : nat) (amplitude phaseGradient : R)
    (reference target : list C) :
  length reference = n -> length target = n ->
  (forall k, (k < n)%nat ->
     nth k target C0
     = Cmul (Cscal amplitude (nth k reference C0))
         (Cexp (Cscal phaseGradient (nth k (beta n) C0)))) ->
  _rss_factory n [amplitude; phaseGradient] reference target = Ok 0.
Proof.
  intros Href Htgt Hfit. rewrite (rss_expand n _ _ [] _ _ Href Htgt).
  f_equal. rewrite (map_ext_in _ (fun _ => 0)).
  - clear. induction (seq 0 n) as [|x l IH]; [reflexivity|].
    simpl map. rewrite sum_cons, IH. lra.
  - intros k Hk. apply in_seq in Hk. rewrite (Hfit k) by lia.
    unfold Cnorm2, Csub; simpl. ring.
Qed.

Lemma broadcast1_mismatch {A B D} (f : A -> B -> D) (a : list A) (b : list B) :
  length a <> 1%nat -> length b <> 1%nat -> length a <> length b ->
  broadcast1 f a b = Raise operands_error.
Proof.
  intros Ha Hb Hab. unfold broadcast1.
  destruct a as [|x [|x' a]]; destruct b as [|y [|y' b]]; simpl in *;
    try lia; try reflexivity.
  destruct (Nat.eqb_spec (length a) (length b)); [lia | reflexivity].
Qed.

(** X7. A spectrum of another length than the model's is not
    truncated or padded: when none of the three lengths is one (a
    length of one is broadcast) and the reference or the target has not
    the model's length, the evaluator raises ValueError. *)
Theorem rss_length_mismatch (n : nat) (v0 v1 : R) (rest : list R)
    (reference target : list C) :
  n <> 1%nat -> length reference <> 1%nat -> length target <> 1%nat ->
  length reference <> n \/ length target <> n ->
  _rss_factory n (v0 :: v1 :: rest) reference target = Raise operands_error.
Proof.
  intros Hn Href Htgt Hmis. unfold _rss_factory, _rss.
  destruct (Nat.eq_dec (length reference) n) as [Heq|Hne].
  - rewrite broadcast1_same_length
      by (rewrite !length_map, Support.length_beta; exact Heq).
    cbv beta iota delta [Py.bind].
    rewrite broadcast1_mismatch; [reflexivity | exact Htgt | |];
      rewrite length_zip_with, !length_map, Support.length_beta, Heq, Nat.min_id;
      [exact Hn | destruct Hmis; congruence].
  - rewrite broadcast1_mismatch; [reflexivity | | |];
      rewrite ?length_map, ?Support.length_beta; auto.
Qed.

(** X6 for two spectra of two entries, the target the reference itself *)
Lemma rss_zero_at_fit_witness :
  _rss_factory 2 [1; 0] [mkC 1 0; mkC 0 1] [mkC 1 0; mkC 0 1] = Ok 0.
Proof.
  apply (rss_zero_at_fit 2 1 0 [mkC 1 0; mkC 0 1] [mkC 1 0; mkC 0 1]);
    try reflexivity.
  intros [|[|k]] Hk; [| |lia]; unfold beta, linspace; simpl;
    apply C_eq; simpl; rewrite ?Rmult_0_l, ?Rmult_0_r, ?exp_0, ?cos_0, ?sin_0; ring.
Defined.

(** X7 for a model of two entries and spectra of three *)
Lemma rss_length_mismatch_witness :
  _rss_factory 2 [1; 0] [C0; C0; C0] [C0; C0; C0] = Raise operands_error.
Proof.
  apply (rss_length_mismatch 2 1 0 [] [C0; C0; C0] [C0; C0; C0]); simpl; lia.
Defined.

End ResidualMore.

(* ================================================================== *)
(** * More on the reconstruction *)

Module ReconMore.
Import Dpc ReconFacts.
Local Open Scope R_scope.

(** a frequency is zero at the centre index [n // 2] and nowhere else *)
Lemma freq_zero_iff (n k : nat) (d : R) :
  (0 < n)%nat -> d <> 0 ->
  (2 * PI * IZR (Z.of_nat k - Z.of_nat n / 2) / (INR n * d) = 0 <-> k = (n / 2)%nat).
Proof.
  intros Hn Hd.
  assert (Hnd : INR n * d <> 0).
  { apply Rmult_integral_contrapositive. split; [|exact Hd].
    apply not_0_INR. lia. }
  assert (Hdiv : (Z.of_nat n / 2)%Z = Z.of_nat (n / 2)) by (now rewrite Nat2Z.inj_div).
  split.
  - intros Hz. unfold Rdiv in Hz.
    apply Rmult_integral in Hz. destruct Hz as [Hz|Hz].
    + apply Rmult_integral in Hz. destruct Hz as [Hz|Hz].
      * pose proof PI_RGT_0. lra.
      * apply eq_IZR_R0 in Hz. lia.
    + exfalso. now apply (Rinv_neq_0_compat _ Hnd).
  - intros ->. rewrite Hdiv, Z.sub_diag. unfold Rdiv. ring.
Qed.

(** the divisor and the masked quotient at one cell of the padded
    grids *)
Lemma spectrum_cell (gxp gyp : ndarray R) (dx dy w : R) (i j : nat) :
  wf gxp -> wf gyp -> nrows gyp = nrows gxp -> ncols gyp = ncols gxp ->
  dx <> 0 -> dy <> 0 -> (i < nrows gxp)%nat -> (j < ncols gxp)%nat ->
  exists tx ty div_v c,
    fft2 (amap RtoC gxp) = Ok tx /\ fft2 (amap RtoC gyp) = Ok ty /\
    recon_spectrum gxp gyp dx dy w = Ok (div_v, c) /\
    wf c /\ nrows c = nrows gxp /\ ncols c = ncols gxp /\
    let kx := 2 * PI * IZR (Z.of_nat j - Z.of_nat (ncols gxp) / 2)
              / (INR (ncols gxp) * dx) in
    let ky := 2 * PI * IZR (Z.of_nat i - Z.of_nat (nrows gxp) / 2)
              / (INR (nrows gxp) * dy) in
    let d := kx ^ 2 * (1 - w) + ky ^ 2 * w in
    item None div_v i j = Some d /\
    item None c i j
    = Some (if Req_EM_T d 0 then C0
            else Cscal (/ d)
                   (Cmul (Cneg Ci)
                      (Cadd (Cscal (1 - w) (Cscal kx (item C0 (fftshift2 tx) i j)))
                         (Cscal w (Cscal ky (item C0 (fftshift2 ty) i j)))))).
Proof.
  intros Hwx Hwy Hn Hc Hdx Hdy Hi Hj.
  destruct (recon_spectrum_spec gxp gyp dx dy w)
    as (tx & ty & div_v & c & Htx & Hty & Hspec & Hwc & Hnc & Hcc & Hcells);
    try assumption; try lia.
  exists tx, ty, div_v, c.
  repeat (split; [assumption|]). cbv zeta.
  destruct (Hcells i j Hi Hj) as [Hd Hcij]. cbv zeta in Hd, Hcij.
  rewrite nth_freq_axis in Hd, Hcij by assumption.
  rewrite nth_freq_axis in Hd, Hcij by assumption.
  split; [exact Hd|]. rewrite Hcij. apply Recon.masked_cell.
Qed.

(** X8. The zero-frequency term never survives: for two gradient maps
    of one non-empty shape, a weight in [0, 1] and non-zero steps, the
    divisor of line 282 is zero at the centre cell
    [(pad_row // 2, pad_col // 2)] of the padded grid, and the spectrum
    whose inverse transform [recon] returns is [0] there. *)
Theorem centre_cell_masked (gx gy : ndarray R) (dx dy : R) (padding : nat) (w : R) :
  wf gx -> wf gy -> nrows gy = nrows gx -> ncols gy = ncols gx ->
  (0 < nrows gx)%nat -> (0 < ncols gx)%nat -> 0 <= w <= 1 ->
  dx <> 0 -> dy <> 0 ->
  exists gxp gyp div_v c t phi,
    pad_gradient gx (nrows gx) (ncols gx) padding = Ok gxp /\
    pad_gradient gy (nrows gx) (ncols gx) padding = Ok gyp /\
    recon_spectrum gxp gyp dx dy w = Ok (div_v, c) /\
    nf_ifft2 (ifftshift2 c) = Ok t /\
    recon gx gy dx dy padding w = Ok phi /\
    phi = amap (option_map Re)
            (getslice t
               (Z.of_nat (padding * nrows gx)) (Z.of_nat ((padding + 1) * nrows gx))
               (Z.of_nat (padding * ncols gx)) (Z.of_nat ((padding + 1) * ncols gx))) /\
    let pad_row := (nrows gx * (2 * padding + 1))%nat in
    let pad_col := (ncols gx * (2 * padding + 1))%nat in
    item None div_v (pad_row / 2) (pad_col / 2) = Some 0 /\
    item None c (pad_row / 2) (pad_col / 2) = Some C0.
Proof.
  intros Hwx Hwy Hn Hc Hr0 Hc0 Hw Hdx Hdy.
  destruct (ReconFacts.recon_ok gx gy dx dy padding w)
    as (gxp & gyp & tx & ty & div_v & c & t & Hgxp & Hgyp & Htx & Hty & Hspec
        & Ht & Hwt & Hnt & Hct & Hfin & Hrecon); try assumption.
  destruct (ReconFacts.pad_gradient_spec gx padding Hwx)
    as (gxp' & Hgxp' & Hwgxp & Hnx & Hcx & _).
  rewrite Hgxp in Hgxp'. injection Hgxp' as <-.
  destruct (ReconFacts.pad_gradient_spec gy padding Hwy)
    as (gyp' & Hgyp' & Hwgyp & Hny & Hcy & _).
  rewrite Hn, Hc in Hgyp'. rewrite Hgyp in Hgyp'. injection Hgyp' as <-.
  rewrite Hn in Hny. rewrite Hc in Hcy.
  assert (Hi : (nrows gxp / 2 < nrows gxp)%nat)
    by (apply Nat.div_lt; [rewrite Hnx; nia | lia]).
  assert (Hj : (ncols gxp / 2 < ncols gxp)%nat)
    by (apply Nat.div_lt; [rewrite Hcx; nia | lia]).
  destruct (spectrum_cell gxp gyp dx dy w (nrows gxp / 2) (ncols gxp / 2))
    as (tx' & ty' & div_v' & c' & _ & _ & Hspec' & _ & _ & _ & Hd & Hcij);
    try assumption; try congruence.
  rewrite Hspec in Hspec'. injection Hspec' as <- <-.
  cbv zeta in Hd, Hcij.
  assert (Hkx : 2 * PI * IZR (Z.of_nat (ncols gxp / 2) - Z.of_nat (ncols gxp) / 2)
                / (INR (ncols gxp) * dx) = 0)
    by (apply freq_zero_iff; [lia | exact Hdx | reflexivity]).
  assert (Hky : 2 * PI * IZR (Z.of_nat (nrows gxp / 2) - Z.of_nat (nrows gxp) / 2)
                / (INR (nrows gxp) * dy) = 0)
    by (apply freq_zero_iff; [lia | exact Hdy | reflexivity]).
  rewrite Hkx, Hky in Hd, Hcij.
  assert (Hz : 0 ^ 2 * (1 - w) + 0 ^ 2 * w = 0) by ring.
  exists gxp, gyp, div_v, c, t. eexists.
  split; [exact Hgxp|]. split; [exact Hgyp|]. split; [exact Hspec|].
  split; [exact Ht|]. split; [exact Hrecon|]. split; [reflexivity|].
  cbv zeta. rewrite <- Hnx, <- Hcx. split.
  - rewrite Hd. now rewrite Hz.
  - rewrite Hcij. destruct (Req_EM_T _ 0) as [_|Hnz]; [reflexivity|].
    exfalso. apply Hnz, Hz.
Qed.


(** the window of [pad_gradient] has the shape [(rows, cols)] *)
Lemma pad_window (rows cols padding : nat) :
  let pr := (rows * (2 * padding + 1))%nat in
  let pc := (cols * (2 * padding + 1))%nat in
  (Nat.max (adjust_index pr (Z.of_nat (padding * rows)))
           (adjust_index pr (Z.of_nat ((padding + 1) * rows)))
   - adjust_index pr (Z.of_nat (padding * rows)) = rows)%nat /\
  (Nat.max (adjust_index pc (Z.of_nat (padding * cols)))
           (adjust_index pc (Z.of_nat ((padding + 1) * cols)))
   - adjust_index pc (Z.of_nat (padding * cols)) = cols)%nat.
Proof.
  cbv zeta. rewrite !adjust_index_nonneg by lia. split; nia.
Qed.

Lemma pad_gradient_shape (g gp : ndarray R) (rows cols padding : nat) :
  pad_gradient g rows cols padding = Ok gp ->
  nrows gp = (rows * (2 * padding + 1))%nat /\
  ncols gp = (cols * (2 * padding + 1))%nat.
Proof.
  unfold pad_gradient, setslice.
  destruct (broadcast_to _ _ _ _); simpl; [|discriminate].
  now intros [= <-].
Qed.

(** on a grid with no row or no column the transform is refused,
    whatever else happens before *)
Lemma recon_empty_raises (gx gy : ndarray R) (dx dy : R) (padding : nat) (w : R) :
  (nrows gx = 0 \/ ncols gx = 0)%nat ->
  exists e, recon gx gy dx dy padding w = Raise e.
Proof.
  intros Hempty. unfold recon.
  destruct (Rlt_dec w 0); [eauto|]. destruct (Rlt_dec 1 w); [eauto|].
  destruct (pad_gradient gx _ _ padding) as [gxp|e1] eqn:E1; simpl; [|eauto].
  destruct (pad_gradient gy _ _ padding) as [gyp|e2] eqn:E2; simpl; [|eauto].
  destruct (pad_gradient_shape _ _ _ _ _ E1) as [Hn Hc].
  unfold recon_spectrum, fft2. cbn [nrows ncols amap]. rewrite Hn, Hc.
  assert (Hz : ((nrows gx * (2 * padding + 1) =? 0)
                || (ncols gx * (2 * padding + 1) =? 0))%nat = true).
  { apply orb_true_iff. destruct Hempty as [-> | ->]; [left | right]; reflexivity. }
  rewrite Hz. simpl. eauto.
Qed.

(** X10. [recon] does not return an empty phase image for an empty
    pair of gradient maps: with a valid weight, on maps with no row or
    no column it raises the ValueError of [np.fft.fft2] for zero data
    points. *)
Theorem recon_empty_grid (gx gy : ndarray R) (dx dy : R) (padding : nat) (w : R) :
  wf gx -> wf gy -> nrows gy = nrows gx -> ncols gy = ncols gx ->
  0 <= w <= 1 -> (nrows gx = 0 \/ ncols gx = 0)%nat ->
  recon gx gy dx dy padding w = Raise bad_fft_size.
Proof.
  intros Hwx Hwy Hn Hc Hw Hempty.
  destruct (pad_gradient_spec gx padding Hwx) as (gxp & Hgxp & _ & Hnx & Hcx & _).
  destruct (pad_gradient_spec gy padding Hwy) as (gyp & Hgyp & _ & _ & _ & _).
  rewrite Hn, Hc in Hgyp.
  unfold recon. destruct (Rlt_dec w 0); [lra|]. destruct (Rlt_dec 1 w); [lra|].
  rewrite Hgxp, Hgyp. cbv beta iota zeta delta [Py.bind].
  unfold recon_spectrum, fft2. cbn [nrows ncols amap]. rewrite Hnx, Hcx.
  assert (Hz : ((nrows gx * (2 * padding + 1) =? 0)
                || (ncols gx * (2 * padding + 1) =? 0))%nat = true).
  { apply orb_true_iff. destruct Hempty as [-> | ->]; [left | right]; reflexivity. }
  rewrite Hz. reflexivity.
Qed.

(** X11. The second gradient map must have the shape of the first (an
    axis of length one is broadcast): with a valid weight, a [gy] that
    differs from [gx] on an axis where its length is not one makes
    [recon] raise the ValueError of the assignment of line 269. *)
Theorem recon_shape_mismatch (gx gy : ndarray R) (dx dy : R) (padding : nat) (w : R) :
  wf gx -> 0 <= w <= 1 ->
  (nrows gy <> nrows gx /\ nrows gy <> 1%nat) \/
  (ncols gy <> ncols gx /\ ncols gy <> 1%nat) ->
  recon gx gy dx dy padding w = Raise broadcast_error.
Proof.
  intros Hwx Hw Hmis.
  destruct (pad_gradient_spec gx padding Hwx) as (gxp & Hgxp & _).
  unfold recon. destruct (Rlt_dec w 0); [lra|]. destruct (Rlt_dec 1 w); [lra|].
  rewrite Hgxp. cbv beta iota zeta delta [Py.bind].
  replace (pad_gradient gy (nrows gx) (ncols gx) padding) with (@Raise (ndarray R) broadcast_error);
    [reflexivity|].
  unfold pad_gradient, setslice. cbn [nrows ncols zeros].
  destruct (pad_window (nrows gx) (ncols gx) padding) as [Hr Hc]. cbv zeta in Hr, Hc.
  rewrite Hr, Hc. unfold broadcast_to.
  assert (Hcond : (((nrows gy =? nrows gx) || (nrows gy =? 1))
                   && ((ncols gy =? ncols gx) || (ncols gy =? 1)))%nat = false).
  { apply andb_false_iff.
    destruct Hmis as [[H1 H2]|[H1 H2]]; [left | right]; apply orb_false_iff;
      split; now apply Nat.eqb_neq. }
  rewrite Hcond. reflexivity.
Qed.

(** X12. With [padding = 0] nothing is added around the gradient map:
    the padded grid is the map itself. *)
Theorem zero_padding_identity (g : ndarray R) :
  wf g -> pad_gradient g (nrows g) (ncols g) 0 = Ok g.
Proof.
  intros Hwf.
  destruct (pad_gradient_spec g 0 Hwf) as (gp & Hgp & Hwfp & Hn & Hc & Hitems).
  rewrite Hgp. f_equal.
  apply (ndarray_ext 0); try assumption; try lia.
  intros i j Hi Hj. rewrite Hitems by lia.
  simpl Nat.mul. simpl Nat.add.
  destruct (Nat.ltb_spec i (nrows g + 0)); [|lia].
  destruct (Nat.ltb_spec j (ncols g + 0)); [|lia].
  simpl. now rewrite !Nat.sub_0_r.
Qed.

(** X8 on the 1 x 2 example maps with padding 1: the centre cell of the
    3 x 6 grid is (1, 3) *)
Lemma centre_cell_masked_witness :
  exists gxp gyp div_v c t phi,
    pad_gradient Examples.gx12 1 2 1 = Ok gxp /\
    pad_gradient Examples.gy12 1 2 1 = Ok gyp /\
    recon_spectrum gxp gyp 1 1 (1 / 2) = Ok (div_v, c) /\
    nf_ifft2 (ifftshift2 c) = Ok t /\
    recon Examples.gx12 Examples.gy12 1 1 1 (1 / 2) = Ok phi /\
    phi = amap (option_map Re) (getslice t 1 2 2 4) /\
    item None div_v 1 3 = Some 0 /\ item None c 1 3 = Some C0.
Proof.
  apply (centre_cell_masked Examples.gx12 Examples.gy12 1 1 1 (1 / 2)).
  - apply wfb_wf. reflexivity.
  - apply wfb_wf. reflexivity.
  - reflexivity.
  - reflexivity.
  - simpl. lia.
  - simpl. lia.
  - lra.
  - lra.
  - lra.
Defined.

(** X10 on a pair of maps with no row *)
Lemma recon_empty_grid_witness :
  recon (mk_ndarray 0 2 []) (mk_ndarray 0 2 []) 1 1 0 (1 / 2) = Raise bad_fft_size.
Proof.
  apply (recon_empty_grid (mk_ndarray 0 2 []) (mk_ndarray 0 2 []) 1 1 0 (1 / 2)).
  - apply wfb_wf. reflexivity.
  - apply wfb_wf. reflexivity.
  - reflexivity.
  - reflexivity.
  - lra.
  - left. reflexivity.
Defined.

(** X11: a 1 x 2 map and a 2 x 2 map *)
Lemma recon_shape_mismatch_witness :
  recon Examples.gx12 (mk_ndarray 2 2 [[1; 2]; [3; 4]]) 1 1 0 (1 / 2)
  = Raise broadcast_error.
Proof.
  apply (recon_shape_mismatch Examples.gx12 (mk_ndarray 2 2 [[1; 2]; [3; 4]]) 1 1 0 (1 / 2)).
  - apply wfb_wf. reflexivity.
  - lra.
  - left. simpl. lia.
Defined.

(** X12 on the 1 x 2 example map *)
Lemma zero_padding_identity_witness :
  pad_gradient Examples.gx12 1 2 0 = Ok Examples.gx12.
Proof.
  apply (zero_padding_identity Examples.gx12). apply wfb_wf. reflexivity.
Defined.


(** ** Zero gradients *)











End ReconMore.


(* ================================================================== *)
(** * More on the runner: what a run that returns has computed *)

Module RunnerMore.
Import Dpc RunnerFacts.
Local Open Scope R_scope.

Lemma hits_nat (h w i j i' j' : nat) :
  (i < h)%nat -> (j < w)%nat ->
  hits h w (Z.of_nat i, Z.of_nat j) i' j' = ((i =? i') && (j =? j'))%nat.
Proof.
  intros Hi Hj. unfold hits, norm_index. cbn [fst snd].
  destruct (Z.leb_spec 0 (Z.of_nat i)); [|lia].
  destruct (Z.ltb_spec (Z.of_nat i) (Z.of_nat h)); [|lia].
  destruct (Z.leb_spec 0 (Z.of_nat j)); [|lia].
  destruct (Z.ltb_spec (Z.of_nat j) (Z.of_nat w)); [|lia].
  cbn [andb]. now rewrite !Nat2Z.id.
Qed.

(** [np.unravel_index] on a grid: in range, and one to one *)
Lemma unravel_lt (index rows cols : nat) :
  (index < rows * cols)%nat -> (index / cols < rows)%nat /\ (index mod cols < cols)%nat.
Proof.
  intros Hlt. assert (Hc : cols <> 0%nat) by (intros ->; lia).
  split.
  - apply Nat.Div0.div_lt_upper_bound. lia.
  - now apply Nat.mod_upper_bound.
Qed.

Lemma unravel_inj (n k cols : nat) :
  (n / cols = k / cols)%nat -> (n mod cols = k mod cols)%nat -> n = k.
Proof.
  intros Hd Hm.
  rewrite (Nat.div_mod_eq n cols), (Nat.div_mod_eq k cols). now rewrite Hd, Hm.
Qed.


Section ScanCells.
Variable minimize :
  (list R -> result R) -> list R -> string -> R -> nat -> option (list R).
Variables (ref_fx ref_fy : list C) (start_point : list R) (rows cols : nat).
Variables (solver : string) (roi : option roi_t) (bad_pixels : option (list (Z * Z))).

Lemma fit_unpack_ok rss arg1 arg2 x0 s tol n (p q : R) :
  (xs <- dpc_fit minimize rss arg1 arg2 x0 s tol n ;; unpack2 xs) = Ok (p, q) ->
  minimize (fun v => rss v arg1 arg2) x0 s tol n = Some [p; q].
Proof.
  unfold dpc_fit. destruct (minimize _ _ _ _ _) as [xs|]; simpl; [|discriminate].
  destruct xs as [|a [|b [|c xs]]]; simpl; try discriminate.
  now intros [= -> ->].
Qed.

(** one position that goes through: its cell holds the fitted values,
    every other cell is as before *)
Lemma scan_position_ok (index : nat) (im : ndarray R) (m m' : maps) (t : list event) :
  maps_shape rows cols m ->
  scan_position minimize ref_fx ref_fy start_point rows cols solver roi bad_pixels
    index im m = (Ok m', t) ->
  (index < rows * cols)%nat /\ maps_shape rows cols m' /\
  fitted minimize ref_fx ref_fy start_point solver roi bad_pixels im
    (cell m' (index / cols) (index mod cols)) /\
  forall n, (n < rows * cols)%nat -> n <> index ->
    cell m' (n / cols) (n mod cols) = cell m (n / cols) (n mod cols).
Proof.
  intros ((Wax & Nax & Cax) & (Way & Nay & Cay) & (Wgx & Ngx & Cgx) & (Wgy & Ngy & Cgy)).
  unfold scan_position, unravel_index.
  destruct (Nat.ltb_spec index (rows * cols)) as [Hlt|]; [|discriminate].
  cbn [bindW lift tell ret app].
  destruct (image_reduction im roi bad_pixels) as [[imx imy]|e] eqn:E1; [|discriminate].
  cbn [bindW lift tell ret app].
  destruct (spectrum imx) as [fx|e] eqn:E2; [|discriminate].
  cbn [bindW lift tell ret app].
  destruct (spectrum imy) as [fy|e] eqn:E3; [|discriminate].
  cbn [bindW lift tell ret app].
  destruct (xs <- dpc_fit minimize (_rss_factory (length ref_fx)) ref_fx fx start_point
                    solver (1 / 1000000) 2000 ;; unpack2 xs) as [[_ax _gx]|e] eqn:E4;
    [|discriminate].
  cbn [bindW lift tell ret app].
  destruct (xs <- dpc_fit minimize (_rss_factory (length ref_fy)) ref_fy fy start_point
                    solver (1 / 1000000) 2000 ;; unpack2 xs) as [[_ay _gy]|e] eqn:E5;
    [|discriminate].
  cbn [bindW lift tell ret app].
  destruct (setitem (m_gx m) _ _ _gx) as [gx|e] eqn:E6; [|discriminate].
  cbn [bindW lift tell ret app].
  destruct (setitem (m_gy m) _ _ _gy) as [gy|e] eqn:E7; [|discriminate].
  cbn [bindW lift tell ret app].
  destruct (setitem (m_ax m) _ _ _ax) as [ax|e] eqn:E8; [|discriminate].
  cbn [bindW lift tell ret app].
  destruct (setitem (m_ay m) _ _ _ay) as [ay|e] eqn:E9; [|discriminate].
  cbn [bindW lift tell ret app].
  intros [= <- <-].
  destruct (unravel_lt index rows cols Hlt) as [Hi Hj].
  destruct (wf_setitem _ _ _ _ _ Wgx E6) as (Wgx' & Ngx' & Cgx').
  destruct (wf_setitem _ _ _ _ _ Wgy E7) as (Wgy' & Ngy' & Cgy').
  destruct (wf_setitem _ _ _ _ _ Wax E8) as (Wax' & Nax' & Cax').
  destruct (wf_setitem _ _ _ _ _ Way E9) as (Way' & Nay' & Cay').
  assert (Hcell : forall i' j',
    cell (mk_maps ax ay gx gy) i' j'
    = if ((index / cols =? i') && (index mod cols =? j'))%nat
      then (_ax, _ay, _gx, _gy) else cell m i' j').
  { intros i' j'. unfold cell. cbn [m_ax m_ay m_gx m_gy].
    rewrite (item_setitem 0 _ _ _ _ _ i' j' Wgx E6), (item_setitem 0 _ _ _ _ _ i' j' Wgy E7),
      (item_setitem 0 _ _ _ _ _ i' j' Wax E8), (item_setitem 0 _ _ _ _ _ i' j' Way E9).
    rewrite Nax, Cax, Nay, Cay, Ngx, Cgx, Ngy, Cgy.
    rewrite (hits_nat rows cols _ _ i' j' Hi Hj).
    destruct ((index / cols =? i') && (index mod cols =? j'))%nat; reflexivity. }
  split; [exact Hlt|]. split.
  { unfold maps_shape. cbn [m_ax m_ay m_gx m_gy]. repeat split; try congruence;
      first [apply Wax' | apply Way' | apply Wgx' | apply Wgy']. }
  split.
  - rewrite Hcell, !Nat.eqb_refl. cbn [andb fitted].
    exists imx, imy, fx, fy.
    split; [exact E1|]. split; [exact E2|]. split; [exact E3|].
    split; [exact (fit_unpack_ok _ _ _ _ _ _ _ _ _ E4) | exact (fit_unpack_ok _ _ _ _ _ _ _ _ _ E5)].
  - intros n Hn Hne. rewrite Hcell.
    destruct (Nat.eqb_spec (index / cols) (n / cols)) as [Hd|]; [|reflexivity].
    destruct (Nat.eqb_spec (index mod cols) (n mod cols)) as [Hm|]; [|reflexivity].
    exfalso. apply Hne. symmetry. exact (unravel_inj _ _ _ Hd Hm).
Qed.

(** the loop that runs to the end of the source: the image number [k]
    of the rest has its fitted values in the cell [index + k] of the
    grid, counted row by row, and the cells before [index] and after the
    last image are as they were *)
Lemma scan_cells (image_sequence : list (ndarray R)) :
  forall (index : nat) (m m' : maps) (t : list event),
    maps_shape rows cols m ->
    scan minimize ref_fx ref_fy start_point rows cols solver roi bad_pixels
      index image_sequence m = (Ok m', t) ->
    maps_shape rows cols m' /\
    (forall k im, nth_error image_sequence k = Some im ->
       (index + k < rows * cols)%nat /\
       fitted minimize ref_fx ref_fy start_point solver roi bad_pixels im
         (cell m' ((index + k) / cols) ((index + k) mod cols))) /\
    (forall n, (n < rows * cols)%nat ->
       (n < index \/ index + length image_sequence <= n)%nat ->
       cell m' (n / cols) (n mod cols) = cell m (n / cols) (n mod cols)).
Proof.
  induction image_sequence as [|im rest IH]; intros index m m' t Hm.
  - cbn. intros [= <- <-]. split; [exact Hm|]. split; [|reflexivity].
    intros [|k] im0; discriminate.
  - cbn [scan]. cbn [bindW tell app].
    destruct (scan_position minimize ref_fx ref_fy start_point rows cols solver roi
                bad_pixels index im m) as [[m1|e] t1] eqn:E1; [|discriminate].
    destruct (scan_position_ok _ _ _ _ _ Hm E1) as (Hlt & Hm1 & Hfit & Hframe).
    cbn [bindW app].
    destruct (scan minimize ref_fx ref_fy start_point rows cols solver roi bad_pixels
                (S index) rest m1) as [[m2|e] t2] eqn:E2; [|discriminate].
    intros [= <- <-].
    destruct (IH _ _ _ _ Hm1 E2) as (Hm2 & Hcells & Hrest).
    split; [exact Hm2|]. split.
    + intros [|k] im0 Hk.
      * injection Hk as <-. rewrite Nat.add_0_r. split; [exact Hlt|].
        rewrite (Hrest index Hlt) by lia. exact Hfit.
      * rewrite Nat.add_succ_r. apply (Hcells k im0 Hk).
    + intros n Hn Hout. cbn [length] in Hout.
      rewrite (Hrest n Hn) by lia. apply Hframe; [exact Hn | lia].
Qed.



End ScanCells.

Lemma zeros_maps_shape (rows cols : nat) :
  maps_shape rows cols
    (mk_maps (zeros rows cols) (zeros rows cols) (zeros rows cols) (zeros rows cols)).
Proof.
  pose proof (@wf_zeros R R_dtype rows cols) as Hz.
  unfold maps_shape. cbn [m_ax m_ay m_gx m_gy]. tauto.
Qed.

Lemma zeros_cell (rows cols i j : nat) :
  cell (mk_maps (zeros rows cols) (zeros rows cols) (zeros rows cols) (zeros rows cols)) i j
  = (0, 0, 0, 0).
Proof.
  pose proof (@item_zeros R R_dtype rows cols i j) as Hz.
  change (@dzero R R_dtype) with 0 in Hz.
  unfold cell. cbn [m_ax m_ay m_gx m_gy]. now rewrite Hz.
Qed.

(** the rescaling, when it returns, keeps the shape of the two maps *)
Lemma rescale_ok (scale : bool) (pixel_size : R * R) (focus_to_det energy : R)
    (len_fx len_fy : nat) (gx gy gx' gy' : ndarray R) :
  rescale scale pixel_size focus_to_det energy len_fx len_fy gx gy = Ok (gx', gy') ->
  ((wf gx -> wf gx') /\ nrows gx' = nrows gx /\ ncols gx' = ncols gx) /\
  ((wf gy -> wf gy') /\ nrows gy' = nrows gy /\ ncols gy' = ncols gy).
Proof.
  unfold rescale. destruct scale.
  - destruct (Req_EM_T (fst pixel_size) (snd pixel_size)); [|discriminate].
    destruct (pydiv _ energy) as [lambda_|]; simpl; [|discriminate].
    destruct (pydiv (INR len_fx * _) _) as [sx|]; simpl; [|discriminate].
    destruct (pydiv (INR len_fy * _) _) as [sy|]; simpl; [|discriminate].
    intros [= <- <-].
    split; (split; [apply wf_amap | split; reflexivity]).
  - intros [= <- <-]. tauto.
Qed.

(** the rescaling returns when it is switched off, and when the pixel is
    square and neither of its two divisors is zero; and only then *)
Lemma rescale_returns (scale : bool) (pixel_size : R * R) (focus_to_det energy : R)
    (len_fx len_fy : nat) (gx gy : ndarray R) :
  (scale = true ->
   fst pixel_size = snd pixel_size /\ energy <> 0 /\
   124 / 100000 / energy * focus_to_det <> 0) ->
  exists gx' gy',
    rescale scale pixel_size focus_to_det energy len_fx len_fy gx gy = Ok (gx', gy').
Proof.
  intros Hs. unfold rescale. destruct scale; [|eauto].
  destruct (Hs eq_refl) as (Hpix & He & Hl).
  destruct (Req_EM_T (fst pixel_size) (snd pixel_size)); [|contradiction].
  unfold pydiv at 1. destruct (Req_EM_T energy 0); [contradiction|]. simpl.
  unfold pydiv.
  destruct (Req_EM_T (124 / 100000 / energy * focus_to_det) 0); [contradiction|].
  simpl. eauto.
Qed.

Lemma rescale_returned (scale : bool) (pixel_size : R * R) (focus_to_det energy : R)
    (len_fx len_fy : nat) (gx gy : ndarray R) (r : ndarray R * ndarray R) :
  rescale scale pixel_size focus_to_det energy len_fx len_fy gx gy = Ok r ->
  scale = true ->
  fst pixel_size = snd pixel_size /\ energy <> 0 /\
  124 / 100000 / energy * focus_to_det <> 0.
Proof.
  unfold rescale. intros Hr ->.
  destruct (Req_EM_T (fst pixel_size) (snd pixel_size)); [|discriminate].
  unfold pydiv at 1 in Hr. destruct (Req_EM_T energy 0); [discriminate|].
  simpl in Hr. unfold pydiv at 1 in Hr.
  destruct (Req_EM_T (124 / 100000 / energy * focus_to_det) 0); [discriminate|].
  auto.
Qed.

(** [recon] returns on two well-formed maps of one shape only when the
    shape is not empty and the weight is in its range, and what it
    returns has the shape of the maps *)
Lemma recon_returned (gx gy : ndarray R) (dx dy : R) (padding : nat) (w : R)
    (phi : ndarray (nf R)) :
  wf gx -> wf gy -> nrows gy = nrows gx -> ncols gy = ncols gx ->
  recon gx gy dx dy padding w = Ok phi ->
  (0 < nrows gx)%nat /\ (0 < ncols gx)%nat /\
  wf phi /\ nrows phi = nrows gx /\ ncols phi = ncols gx.
Proof.
  intros Hwx Hwy Hn Hc Hphi.
  assert (Hr0 : (0 < nrows gx)%nat).
  { destruct (nrows gx) eqn:E; [|lia].
    destruct (ReconMore.recon_empty_raises gx gy dx dy padding w (or_introl E)) as [e He].
    congruence. }
  assert (Hc0 : (0 < ncols gx)%nat).
  { destruct (ncols gx) eqn:E; [|lia].
    destruct (ReconMore.recon_empty_raises gx gy dx dy padding w (or_intror E)) as [e He].
    congruence. }
  assert (Hw : 0 <= w <= 1).
  { revert Hphi. unfold recon. destruct (Rlt_dec w 0); [discriminate|].
    destruct (Rlt_dec 1 w); [discriminate|]. lra. }
  destruct (ReconFacts.recon_ok gx gy dx dy padding w)
    as (gxp & gyp & tx & ty & div_v & c & t & _ & _ & _ & _ & _
        & _ & Hwt & Hnt & Hct & _ & Hrecon); try assumption.
  rewrite Hrecon in Hphi. injection Hphi as <-.
  split; [exact Hr0|]. split; [exact Hc0|].
  split; [apply wf_amap, wf_getslice, Hwt|].
  cbn [nrows ncols amap getslice]. rewrite Hnt, Hct.
  rewrite !adjust_index_nonneg by lia. split; nia.
Qed.

Lemma recon_returns (gx gy : ndarray R) (dx dy : R) (padding : nat) (w : R) :
  wf gx -> wf gy -> nrows gy = nrows gx -> ncols gy = ncols gx ->
  (0 < nrows gx)%nat -> (0 < ncols gx)%nat -> 0 <= w <= 1 ->
  exists phi, recon gx gy dx dy padding w = Ok phi.
Proof.
  intros Hwx Hwy Hn Hc Hr0 Hc0 Hw.
  destruct (ReconFacts.recon_ok gx gy dx dy padding w)
    as (gxp & gyp & tx & ty & div_v & c & t & _ & _ & _ & _ & _
        & _ & _ & _ & _ & _ & Hrecon); try assumption.
  eauto.
Qed.

Section AfterScan.
Variables (scale invert : bool) (pixel_size : R * R).
Variables (focus_to_det energy dx dy : R) (padding : nat) (w : R).
Variables (len_fx len_fy rows cols : nat).

(** what follows the loop, when it returns *)
Lemma after_scan_returned (m : maps) (phi : ndarray (nf R)) (a : ndarray R) :
  maps_shape rows cols m ->
  after_scan scale invert pixel_size focus_to_det energy dx dy padding w
    len_fx len_fy m = Ok (phi, a) ->
  a = amap2 (fun p q => (p + q) / 2) (m_ax m) (m_ay m) /\
  (scale = true ->
   fst pixel_size = snd pixel_size /\ energy <> 0 /\
   124 / 100000 / energy * focus_to_det <> 0) /\
  (0 < rows)%nat /\ (0 < cols)%nat /\
  wf phi /\ nrows phi = rows /\ ncols phi = cols.
Proof.
  intros (_ & _ & (Wgx & Ngx & Cgx) & (Wgy & Ngy & Cgy)). unfold after_scan.
  destruct (rescale _ _ _ _ _ _ _ _) as [[gx gy]|e1] eqn:E1; simpl; [|discriminate].
  destruct (rescale_ok _ _ _ _ _ _ _ _ _ _ E1) as ((Wx & Nx & Cx) & (Wy & Ny & Cy)).
  destruct (recon _ gy dx dy padding w) as [phi'|e2] eqn:E2; simpl; [|discriminate].
  intros [= <- <-]. split; [reflexivity|].
  split; [exact (rescale_returned _ _ _ _ _ _ _ _ _ E1)|].
  assert (Hshape : (0 < nrows (if invert then amap Ropp gx else gx))%nat /\
                   (0 < ncols (if invert then amap Ropp gx else gx))%nat /\
                   wf phi' /\
                   nrows phi' = nrows (if invert then amap Ropp gx else gx) /\
                   ncols phi' = ncols (if invert then amap Ropp gx else gx)).
  { apply (recon_returned _ gy dx dy padding w phi'); [| | | |exact E2].
    - destruct invert; [apply wf_amap|]; auto.
    - auto.
    - destruct invert; cbn [amap nrows]; congruence.
    - destruct invert; cbn [amap ncols]; congruence. }
  assert (Hn : nrows (if invert then amap Ropp gx else gx) = rows)
    by (destruct invert; cbn [amap nrows]; congruence).
  assert (Hc : ncols (if invert then amap Ropp gx else gx) = cols)
    by (destruct invert; cbn [amap ncols]; congruence).
  rewrite Hn, Hc in Hshape. exact Hshape.
Qed.

(** ... and when it does return *)
Lemma after_scan_returns (m : maps) :
  maps_shape rows cols m -> (0 < rows)%nat -> (0 < cols)%nat -> 0 <= w <= 1 ->
  (scale = true ->
   fst pixel_size = snd pixel_size /\ energy <> 0 /\
   124 / 100000 / energy * focus_to_det <> 0) ->
  exists phi a,
    after_scan scale invert pixel_size focus_to_det energy dx dy padding w
      len_fx len_fy m = Ok (phi, a).
Proof.
  intros (_ & _ & (Wgx & Ngx & Cgx) & (Wgy & Ngy & Cgy)) Hr0 Hc0 Hw Hs.
  unfold after_scan.
  destruct (rescale_returns scale pixel_size focus_to_det energy len_fx len_fy
              (m_gx m) (m_gy m) Hs) as (gx & gy & E1).
  rewrite E1. simpl.
  destruct (rescale_ok _ _ _ _ _ _ _ _ _ _ E1) as ((Wx & Nx & Cx) & (Wy & Ny & Cy)).
  destruct (recon_returns (if invert then amap Ropp gx else gx) gy dx dy padding w)
    as [phi E2]; try exact Hw.
  - destruct invert; [apply wf_amap|]; auto.
  - auto.
  - destruct invert; cbn [amap nrows]; congruence.
  - destruct invert; cbn [amap ncols]; congruence.
  - destruct invert; cbn [amap nrows]; lia.
  - destruct invert; cbn [amap ncols]; lia.
  - rewrite E2. simpl. eauto.
Qed.

End AfterScan.

Section RunOutcomes.
Variable minimize :
  (list R -> result R) -> list R -> string -> R -> nat -> option (list R).
Variables (ref : ndarray R) (image_sequence : list (ndarray R)).
Variables (start_point : list R) (pixel_size : R * R) (focus_to_det : R).
Variables (rows cols : nat) (dx dy energy : R) (padding : nat) (w : R).
Variables (solver : string) (roi : option roi_t) (bad_pixels : option (list (Z * Z))).
Variables (invert scale : bool).

Let out := dpc_runner minimize ref image_sequence start_point pixel_size focus_to_det
             rows cols dx dy energy padding w solver roi bad_pixels invert scale.

Let start := mk_maps (zeros rows cols : ndarray R) (zeros rows cols)
               (zeros rows cols) (zeros rows cols).

(** the stages of a run that returns *)
Lemma run_returned (r : ndarray (nf R) * ndarray R) (t : list event) :
  out = (Ok r, t) ->
  0 <= w <= 1 /\
  exists ref_fx ref_fy m,
    reference_spectra ref roi bad_pixels = Ok (ref_fx, ref_fy) /\
    scan minimize ref_fx ref_fy start_point rows cols solver roi bad_pixels
      0 image_sequence start = (Ok m, t) /\
    after_scan scale invert pixel_size focus_to_det energy dx dy padding w
      (length ref_fx) (length ref_fy) m = Ok r.
Proof.
  intros Hout.
  destruct (Runner.dpc_runner_cases minimize ref image_sequence start_point pixel_size
              focus_to_det rows cols dx dy energy padding w solver roi bad_pixels
              invert scale)
    as [[_ Hr]|[(_ & e & _ & Hr)|(Hw & fx & fy & res & t' & Href & Hscan & Hr)]];
    fold out in Hr; rewrite Hr in Hout; try discriminate.
  split; [lra|]. exists fx, fy.
  destruct res as [m|e]; [|discriminate].
  injection Hout as Hres <-. exists m. auto.
Qed.

(** a run whose stages return, returns *)
Lemma run_returns (ref_fx ref_fy : list C) (m : maps)
    (r : ndarray (nf R) * ndarray R) (t : list event) :
  0 <= w <= 1 ->
  reference_spectra ref roi bad_pixels = Ok (ref_fx, ref_fy) ->
  scan minimize ref_fx ref_fy start_point rows cols solver roi bad_pixels
    0 image_sequence start = (Ok m, t) ->
  after_scan scale invert pixel_size focus_to_det energy dx dy padding w
    (length ref_fx) (length ref_fy) m = Ok r ->
  out = (Ok r, t).
Proof.
  intros Hw Href Hscan Hafter.
  destruct (Runner.dpc_runner_cases minimize ref image_sequence start_point pixel_size
              focus_to_det rows cols dx dy energy padding w solver roi bad_pixels
              invert scale)
    as [[Hbad _]|[(_ & e & He & _)|(_ & fx & fy & res & t' & Hr & Hs & Hout)]];
    [lra | congruence |].
  fold out in Hout. rewrite Hout.
  rewrite Href in Hr. injection Hr as <- <-.
  unfold start in Hscan. rewrite Hscan in Hs. injection Hs as <- <-.
  now rewrite Hafter.
Qed.



(** X15. When [dpc_runner] returns, it has pulled every image of the
    sequence once, reduced and fitted each on both axes in order, and met
    the end of the source; the phase image and the amplitude image it
    returns are well-formed [rows] x [cols] arrays. *)
Theorem dpc_runner_result_shape (phi : ndarray (nf R)) (a : ndarray R) (t : list event) :
  out = (Ok (phi, a), t) ->
  t = (positions_trace 0 (length image_sequence) ++ [StopIteration])%list /\
  pulls t = length image_sequence /\
  (wf phi /\ nrows phi = rows /\ ncols phi = cols) /\
  (wf a /\ nrows a = rows /\ ncols a = cols).
Proof.
  intros Hout.
  destruct (run_returned _ _ Hout) as (Hw & fx & fy & m & Href & Hscan & Hafter).
  destruct (scan_cells minimize fx fy start_point rows cols solver roi bad_pixels
              image_sequence 0 start m t (zeros_maps_shape rows cols) Hscan)
    as (Hm & _).
  destruct (after_scan_returned _ _ _ _ _ _ _ _ _ _ _ _ _ _ _ _ Hm Hafter)
    as (Ha & _ & _ & _ & Hphi).
  assert (Ht : t = (positions_trace 0 (length image_sequence) ++ [StopIteration])%list).
  { destruct (scan_spec minimize fx fy start_point rows cols solver roi bad_pixels
                image_sequence 0 start)
      as [(m' & Hs & _)|(e & k & tk & Hs & _)]; [apply Nat.le_0_l| |];
      rewrite Hs in Hscan; [|discriminate].
    now injection Hscan as _ <-. }
  split; [exact Ht|]. split.
  { rewrite Ht, pulls_app, pulls_positions_trace.
    change (pulls [StopIteration]) with 0%nat. lia. }
  split; [exact Hphi|].
  destruct Hm as ((Wax & Nax & Cax) & (Way & Nay & Cay) & _).
  subst a. split; [apply wf_amap2; congruence|].
  cbn [amap2 nrows ncols]. auto.
Qed.

(** X16. When [dpc_runner] returns, the amplitude image holds, at the
    cell [(k // cols, k % cols)], the mean of the two amplitudes fitted
    for the image number [k] of the sequence, and zero at every cell of
    the grid past the last image. *)
Theorem dpc_runner_amplitude_cells (phi : ndarray (nf R)) (a : ndarray R)
    (t : list event) :
  out = (Ok (phi, a), t) ->
  exists ref_fx ref_fy,
    reference_spectra ref roi bad_pixels = Ok (ref_fx, ref_fy) /\
    (forall k im, nth_error image_sequence k = Some im ->
       exists _ax _ay _gx _gy,
         fitted minimize ref_fx ref_fy start_point solver roi bad_pixels im
           (_ax, _ay, _gx, _gy) /\
         item 0 a (k / cols) (k mod cols) = (_ax + _ay) / 2) /\
    (forall n, (length image_sequence <= n < rows * cols)%nat ->
       item 0 a (n / cols) (n mod cols) = 0).
Proof.
  intros Hout.
  destruct (run_returned _ _ Hout) as (Hw & fx & fy & m & Href & Hscan & Hafter).
  destruct (scan_cells minimize fx fy start_point rows cols solver roi bad_pixels
              image_sequence 0 start m t (zeros_maps_shape rows cols) Hscan)
    as (Hm & Hcells & Hrest).
  destruct (after_scan_returned _ _ _ _ _ _ _ _ _ _ _ _ _ _ _ _ Hm Hafter)
    as (Ha & _).
  destruct Hm as ((Wax & Nax & Cax) & (Way & Nay & Cay) & _).
  assert (Hitem : forall n, (n < rows * cols)%nat ->
            item 0 a (n / cols) (n mod cols)
            = (item 0 (m_ax m) (n / cols) (n mod cols)
               + item 0 (m_ay m) (n / cols) (n mod cols)) / 2).
  { intros n Hn. destruct (unravel_lt n rows cols Hn) as [Hi Hj]. subst a.
    apply (item_amap2 (fun p q => (p + q) / 2) (m_ax m) (m_ay m)); try congruence; lia. }
  exists fx, fy. split; [exact Href|]. split.
  - intros k im Hk. destruct (Hcells k im Hk) as [Hlt Hfit].
    cbn [Nat.add] in Hlt, Hfit. unfold cell in Hfit.
    do 4 eexists. split; [exact Hfit|]. apply Hitem, Hlt.
  - intros n [Hge Hlt]. rewrite (Hitem n Hlt).
    assert (Hcell : cell m (n / cols) (n mod cols) = (0, 0, 0, 0)).
    { rewrite (Hrest n Hlt) by (right; cbn [Nat.add]; exact Hge).
      apply zeros_cell. }
    unfold cell in Hcell. injection Hcell as -> -> _ _. lra.
Qed.

(** X17. When the region of interest leaves one of the two projections
    of the reference image empty, [dpc_runner] raises the error of the
    inverse transform before it asks for any image of the sequence. *)
Theorem reference_projection_empty (refx refy : list R) :
  0 <= w <= 1 ->
  image_reduction ref roi bad_pixels = Ok (refx, refy) ->
  refx = [] \/ refy = [] ->
  out = (Raise bad_fft_size, []).
Proof.
  intros Hw Hred Hempty.
  assert (Href : reference_spectra ref roi bad_pixels = Raise bad_fft_size).
  { unfold reference_spectra. rewrite Hred. cbv beta iota delta [Py.bind].
    destruct Hempty as [-> | ->]; [reflexivity|].
    destruct (spectrum refx) as [fx|e] eqn:E; [reflexivity|].
    f_equal. exact (spectrum_raises _ _ E). }
  destruct (Runner.dpc_runner_cases minimize ref image_sequence start_point pixel_size
              focus_to_det rows cols dx dy energy padding w solver roi bad_pixels
              invert scale)
    as [[Hbad _]|[(_ & e & He & Hr)|(_ & fx & fy & res & t' & Hr & _)]];
    [lra | | congruence].
  fold out in Hr. rewrite Hr. congruence.
Qed.


End RunOutcomes.

(** a run on a 1 x 2 grid with one image, the rescaling off: it returns,
    the second cell of the grid never filled *)
Example dpc_runner_unscaled_run :
  exists phi a,
    dpc_runner Examples.minimize_x0 Examples.im11 [Examples.im11] [1; 0] (1, 2) 1
      1 2 1 1 1 0 (1 / 2) "Nelder-Mead" None None true false
    = (Ok (phi, a), [Next 0; Reduced 0; Fitted 0 X; Fitted 0 Y; StopIteration]).
Proof.
  eassert (Href : reference_spectra Examples.im11 None None = Ok (_, _))
    by reflexivity.
  match type of Href with
  | _ = Ok (?fx, ?fy) =>
      eassert (Hscan : scan Examples.minimize_x0 fx fy [1; 0] 1 2 "Nelder-Mead" None None
                         0 [Examples.im11]
                         (mk_maps (zeros 1 2) (zeros 1 2) (zeros 1 2) (zeros 1 2))
                       = (Ok _, _)) by reflexivity
  end.
  destruct (scan_cells _ _ _ _ _ _ _ _ _ _ _ _ _ _ (zeros_maps_shape 1 2) Hscan)
    as (Hm & _).
  edestruct (after_scan_returns false true (1, 2) 1 1 1 1 0 (1 / 2)) as (phi & a & Hafter);
    [exact Hm | lia | lia | lra | discriminate |].
  exists phi, a.
  refine (run_returns _ _ _ _ _ _ _ _ _ _ _ _ _ _ _ _ _ _ _ _ _ _ _ _ Href Hscan Hafter).
  lra.
Qed.



(** X15 on the run with the rescaling off *)
Lemma dpc_runner_result_shape_witness :
  exists phi a t,
    dpc_runner Examples.minimize_x0 Examples.im11 [Examples.im11] [1; 0] (1, 2) 1
      1 2 1 1 1 0 (1 / 2) "Nelder-Mead" None None true false = (Ok (phi, a), t) /\
    t = (positions_trace 0 (length [Examples.im11]) ++ [StopIteration])%list /\
    pulls t = length [Examples.im11] /\
    (wf phi /\ nrows phi = 1%nat /\ ncols phi = 2%nat) /\
    (wf a /\ nrows a = 1%nat /\ ncols a = 2%nat).
Proof.
  destruct dpc_runner_unscaled_run as (phi & a & Hrun).
  exists phi, a. eexists. split; [exact Hrun|].
  exact (dpc_runner_result_shape _ _ _ _ _ _ _ _ _ _ _ _ _ _ _ _ _ _ _ _ _ Hrun).
Defined.

(** X16 on the run with the rescaling off *)
Lemma dpc_runner_amplitude_cells_witness :
  exists phi a t,
    dpc_runner Examples.minimize_x0 Examples.im11 [Examples.im11] [1; 0] (1, 2) 1
      1 2 1 1 1 0 (1 / 2) "Nelder-Mead" None None true false = (Ok (phi, a), t) /\
    exists ref_fx ref_fy,
      reference_spectra Examples.im11 None None = Ok (ref_fx, ref_fy) /\
      (forall k im, nth_error [Examples.im11] k = Some im ->
         exists _ax _ay _gx _gy,
           fitted Examples.minimize_x0 ref_fx ref_fy [1; 0] "Nelder-Mead" None None im
             (_ax, _ay, _gx, _gy) /\
           item 0 a (k / 2) (k mod 2) = (_ax + _ay) / 2) /\
      (forall n, (length [Examples.im11] <= n < 1 * 2)%nat ->
         item 0 a (n / 2) (n mod 2) = 0).
Proof.
  destruct dpc_runner_unscaled_run as (phi & a & Hrun).
  exists phi, a. eexists. split; [exact Hrun|].
  exact (dpc_runner_amplitude_cells _ _ _ _ _ _ _ _ _ _ _ _ _ _ _ _ _ _ _ _ _ Hrun).
Defined.

(** X17 on the one-pixel image with a region of no column *)
Lemma reference_projection_empty_witness :
  dpc_runner Examples.minimize_x0 Examples.im11 [Examples.im11] [1; 0] (1, 1) 1
    1 1 1 1 1 0 (1 / 2) "Nelder-Mead" (Some (0, 0, 1, 0)%Z) None true true
  = (Raise bad_fft_size, []).
Proof.
  eapply (reference_projection_empty Examples.minimize_x0 Examples.im11
            [Examples.im11] [1; 0] (1, 1) 1 1 1 1 1 1 0 (1 / 2)
            "Nelder-Mead" (Some (0, 0, 1, 0)%Z) None true true).
  - lra.
  - reflexivity.
  - left. reflexivity.
Defined.


End RunnerMore.
